(** * jsonFileDB: a shallow embedding of [index.js] and its specification

    The development follows the source file top to bottom:

    - [Json]: the values held in a storage file, with the two platform
      functions the class relies on, [JSON.stringify] and [JSON.parse],
      and the law that parsing undoes printing;
    - [Node]: the part of Node's [fs] module the class calls (synchronous
      reads and writes, the asynchronous [fs.writeFile], the thread pool
      that carries it out and the event-loop turn that calls back) and
      [Math.random];
    - [Db]: the class [jsonFileDB] itself, method by method;
    - the theorems about the claims of the specification.

    Numbers are modelled by [Z] (the integers a double holds exactly, up to
    2^53 either way) and strings by their UTF-8 bytes, the text of a file
    being taken to be well-formed UTF-8. *)

From Stdlib Require Import ZArith List Ascii String Bool Lia.
From Stdlib Require Import DecimalFacts DecimalPos DecimalZ.
From stdpp Require Import gmap strings.

Local Open Scope list_scope.

(* ===================================================================== *)
(** * JSON values *)
(* ===================================================================== *)

Module Json.

(** A JavaScript value: what [JSON.parse] builds (null, booleans, numbers,
    strings, arrays, objects) and what the object a caller passes can hold
    besides, [undefined] and the numbers [NaN], [Infinity] and [-Infinity].
    [JNum n] is the double that holds the integer [n], which there is for
    every [n] up to 2^53 either way ([exact]); doubles that are not
    integers are not modelled.  An object lists its properties in the
    order in which [Object.keys], [for ... in] and [JSON.stringify] go
    through them: the array indices first, in ascending order, then the
    other names in the order of their creation ([ordered]). *)
#[warnings="-register-all"]
Inductive value : Type :=
| JNull
| JBool (b : bool)
| JNum (n : Z)
| JStr (s : string)
| JArr (items : list value)
| JObj (fields : list (string * value))
| JUndefined
| JNaN
| JInf (negative : bool).

(** A record is the property list of an object. *)
Definition record : Type := list (string * value).

(** [o[k]] on an object: [None] stands for [undefined]. *)
Fixpoint obj_get (k : string) (o : record) : option value :=
  match o with
  | [] => None
  | (k', v) :: o' => if String.eqb k k' then Some v else obj_get k o'
  end.

(** The number that a string of decimal digits writes, after [acc]. *)
Fixpoint digits_value (acc : N) (s : string) : option N :=
  match s with
  | EmptyString => Some acc
  | String c s' =>
      let n := nat_of_ascii c in
      if Nat.leb 48 n && Nat.leb n 57
      then digits_value (acc * 10 + N.of_nat (n - 48)) s'
      else None
  end.

(** An array index: the decimal text, without a leading zero, of a number
    below 2^32 - 1. *)
Definition array_index (k : string) : option N :=
  match k with
  | EmptyString => None
  | String c s' =>
      if Nat.eqb (nat_of_ascii c) 48 && negb (String.eqb s' EmptyString)
      then None
      else match digits_value 0 k with
           | Some n => if N.ltb n 4294967295 then Some n else None
           | None => None
           end
  end.

(** OrdinaryOwnPropertyKeys: a new property [k] is listed before the
    property [k'] when [k] is an array index and [k'] is not one or is a
    greater one. *)
Definition before (k k' : string) : bool :=
  match array_index k, array_index k' with
  | Some n, Some n' => N.ltb n n'
  | Some _, None => true
  | None, _ => false
  end.

(** An existing property keeps its place and takes the new value. *)
Fixpoint obj_replace (k : string) (v : value) (o : record) : record :=
  match o with
  | [] => []
  | (k', v') :: o' =>
      if String.eqb k k' then (k', v) :: o' else (k', v') :: obj_replace k v o'
  end.

(** A new property goes last, an array index after the smaller ones. *)
Fixpoint obj_insert (k : string) (v : value) (o : record) : record :=
  match o with
  | [] => [(k, v)]
  | (k', v') :: o' =>
      if before k k' then (k, v) :: (k', v') :: o'
      else (k', v') :: obj_insert k v o'
  end.

(** The object [o] with the property [k] set to [v], as [JSON.parse]
    defines the properties of the object it builds and as an assignment
    under a name other than [__proto__] does. *)
Definition obj_set (k : string) (v : value) (o : record) : record :=
  match obj_get k o with
  | Some _ => obj_replace k v o
  | None => obj_insert k v o
  end.

Definition keys (o : record) : list string := map fst o.

(** [o[k] = v] as an assignment evaluates it.  Under [__proto__] an object
    that has no such property of its own has the accessor of
    [Object.prototype]: the assignment goes to its setter, which changes
    the prototype of the object or does nothing, and the object gets no
    property.  [settable k o]: the assignment is to a property of [o]. *)
Definition settable (k : string) (o : record) : bool :=
  negb (String.eqb k "__proto__")
  || match obj_get k o with
     | Some _ => true
     | None => false
     end.

Definition obj_assign (k : string) (v : value) (o : record) : record :=
  if settable k o then obj_set k v o else o.

(** ** Well-formed values

    The values a storage file can hold and give back unchanged: no object
    lists a key twice, every object lists its keys as JavaScript does,
    every number is an integer that a double holds exactly, and there is no
    [undefined], [NaN] or [Infinity]. *)

Fixpoint nodup_keys (ks : list string) : bool :=
  match ks with
  | [] => true
  | k :: ks' => negb (existsb (String.eqb k) ks') && nodup_keys ks'
  end.

(** No key is listed after one it goes before. *)
Fixpoint ordered (ks : list string) : bool :=
  match ks with
  | [] => true
  | k :: ks' => forallb (fun k' => negb (before k' k)) ks' && ordered ks'
  end.

(** 2^53: up to it, either way, every integer is a double, and
    [Number.prototype.toString] writes its digits. *)
Definition max_exact : Z := 9007199254740992.

Definition exact (n : Z) : bool := Z.leb (Z.abs n) max_exact.

Fixpoint wf (v : value) : bool :=
  match v with
  | JArr l => forallb wf l
  | JObj o =>
      nodup_keys (map fst o) && ordered (map fst o)
      && forallb (fun kv => wf (snd kv)) o
  | JNum n => exact n
  | JUndefined | JNaN | JInf _ => false
  | JNull | JBool _ | JStr _ => true
  end.

Definition wf_record (r : record) : bool := wf (JObj r).

(** ** Deep value equality *)

Fixpoint deep_equal (a b : value) {struct a} : bool :=
  match a, b with
  | JNull, JNull => true
  | JBool x, JBool y => Bool.eqb x y
  | JNum x, JNum y => Z.eqb x y
  | JStr x, JStr y => String.eqb x y
  | JUndefined, JUndefined => true
  | JNaN, JNaN => true
  | JInf x, JInf y => Bool.eqb x y
  | JArr l, JArr m =>
      (fix all2 (l : list value) (m : list value) {struct l} : bool :=
         match l, m with
         | [], [] => true
         | x :: l', y :: m' => deep_equal x y && all2 l' m'
         | _, _ => false
         end) l m
  | JObj o, JObj p =>
      (fix all2 (o : list (string * value)) (p : list (string * value))
           {struct o} : bool :=
         match o, p with
         | [], [] => true
         | (k, x) :: o', (k', y) :: p' =>
             String.eqb k k' && deep_equal x y && all2 o' p'
         | _, _ => false
         end) o p
  | _, _ => false
  end.

(** ** [JSON.stringify] *)

Definition chars (s : string) : list ascii := list_ascii_of_string s.

Definition dquote : ascii := ascii_of_nat 34.
Definition backslash : ascii := ascii_of_nat 92.

Definition hex_digit (n : nat) : ascii :=
  nth n (chars "0123456789abcdef") "0"%char.

(** QuoteJSONString, one code unit at a time. *)
Definition escape_char (c : ascii) : list ascii :=
  let n := nat_of_ascii c in
  if Nat.eqb n 34 then [backslash; dquote]
  else if Nat.eqb n 92 then [backslash; backslash]
  else if Nat.eqb n 8 then chars "\b"
  else if Nat.eqb n 9 then chars "\t"
  else if Nat.eqb n 10 then chars "\n"
  else if Nat.eqb n 12 then chars "\f"
  else if Nat.eqb n 13 then chars "\r"
  else if Nat.ltb n 32 then
    chars "\u00" ++ [hex_digit (n / 16); hex_digit (n mod 16)]
  else [c].

Definition quote (s : string) : list ascii :=
  dquote :: flat_map escape_char (chars s) ++ [dquote].

Definition digit_char (d : nat) : ascii := ascii_of_nat (48 + d).

Fixpoint print_uint (d : Decimal.uint) : list ascii :=
  match d with
  | Decimal.Nil => []
  | Decimal.D0 d' => digit_char 0 :: print_uint d'
  | Decimal.D1 d' => digit_char 1 :: print_uint d'
  | Decimal.D2 d' => digit_char 2 :: print_uint d'
  | Decimal.D3 d' => digit_char 3 :: print_uint d'
  | Decimal.D4 d' => digit_char 4 :: print_uint d'
  | Decimal.D5 d' => digit_char 5 :: print_uint d'
  | Decimal.D6 d' => digit_char 6 :: print_uint d'
  | Decimal.D7 d' => digit_char 7 :: print_uint d'
  | Decimal.D8 d' => digit_char 8 :: print_uint d'
  | Decimal.D9 d' => digit_char 9 :: print_uint d'
  end.

Definition print_Z (n : Z) : list ascii :=
  match Z.to_int n with
  | Decimal.Pos d => print_uint d
  | Decimal.Neg d => "-"%char :: print_uint d
  end.

(** The texts of a list, separated by commas. *)
Fixpoint commas (ts : list (list ascii)) : list ascii :=
  match ts with
  | [] => []
  | [t] => t
  | t :: ts' => t ++ ","%char :: commas ts'
  end.

(** The texts of the members of an object, over a printer [pr] for their
    values: a property that holds [undefined] is left out. *)
Section Members.
Variable pr : value -> list ascii.

Fixpoint print_members (o : list (string * value)) : list (list ascii) :=
  match o with
  | [] => []
  | (k, v) :: o' =>
      match v with
      | JUndefined => print_members o'
      | _ => (quote k ++ ":"%char :: pr v) :: print_members o'
      end
  end.

End Members.

(** SerializeJSONProperty.  A number that is not finite is written as
    [null], and so is an [undefined] among the elements of an array. *)
Fixpoint print (v : value) : list ascii :=
  match v with
  | JNull => chars "null"
  | JBool true => chars "true"
  | JBool false => chars "false"
  | JNum n => print_Z n
  | JStr s => quote s
  | JArr l => "["%char :: commas (map print l) ++ ["]"%char]
  | JObj o => "{"%char :: commas (print_members print o) ++ ["}"%char]
  | JUndefined | JNaN | JInf _ => chars "null"
  end.

(** [JSON.stringify(v)] for the arrays and objects the class passes to it.
    [print_Z] is the text of a number up to [max_exact]; a larger one is
    written with its shortest digits, or with an exponent, which is not
    modelled. *)
Definition JSON_stringify (v : value) : string :=
  string_of_list_ascii (print v).

(** ** [JSON.parse] *)

(** A parser consumes a prefix of the text and returns the rest. *)
Definition parser (A : Type) : Type := list ascii -> option (A * list ascii).

Definition is_ws (c : ascii) : bool :=
  let n := nat_of_ascii c in
  Nat.eqb n 32 || Nat.eqb n 9 || Nat.eqb n 10 || Nat.eqb n 13.

Fixpoint skip_ws (s : list ascii) : list ascii :=
  match s with
  | c :: s' => if is_ws c then skip_ws s' else s
  | [] => []
  end.

(** [expect kw s] strips the keyword [kw] from the front of [s]. *)
Fixpoint expect (kw s : list ascii) : option (list ascii) :=
  match kw, s with
  | [], _ => Some s
  | k :: kw', c :: s' => if Ascii.eqb k c then expect kw' s' else None
  | _ :: _, [] => None
  end.

(** *** Numbers: an optional sign and an integer without leading zeros.
    A fraction or an exponent denotes a double that is not an integer of
    the model, and an integer beyond [max_exact] is rounded to the nearest
    double; the parser refuses both (see [JSON_valid] for the texts
    [JSON.parse] accepts). *)

Definition digit_of (c : ascii) : option nat :=
  let n := nat_of_ascii c in
  if Nat.leb 48 n && Nat.leb n 57 then Some (n - 48) else None.

Definition cons_digit (n : nat) (d : Decimal.uint) : Decimal.uint :=
  match n with
  | 0 => Decimal.D0 d | 1 => Decimal.D1 d | 2 => Decimal.D2 d
  | 3 => Decimal.D3 d | 4 => Decimal.D4 d | 5 => Decimal.D5 d
  | 6 => Decimal.D6 d | 7 => Decimal.D7 d | 8 => Decimal.D8 d
  | _ => Decimal.D9 d
  end.

Fixpoint parse_digits (s : list ascii) : Decimal.uint * list ascii :=
  match s with
  | c :: s' =>
      match digit_of c with
      | Some n => let (d, r) := parse_digits s' in (cons_digit n d, r)
      | None => (Decimal.Nil, s)
      end
  | [] => (Decimal.Nil, [])
  end.

Definition json_int (d : Decimal.uint) : bool :=
  match d with
  | Decimal.Nil => false
  | Decimal.D0 Decimal.Nil => true
  | Decimal.D0 _ => false
  | _ => true
  end.

Definition frac_or_exp (c : ascii) : bool :=
  let n := nat_of_ascii c in Nat.eqb n 46 || Nat.eqb n 101 || Nat.eqb n 69.

Definition integer_ends (r : list ascii) : bool :=
  match r with
  | c :: _ => negb (frac_or_exp c)
  | [] => true
  end.

Definition parse_number : parser Z := fun s =>
  match s with
  | c :: s' =>
      if Nat.eqb (nat_of_ascii c) 45 then
        let (d, r) := parse_digits s' in
        if json_int d && integer_ends r && exact (Z.of_int (Decimal.Neg d))
        then Some (Z.of_int (Decimal.Neg d), r) else None
      else
        let (d, r) := parse_digits s in
        if json_int d && integer_ends r && exact (Z.of_int (Decimal.Pos d))
        then Some (Z.of_int (Decimal.Pos d), r) else None
  | [] => None
  end.

(** *** Strings *)

Definition hex_of (c : ascii) : option nat :=
  let n := nat_of_ascii c in
  if Nat.leb 48 n && Nat.leb n 57 then Some (n - 48)
  else if Nat.leb 97 n && Nat.leb n 102 then Some (n - 87)
  else if Nat.leb 65 n && Nat.leb n 70 then Some (n - 55)
  else None.

Definition hex4 (a b c d : ascii) : option nat :=
  match hex_of a, hex_of b, hex_of c, hex_of d with
  | Some x, Some y, Some z, Some w => Some (((x * 16 + y) * 16 + z) * 16 + w)
  | _, _, _, _ => None
  end.

(** The bytes of the code unit [n] of a [\uXXXX] escape that is a
    character by itself. *)
Definition utf8 (n : nat) : list ascii :=
  if Nat.ltb n 128 then [ascii_of_nat n]
  else if Nat.ltb n 2048 then
    [ascii_of_nat (192 + n / 64); ascii_of_nat (128 + n mod 64)]
  else
    [ascii_of_nat (224 + n / 4096); ascii_of_nat (128 + (n / 64) mod 64);
     ascii_of_nat (128 + n mod 64)].

(** The two halves of a surrogate pair: D800 to DBFF, then DC00 to DFFF. *)
Definition high_surrogate (n : nat) : bool := Nat.eqb (n / 1024) 54.
Definition low_surrogate (n : nat) : bool := Nat.eqb (n / 1024) 55.

(** The four bytes of the character that the pair [hi], [lo] stands for:
    the code point 10000 + 400 * (hi - D800) + (lo - DC00), in hexadecimal. *)
Definition utf8_pair (hi lo : nat) : list ascii :=
  let u := 64 + hi mod 1024 in
  let l := lo mod 1024 in
  [ascii_of_nat (240 + u / 256); ascii_of_nat (128 + (u / 4) mod 64);
   ascii_of_nat (128 + (u mod 4) * 16 + l / 64);
   ascii_of_nat (128 + l mod 64)].

Definition simple_escape (c : ascii) : option ascii :=
  let n := nat_of_ascii c in
  if Nat.eqb n 34 then Some dquote
  else if Nat.eqb n 92 then Some backslash
  else if Nat.eqb n 47 then Some "/"%char
  else if Nat.eqb n 98 then Some (ascii_of_nat 8)
  else if Nat.eqb n 102 then Some (ascii_of_nat 12)
  else if Nat.eqb n 110 then Some (ascii_of_nat 10)
  else if Nat.eqb n 114 then Some (ascii_of_nat 13)
  else if Nat.eqb n 116 then Some (ascii_of_nat 9)
  else None.

Definition prepend (cs : list ascii) (p : option (list ascii * list ascii))
  : option (list ascii * list ascii) :=
  match p with
  | Some (t, r) => Some (cs ++ t, r)
  | None => None
  end.

(** The characters of a string literal, after its opening quote, up to and
    including the closing quote.  The two escapes of a surrogate pair make
    one character.  A half without its other half is a code unit that no
    text in UTF-8 holds: the parser refuses it (the grammar does not, see
    [scan_chars]). *)
Fixpoint parse_chars (s : list ascii) : option (list ascii * list ascii) :=
  match s with
  | [] => None
  | c :: s' =>
      if Nat.eqb (nat_of_ascii c) 34 then Some ([], s')
      else if Nat.eqb (nat_of_ascii c) 92 then
        match s' with
        | [] => None
        | e :: s'' =>
            match simple_escape e with
            | Some x => prepend [x] (parse_chars s'')
            | None =>
                if Nat.eqb (nat_of_ascii e) 117 then
                  match s'' with
                  | h1 :: h2 :: h3 :: h4 :: s''' =>
                      match hex4 h1 h2 h3 h4 with
                      | Some n =>
                          if high_surrogate n then
                            match s''' with
                            | b :: u :: l1 :: l2 :: l3 :: l4 :: s4 =>
                                if Nat.eqb (nat_of_ascii b) 92
                                   && Nat.eqb (nat_of_ascii u) 117
                                then
                                  match hex4 l1 l2 l3 l4 with
                                  | Some m =>
                                      if low_surrogate m
                                      then prepend (utf8_pair n m)
                                                   (parse_chars s4)
                                      else None
                                  | None => None
                                  end
                                else None
                            | _ => None
                            end
                          else if low_surrogate n then None
                          else prepend (utf8 n) (parse_chars s''')
                      | None => None
                      end
                  | _ => None
                  end
                else None
            end
        end
      else if Nat.ltb (nat_of_ascii c) 32 then None
      else prepend [c] (parse_chars s')
  end.

Definition parse_string : parser string := fun s =>
  match parse_chars s with
  | Some (t, r) => Some (string_of_list_ascii t, r)
  | None => None
  end.

(** *** Arrays and objects, over a parser [pv] for their elements *)

Fixpoint parse_elements (pv : parser value) (n : nat) (s : list ascii)
  : option (list value * list ascii) :=
  match n with
  | 0 => None
  | S n' =>
      match pv s with
      | None => None
      | Some (v, r) =>
          match skip_ws r with
          | c :: r' =>
              if Nat.eqb (nat_of_ascii c) 44 then
                match parse_elements pv n' r' with
                | Some (vs, r'') => Some (v :: vs, r'')
                | None => None
                end
              else if Nat.eqb (nat_of_ascii c) 93 then Some ([v], r')
              else None
          | [] => None
          end
      end
  end.

Fixpoint parse_members (pv : parser value) (n : nat) (s : list ascii)
  : option (list (string * value) * list ascii) :=
  match n with
  | 0 => None
  | S n' =>
      match skip_ws s with
      | q :: s1 =>
          if Nat.eqb (nat_of_ascii q) 34 then
            match parse_string s1 with
            | None => None
            | Some (k, s2) =>
                match skip_ws s2 with
                | colon :: s3 =>
                    if Nat.eqb (nat_of_ascii colon) 58 then
                      match pv s3 with
                      | None => None
                      | Some (v, r) =>
                          match skip_ws r with
                          | c :: r' =>
                              if Nat.eqb (nat_of_ascii c) 44 then
                                match parse_members pv n' r' with
                                | Some (ms, r'') => Some ((k, v) :: ms, r'')
                                | None => None
                                end
                              else if Nat.eqb (nat_of_ascii c) 125
                              then Some ([(k, v)], r')
                              else None
                          | [] => None
                          end
                      end
                    else None
                | [] => None
                end
            end
          else None
      | [] => None
      end
  end.

(** The object built from the members of a literal, in text order: a key
    met again overwrites the value and keeps the place of its first
    occurrence. *)
Definition build_object (ms : list (string * value)) : record :=
  fold_left (fun o kv => obj_set (fst kv) (snd kv) o) ms [].

Fixpoint parse_value (fuel : nat) (s : list ascii)
  : option (value * list ascii) :=
  match fuel with
  | 0 => None
  | S fuel' =>
      match skip_ws s with
      | [] => None
      | c :: r =>
          let n := nat_of_ascii c in
          if Nat.eqb n 34 then
            match parse_string r with
            | Some (t, r') => Some (JStr t, r')
            | None => None
            end
          else if Nat.eqb n 91 then
            match skip_ws r with
            | c' :: r' =>
                if Nat.eqb (nat_of_ascii c') 93 then Some (JArr [], r')
                else
                  match parse_elements (parse_value fuel') fuel' r with
                  | Some (vs, r'') => Some (JArr vs, r'')
                  | None => None
                  end
            | [] => None
            end
          else if Nat.eqb n 123 then
            match skip_ws r with
            | c' :: r' =>
                if Nat.eqb (nat_of_ascii c') 125 then Some (JObj [], r')
                else
                  match parse_members (parse_value fuel') fuel' r with
                  | Some (ms, r'') => Some (JObj (build_object ms), r'')
                  | None => None
                  end
            | [] => None
            end
          else if Nat.eqb n 116 then
            match expect (chars "rue") r with
            | Some r' => Some (JBool true, r')
            | None => None
            end
          else if Nat.eqb n 102 then
            match expect (chars "alse") r with
            | Some r' => Some (JBool false, r')
            | None => None
            end
          else if Nat.eqb n 110 then
            match expect (chars "ull") r with
            | Some r' => Some (JNull, r')
            | None => None
            end
          else
            match parse_number (c :: r) with
            | Some (z, r') => Some (JNum z, r')
            | None => None
            end
      end
  end.

(** [JSON.parse text]: one value, with nothing but white space after it.
    Every call of [parse_value] consumes a character, so the length of the
    text is fuel enough.  [Some v]: the text denotes [v].  [None]: the text
    is not JSON, and [JSON.parse] throws a [SyntaxError], or it holds a
    number the model has not. *)
Definition JSON_parse (text : string) : option value :=
  let s := chars text in
  match parse_value (S (length s)) s with
  | Some (v, r) =>
      match skip_ws r with
      | [] => Some v
      | _ :: _ => None
      end
  | None => None
  end.

(** ** The texts [JSON.parse] accepts

    The grammar of JSON, with the fractions and the exponents of its
    numbers: [JSON.parse] throws its [SyntaxError] on the texts for which
    [JSON_valid] is false, and on no other.  A scanner returns the text that
    follows what it has recognised. *)

Definition scanner : Type := list ascii -> option (list ascii).

Fixpoint skip_digits (s : list ascii) : list ascii :=
  match s with
  | c :: s' =>
      match digit_of c with
      | Some _ => skip_digits s'
      | None => s
      end
  | [] => []
  end.

(** One digit or more. *)
Definition scan_digits : scanner := fun s =>
  match s with
  | c :: s' =>
      match digit_of c with
      | Some _ => Some (skip_digits s')
      | None => None
      end
  | [] => None
  end.

(** A zero, or a digit from 1 to 9 and the digits after it. *)
Definition scan_int : scanner := fun s =>
  match s with
  | c :: s' =>
      match digit_of c with
      | Some 0 => Some s'
      | Some _ => Some (skip_digits s')
      | None => None
      end
  | [] => None
  end.

(** The fraction, if there is one: a point and digits. *)
Definition scan_frac : scanner := fun s =>
  match s with
  | c :: s' => if Nat.eqb (nat_of_ascii c) 46 then scan_digits s' else Some s
  | [] => Some []
  end.

(** The exponent, if there is one: [e] or [E], a sign or none, digits. *)
Definition scan_exp : scanner := fun s =>
  match s with
  | c :: s' =>
      if Nat.eqb (nat_of_ascii c) 101 || Nat.eqb (nat_of_ascii c) 69 then
        match s' with
        | sign :: s'' =>
            if Nat.eqb (nat_of_ascii sign) 43
               || Nat.eqb (nat_of_ascii sign) 45
            then scan_digits s'' else scan_digits s'
        | [] => None
        end
      else Some s
  | [] => Some []
  end.

Definition scan_number : scanner := fun s =>
  let unsigned :=
    match s with
    | c :: s' => if Nat.eqb (nat_of_ascii c) 45 then s' else s
    | [] => []
    end in
  match scan_int unsigned with
  | Some s1 =>
      match scan_frac s1 with
      | Some s2 => scan_exp s2
      | None => None
      end
  | None => None
  end.

(** A string literal after its opening quote. *)
Fixpoint scan_chars (s : list ascii) : option (list ascii) :=
  match s with
  | [] => None
  | c :: s' =>
      if Nat.eqb (nat_of_ascii c) 34 then Some s'
      else if Nat.eqb (nat_of_ascii c) 92 then
        match s' with
        | [] => None
        | e :: s'' =>
            match simple_escape e with
            | Some _ => scan_chars s''
            | None =>
                if Nat.eqb (nat_of_ascii e) 117 then
                  match s'' with
                  | h1 :: h2 :: h3 :: h4 :: s''' =>
                      match hex4 h1 h2 h3 h4 with
                      | Some _ => scan_chars s'''
                      | None => None
                      end
                  | _ => None
                  end
                else None
            end
        end
      else if Nat.ltb (nat_of_ascii c) 32 then None
      else scan_chars s'
  end.

Fixpoint scan_elements (sv : scanner) (n : nat) (s : list ascii)
  : option (list ascii) :=
  match n with
  | 0 => None
  | S n' =>
      match sv s with
      | None => None
      | Some r =>
          match skip_ws r with
          | c :: r' =>
              if Nat.eqb (nat_of_ascii c) 44 then scan_elements sv n' r'
              else if Nat.eqb (nat_of_ascii c) 93 then Some r'
              else None
          | [] => None
          end
      end
  end.

Fixpoint scan_members (sv : scanner) (n : nat) (s : list ascii)
  : option (list ascii) :=
  match n with
  | 0 => None
  | S n' =>
      match skip_ws s with
      | q :: s1 =>
          if Nat.eqb (nat_of_ascii q) 34 then
            match scan_chars s1 with
            | None => None
            | Some s2 =>
                match skip_ws s2 with
                | colon :: s3 =>
                    if Nat.eqb (nat_of_ascii colon) 58 then
                      match sv s3 with
                      | None => None
                      | Some r =>
                          match skip_ws r with
                          | c :: r' =>
                              if Nat.eqb (nat_of_ascii c) 44
                              then scan_members sv n' r'
                              else if Nat.eqb (nat_of_ascii c) 125
                              then Some r'
                              else None
                          | [] => None
                          end
                      end
                    else None
                | [] => None
                end
            end
          else None
      | [] => None
      end
  end.

Fixpoint scan_value (fuel : nat) (s : list ascii) : option (list ascii) :=
  match fuel with
  | 0 => None
  | S fuel' =>
      match skip_ws s with
      | [] => None
      | c :: r =>
          let n := nat_of_ascii c in
          if Nat.eqb n 34 then scan_chars r
          else if Nat.eqb n 91 then
            match skip_ws r with
            | c' :: r' =>
                if Nat.eqb (nat_of_ascii c') 93 then Some r'
                else scan_elements (scan_value fuel') fuel' r
            | [] => None
            end
          else if Nat.eqb n 123 then
            match skip_ws r with
            | c' :: r' =>
                if Nat.eqb (nat_of_ascii c') 125 then Some r'
                else scan_members (scan_value fuel') fuel' r
            | [] => None
            end
          else if Nat.eqb n 116 then expect (chars "rue") r
          else if Nat.eqb n 102 then expect (chars "alse") r
          else if Nat.eqb n 110 then expect (chars "ull") r
          else scan_number (c :: r)
      end
  end.

(** One value, with nothing but white space after it. *)
Definition JSON_valid (text : string) : bool :=
  let s := chars text in
  match scan_value (S (length s)) s with
  | Some r =>
      match skip_ws r with
      | [] => true
      | _ :: _ => false
      end
  | None => false
  end.

(** ** Vocabulary for the facts about the codec *)

(** What the scanner [sv] accepts, it accepts by taking characters, and
    [scan_value] accepts it with as much fuel as characters are taken. *)
Definition fuelled (sv : scanner) : Prop :=
  forall s r, sv s = Some r ->
    length r < length s
    /\ forall f, length s - length r <= f -> scan_value f s = Some r.

(** The text after a printed value in a printed document: nothing, or a
    comma or a closing bracket. *)
Definition delimited (rest : list ascii) : Prop :=
  match rest with
  | [] => True
  | c :: _ =>
      nat_of_ascii c = 44 \/ nat_of_ascii c = 93 \/ nat_of_ascii c = 125
  end.

(** A character a number begins with. *)
Definition num_start (c : ascii) : bool :=
  let n := nat_of_ascii c in
  Nat.eqb n 45 || (Nat.leb 48 n && Nat.leb n 57).

(** No digit follows. *)
Definition no_digit (rest : list ascii) : Prop :=
  match rest with
  | [] => True
  | c :: _ => digit_of c = None
  end.

(** A character a printed value begins with. *)
Definition value_start (c : ascii) : bool :=
  negb (is_ws c) && negb (Nat.eqb (nat_of_ascii c) 93)
  && negb (Nat.eqb (nat_of_ascii c) 125).

(** The text of one member of an object. *)
Definition member_text (kv : string * value) : list ascii :=
  quote (fst kv) ++ ":"%char :: print (snd kv).

End Json.

(* ===================================================================== *)
(** * The platform: exceptions, [fs], the event loop, [Math.random] *)
(* ===================================================================== *)

Module Node.

(** What a JavaScript [throw] carries. *)
Inductive exn : Type :=
| SyntaxError                 (* JSON.parse on a text that is not JSON *)
| TypeError                   (* a property of null, a call of a non-function *)
| SystemError (code : string) (* an error of the file system *)
| Error (message : string)    (* new Error("...") *)
| ErrorOf (cause : exn).      (* new Error(err) *)

(** How a call ends. *)
Inductive outcome (A : Type) : Type :=
| Return (a : A)
| Throw (e : exn).
Arguments Return {A} a.
Arguments Throw {A} e.

(** A request handed to [fs.writeFile]: the thread pool carries the write
    out (see [in_flight]), and a later turn of the event loop calls
    [wr_callback] with the error, if any. *)
Record write_request : Type := {
  wr_path : string;
  wr_data : string;
  wr_callback : option exn -> outcome unit;
}.

(** The world outside the class. *)
Record env : Type := {
  files : gmap string string;        (* path |-> contents of the file *)
  readonly : gset string;            (* paths the process may not write *)
  pending : list write_request;      (* asynchronous writes not yet done *)
  uncaught : list exn;               (* thrown by a callback: no caller *)
  random : nat -> string;            (* k-th Math.random().toString(36) *)
  drawn : nat;                       (* number of draws made so far *)
}.

Definition with_files (f : gmap string string) (e : env) : env :=
  {| files := f; readonly := readonly e; pending := pending e;
     uncaught := uncaught e; random := random e; drawn := drawn e |}.

Definition with_pending (q : list write_request) (e : env) : env :=
  {| files := files e; readonly := readonly e; pending := q;
     uncaught := uncaught e; random := random e; drawn := drawn e |}.

Definition with_uncaught (u : list exn) (e : env) : env :=
  {| files := files e; readonly := readonly e; pending := pending e;
     uncaught := u; random := random e; drawn := drawn e |}.

Definition with_drawn (n : nat) (e : env) : env :=
  {| files := files e; readonly := readonly e; pending := pending e;
     uncaught := uncaught e; random := random e; drawn := n |}.

(** [fs.existsSync(path)] *)
Definition existsSync (path : string) (e : env) : bool :=
  match files e !! path with
  | Some _ => true
  | None => false
  end.

(** [fs.readFileSync(path, "utf8")]; a [null] path is an invalid argument. *)
Definition readFileSync (path : option string) (e : env) : outcome string :=
  match path with
  | None => Throw TypeError
  | Some p =>
      match files e !! p with
      | Some text => Return text
      | None => Throw (SystemError "ENOENT")
      end
  end.

Definition writable (path : string) (e : env) : bool :=
  bool_decide (path ∉ readonly e).

(** [fs.writeFileSync(path, data)]: the file holds [data] when the call
    returns; a refused write leaves the file as it was. *)
Definition writeFileSync (path : option string) (data : string) (e : env)
  : outcome unit * env :=
  match path with
  | None => (Throw TypeError, e)
  | Some p =>
      if writable p e then (Return tt, with_files (<[p := data]> (files e)) e)
      else (Throw (SystemError "EACCES"), e)
  end.

(** [fs.writeFile(path, data, callback)]: the call only queues the request
    and returns.  What the file holds from then on, until the callback is
    called, is up to the thread pool: see [in_flight]. *)
Definition writeFile (path : option string) (data : string)
    (callback : option exn -> outcome unit) (e : env) : outcome unit * env :=
  match path with
  | None => (Throw TypeError, e)
  | Some p =>
      (Return tt,
       with_pending
         (pending e ++
            [{| wr_path := p; wr_data := data; wr_callback := callback |}]) e)
  end.

(** The turn of the event loop that ends the oldest queued write: by then
    the file holds the data, or the write has been refused, and the
    callback is called.  What the callback throws has no caller to go to. *)
Definition turn (e : env) : env :=
  match pending e with
  | [] => e
  | w :: q =>
      let '(err, e1) :=
        if writable (wr_path w) e
        then (None, with_files (<[wr_path w := wr_data w]> (files e)) e)
        else (Some (SystemError "EACCES"), e) in
      let e2 := with_pending q e1 in
      match wr_callback w err with
      | Return _ => e2
      | Throw x => with_uncaught (uncaught e2 ++ [x]) e2
      end
  end.

(** The event loop runs until no write is queued. *)
Definition drain (e : env) : env := Nat.iter (length (pending e)) turn e.

(** Between the call of [fs.writeFile] and the turn that calls back, the
    thread pool works on the request while the program goes on: it opens
    the file, which empties it, and writes the data.  [in_flight e e']:
    the program that left the world [e] finds it as [e'] at its next step.
    Either no request has been touched yet, or the file of a queued request
    has been opened and holds the first [n] characters of the data: none,
    some, or all of them. *)
Inductive in_flight (e : env) : env -> Prop :=
| not_started : in_flight e e
| written (w : write_request) (n : nat) :
    In w (pending e) ->
    writable (wr_path w) e = true ->
    in_flight e
      (with_files (<[wr_path w := substring 0 n (wr_data w)]> (files e)) e).

(** [Math.random().toString(36)]: the text of the next draw, ["0"] when the
    draw is zero and ["0."] followed by base-36 digits otherwise. *)
Definition random_toString36 (e : env) : string * env :=
  (random e (drawn e), with_drawn (S (drawn e)) e).

End Node.

(* ===================================================================== *)
(** * The class [jsonFileDB] *)
(* ===================================================================== *)

Module Db.
Import Json Node.

(** The fields of an instance.  [storageData] is left out: [get] assigns it
    and no method reads it. *)
Record jsonFileDB : Type := {
  dbPath : string;
  storage : option string;       (* null until setStorage *)
  storagePath : option string;   (* null until setStorage *)
  lastInsertId : option value;   (* null until insert *)
}.

(** An instance as the field initialisers leave it. *)
Definition unbound (path : string) : jsonFileDB :=
  {| dbPath := path; storage := None; storagePath := None;
     lastInsertId := None |}.

(** A method runs on [this] and the world, and may change both, also when
    it throws. *)
Definition state : Type := jsonFileDB * env.
Definition M (A : Type) : Type := state -> outcome A * state.

Definition ret {A} (a : A) : M A := fun s => (Return a, s).
Definition throw {A} (e : exn) : M A := fun s => (Throw e, s).
Definition bind {A B} (m : M A) (k : A -> M B) : M B := fun s =>
  match m s with
  | (Return a, s') => k a s'
  | (Throw e, s') => (Throw e, s')
  end.

Notation "'let*' x ':=' m 'in' k" := (bind m (fun x => k))
  (at level 10, x name, k at level 200).
Notation "'let*' ' p ':=' m 'in' k" := (bind m (fun p => k))
  (at level 10, p pattern, k at level 200).

(** [try { m } catch (err) { throw new Error(err) }] *)
Definition try_rethrow {A} (m : M A) : M A := fun s =>
  match m s with
  | (Return a, s') => (Return a, s')
  | (Throw e, s') => (Throw (ErrorOf e), s')
  end.

Definition lift {A} (o : outcome A) : M A := fun s => (o, s).
Definition this : M jsonFileDB := fun s => (Return (fst s), s).
Definition modify_this (f : jsonFileDB -> jsonFileDB) : M unit := fun s =>
  (Return tt, (f (fst s), snd s)).
Definition ask {A} (f : env -> A) : M A := fun s => (Return (f (snd s)), s).
Definition on_env {A} (f : env -> outcome A * env) : M A := fun s =>
  let (o, e') := f (snd s) in (o, (fst s, e')).

Definition bind_storage (name path : string) (db : jsonFileDB) : jsonFileDB :=
  {| dbPath := dbPath db; storage := Some name; storagePath := Some path;
     lastInsertId := lastInsertId db |}.

Definition set_lastInsertId (id : value) (db : jsonFileDB) : jsonFileDB :=
  {| dbPath := dbPath db; storage := storage db;
     storagePath := storagePath db; lastInsertId := Some id |}.

(** The template literal of [setStorage]. *)
Definition storage_file (dir name : string) : string :=
  dir +:+ "/" +:+ name +:+ ".json".

(** [setStorage(storage)], lines 60-74. *)
Definition setStorage (name : string) : M unit :=
  let* db := this in
  let path := storage_file (dbPath db) name in
  let* _ := modify_this (bind_storage name path) in
  let* present := ask (existsSync path) in
  if negb present
  then try_rethrow (on_env (writeFileSync (Some path) "[]"))
  else ret tt.

(** [get(storage)], lines 130-142; the argument defaults to the empty
    string.  [fs.close(fs.openSync(...))]
    opens and closes the file just read and changes nothing.  On a text
    that is not JSON ([JSON_valid] is false) the [SyntaxError] is that of
    [JSON.parse]; on JSON with a number the model has not, it stands for
    what the model does not describe. *)
Definition get (name : string) : M value :=
  let* _ := (if negb (String.eqb name EmptyString)
             then setStorage name else ret tt) in
  try_rethrow (
    let* db := this in
    let* data := ask (readFileSync (storagePath db)) in
    let* data := lift data in
    match JSON_parse data with
    | Some v => ret v
    | None => throw SyntaxError
    end).

(** JavaScript truthiness, as [!] and [||] test it; [None] is [undefined]
    or [null]. *)
Definition truthy (v : value) : bool :=
  match v with
  | JNull | JUndefined | JNaN => false
  | JBool b => b
  | JNum n => negb (Z.eqb n 0)
  | JStr s => negb (String.eqb s EmptyString)
  | JArr _ | JObj _ | JInf _ => true
  end.

Definition truthy_opt (o : option value) : bool :=
  match o with
  | Some v => truthy v
  | None => false
  end.

(** [Math.random().toString(36).substring(2, 15)] *)
Definition random_chunk : M string :=
  let* t := on_env (fun e =>
              let (t, e') := random_toString36 e in (Return t, e')) in
  ret (substring 2 13 t).

(** The generated id, lines 90-91. *)
Definition generate_id : M string :=
  let* a := random_chunk in
  let* b := random_chunk in
  ret (a +:+ b).

(** [insertData.id || <generated>], lines 88-91. *)
Definition choose_id (insertData : record) : M value :=
  match obj_get "id" insertData with
  | Some v =>
      if truthy v then ret v
      else let* g := generate_id in ret (JStr g)
  | None => let* g := generate_id in ret (JStr g)
  end.

(** [data.push(insertData)]: [data] has to be an array. *)
Definition push (data : value) (item : value) : outcome value :=
  match data with
  | JArr l => Return (JArr (l ++ [item]))
  | _ => Throw TypeError
  end.

(** What [insert] holds when it is suspended at [await this.get()]: its
    argument, with the id, and the settled promise. *)
Definition insert_frame : Type := record * outcome value.

(** [insert(insertData)] up to the [await], lines 83-96. *)
Definition insert_begin (insertData : record) : M insert_frame :=
  let* db := this in
  if negb (truthy_opt (JStr <$> storage db)) then
    throw (Error "No storage selected. Call setStorage() before insert()")
  else
    try_rethrow (
      let* id := choose_id insertData in
      let insertData := obj_set "id" id insertData in
      let* _ := modify_this (set_lastInsertId id) in
      fun s => let (settled, s') := get EmptyString s in
               (Return (insertData, settled), s')).

(** [insert] from the [await] on, lines 96-108. *)
Definition insert_resume (frame : insert_frame) : M record :=
  let (insertData, settled) := frame in
  try_rethrow (
    let* data := lift settled in
    let* data := lift (push data (JObj insertData)) in
    let jsonData := JSON_stringify data in
    let* db := this in
    let* _ := on_env (writeFileSync (storagePath db) jsonData) in
    ret insertData).

(** [await db.insert(insertData)]: nothing runs in between. *)
Definition insert (insertData : record) : M record :=
  let* frame := insert_begin insertData in
  insert_resume frame.

(** [insertId()], lines 116-122. *)
Definition insertId : M value :=
  let* db := this in
  match lastInsertId db with
  | Some id =>
      if truthy id then ret id
      else throw (Error "No insert executed. Call insert() before insertId()")
  | None => throw (Error "No insert executed. Call insert() before insertId()")
  end.

(** ** The query matcher *)

(** [a === b] where [a] is a field of an item that [JSON.parse] has just
    built and [b] a value the caller holds: primitives are compared by
    value, [NaN] is equal to nothing, and an array or an object is equal to
    itself only, which a freshly built one never is to the caller's. *)
Definition strict_equals (a b : value) : bool :=
  match a, b with
  | JNull, JNull => true
  | JBool x, JBool y => Bool.eqb x y
  | JNum x, JNum y => Z.eqb x y
  | JStr x, JStr y => String.eqb x y
  | JUndefined, JUndefined => true
  | JInf x, JInf y => Bool.eqb x y
  | _, _ => false
  end.

(** The names every object inherits from [Object.prototype]: under them
    an object that has no such property of its own gives a function (the
    prototype itself under [__proto__]), not [undefined]. *)
Definition inherited (key : string) : bool :=
  existsb (String.eqb key)
    ["constructor"; "toString"; "toLocaleString"; "valueOf";
     "hasOwnProperty"; "isPrototypeOf"; "propertyIsEnumerable"; "__proto__";
     "__defineGetter__"; "__defineSetter__"; "__lookupGetter__";
     "__lookupSetter__"].

(** What [o[key]] gives on an object [o] that [JSON.parse] has built: the
    property of the object itself; failing that, what the prototype has
    under that name, which is no value of the caller's; failing that,
    [undefined]. *)
Definition read (o : record) (key : string) : option value :=
  match obj_get key o with
  | Some v => Some v
  | None => if inherited key then None else Some JUndefined
  end.

(** [a === b] for what [read] gives: [None] is equal to nothing. *)
Definition strict_equals_opt (a b : option value) : bool :=
  match a with
  | Some x => strict_equals x (default JUndefined b)
  | None => false
  end.

(** [item[key]]: reading a property of [null] or [undefined] throws.  A
    number, a boolean, a string or an array has what [Object.prototype]
    has; the [length] and the indices of a string or an array, and the
    methods of their own prototypes, are not modelled: records are
    objects. *)
Definition prop (item : value) (key : string) : outcome (option value) :=
  match item with
  | JNull | JUndefined => Throw TypeError
  | JObj o => Return (read o key)
  | _ => Return (read [] key)
  end.

(** [list.every(f)] stops at the first [false]. *)
Fixpoint every {A} (f : A -> outcome bool) (l : list A) : outcome bool :=
  match l with
  | [] => Return true
  | x :: l' =>
      match f x with
      | Return true => every f l'
      | Return false => Return false
      | Throw e => Throw e
      end
  end.

(** [Object.keys(query).every((key) => item[key] === query[key])] *)
Definition matches (query : record) (item : value) : outcome bool :=
  every (fun key =>
           match prop item key with
           | Return a => Return (strict_equals_opt a (obj_get key query))
           | Throw e => Throw e
           end)
        (keys query).

(** [data.filter(f)] on the elements of an array. *)
Fixpoint filter_items (f : value -> outcome bool) (l : list value)
  : outcome (list value) :=
  match l with
  | [] => Return []
  | x :: l' =>
      match f x with
      | Throw e => Throw e
      | Return b =>
          match filter_items f l' with
          | Throw e => Throw e
          | Return r => Return (if b then x :: r else r)
          end
      end
  end.

(** The elements of [data], for [filter] and [forEach]: anything but an
    array has no such method. *)
Definition elements (data : value) : outcome (list value) :=
  match data with
  | JArr l => Return l
  | _ => Throw TypeError
  end.

(** [find(query)], lines 149-156. *)
Definition find (query : record) : M (list value) :=
  let* data := get EmptyString in
  let* l := lift (elements data) in
  lift (filter_items (matches query) l).

(** ** [update] *)

(** [item[key] = v] in strict-mode code: a primitive takes no property.  On
    an array the model leaves the elements as they are. *)
Definition assign (item : value) (key : string) (v : value) : outcome value :=
  match item with
  | JObj o => Return (JObj (obj_assign key v o))
  | JArr l => Return (JArr l)
  | _ => Throw TypeError
  end.

(** [Object.keys(updateData).forEach((key) => item[key] = updateData[key])] *)
Fixpoint merge (updateData : record) (ks : list string) (item : value)
  : outcome value :=
  match ks with
  | [] => Return item
  | key :: ks' =>
      match assign item key (default JUndefined (obj_get key updateData)) with
      | Return item' => merge updateData ks' item'
      | Throw e => Throw e
      end
  end.

(** The body of the [forEach] of [update], lines 167-173, on one item. *)
Definition update_item (query updateData : record) (item : value)
  : outcome value :=
  match matches query item with
  | Return true => merge updateData (keys updateData) item
  | Return false => Return item
  | Throw e => Throw e
  end.

Fixpoint for_each (f : value -> outcome value) (l : list value)
  : outcome (list value) :=
  match l with
  | [] => Return []
  | x :: l' =>
      match f x with
      | Throw e => Throw e
      | Return y =>
          match for_each f l' with
          | Throw e => Throw e
          | Return r => Return (y :: r)
          end
      end
  end.

(** The callback given to [fs.writeFile], lines 176-180 and 205-209. *)
Definition write_callback (err : option exn) : outcome unit :=
  match err with
  | Some e => Throw (ErrorOf e)
  | None => Return tt
  end.

(** [update(query, updateData)], lines 164-183. *)
Definition update (query updateData : record) : M (list value) :=
  let* data := get EmptyString in
  let* l := lift (elements data) in
  let* l' := lift (for_each (update_item query updateData) l) in
  let* db := this in
  let* _ := on_env (writeFile (storagePath db) (JSON_stringify (JArr l'))
                      write_callback) in
  ret l'.

(** ** [delete] *)

(** The [filter] of [delete], lines 194-202: one pass that keeps the items
    the query does not match and pushes the others on [deletedData]. *)
Fixpoint delete_scan (query : record) (l : list value)
  : outcome (list value * list value) :=
  match l with
  | [] => Return ([], [])
  | x :: l' =>
      match matches query x with
      | Throw e => Throw e
      | Return isMatched =>
          match delete_scan query l' with
          | Throw e => Throw e
          | Return (filteredData, deletedData) =>
              Return (if isMatched then (filteredData, x :: deletedData)
                      else (x :: filteredData, deletedData))
          end
      end
  end.

(** [delete(query)], lines 190-212. *)
Definition delete (query : record) : M (list value) :=
  let* data := get EmptyString in
  let* l := lift (elements data) in
  let* '(filteredData, deletedData) := lift (delete_scan query l) in
  let* db := this in
  let* _ := on_env (writeFile (storagePath db)
                      (JSON_stringify (JArr filteredData)) write_callback) in
  ret deletedData.

(** ** Callers *)

(** The event loop takes its turns between two calls: the caller waits for
    a timer or for another input. *)
Definition idle : M unit := fun s => (Return tt, (fst s, drain (snd s))).

(** [calls.map(f)]: each call is run in turn; a call that throws does not
    stop the next. *)
Fixpoint run_all {A B} (f : A -> M B) (l : list A) (s : state)
  : list (outcome B) * state :=
  match l with
  | [] => ([], s)
  | x :: l' =>
      let (o, s1) := f x s in
      let (os, s2) := run_all f l' s1 in
      (o :: os, s2)
  end.

(** [for (const r of records) await db.insert(r)], each in a [try]. *)
Definition insert_each (records : list record) (s : state)
  : list (outcome record) * state :=
  run_all insert records s.

Definition resume (o : outcome insert_frame) : M record :=
  match o with
  | Return frame => insert_resume frame
  | Throw e => throw e
  end.

(** [Promise.allSettled(records.map((r) => db.insert(r)))]: every call runs
    to its [await] when it is made, and the calls are resumed, in the same
    order, once the last one is suspended. *)
Definition insert_concurrently (records : list record) (s : state)
  : list (outcome record) * state :=
  let (frames, s1) := run_all insert_begin records s in
  run_all resume frames s1.

(** A handle bound to storage [name], as [setStorage] leaves it. *)
Definition bound (name : string) (db : jsonFileDB) : Prop :=
  name <> EmptyString /\
  storage db = Some name /\
  storagePath db = Some (storage_file (dbPath db) name).

(** The array the storage file of [db] holds. *)
Definition stored (db : jsonFileDB) (e : env) : option (list value) :=
  match storagePath db with
  | Some p =>
      match files e !! p with
      | Some text =>
          match JSON_parse text with
          | Some (JArr l) => Some l
          | _ => None
          end
      | None => None
      end
  | None => None
  end.

End Db.

(* ===================================================================== *)
(** * Vocabulary of the specification *)
(* ===================================================================== *)

Module Spec.
Import Json Node Db.

(** What [this.get()] settles to: the decoded contents of the bound file. *)
Definition load (db : jsonFileDB) (e : env) : outcome value :=
  match readFileSync (storagePath db) e with
  | Return text =>
      match JSON_parse text with
      | Some v => Return v
      | None => Throw (ErrorOf SyntaxError)
      end
  | Throw x => Throw (ErrorOf x)
  end.

(** The primitive values: strings, numbers, booleans, null and
    [undefined]. *)
Definition scalar (v : value) : bool :=
  match v with
  | JArr _ | JObj _ => false
  | _ => true
  end.

(** Strings, integers, booleans and null. *)
Definition json_scalar (v : value) : bool :=
  match v with
  | JNull | JBool _ | JNum _ | JStr _ => true
  | _ => false
  end.

(** The matcher of the source on a record. *)
Definition record_matches (query o : record) : bool :=
  forallb (fun key => strict_equals_opt (read o key) (obj_get key query))
          (keys query).

(** The matcher as the specification words it: every key of the query is a
    key of the record, with a value deeply equal to the expected one. *)
Definition deep_matches (query o : record) : bool :=
  forallb (fun key =>
             match obj_get key o, obj_get key query with
             | Some v, Some expected => deep_equal v expected
             | _, _ => false
             end)
          (keys query).

(** What [JSON.stringify] keeps of a value: [null] for a number that is
    not finite and for an [undefined] among the elements of an array, and
    nothing of a property that holds [undefined]. *)
Section Fields.
Variable keep : value -> value.

Fixpoint kept_fields (o : list (string * value)) : list (string * value) :=
  match o with
  | [] => []
  | (k, x) :: o' =>
      match x with
      | JUndefined => kept_fields o'
      | _ => (k, keep x) :: kept_fields o'
      end
  end.

End Fields.

Fixpoint as_stored (v : value) : value :=
  match v with
  | JUndefined | JNaN | JInf _ => JNull
  | JArr l => JArr (map as_stored l)
  | JObj o => JObj (kept_fields as_stored o)
  | JNull | JBool _ | JNum _ | JStr _ => v
  end.

(** A record with the keys of a patch merged into it. *)
Definition patched (updateData o : record) : record :=
  fold_left
    (fun o key => obj_assign key (default JUndefined (obj_get key updateData)) o)
            (keys updateData) o.

(** [update] on one record. *)
Definition updated (query updateData o : record) : record :=
  if record_matches query o then patched updateData o else o.

(** The id [insert] generates from the next two draws. *)
Definition generated (e : env) : string :=
  substring 2 13 (random e (drawn e))
  +:+ substring 2 13 (random e (S (drawn e))).

(** The id [insert] gives a record, and the world once it is chosen. *)
Definition assigned_id (r : record) (e : env) : value :=
  if truthy_opt (obj_get "id" r) then default JNull (obj_get "id" r)
  else JStr (generated e).

Definition after_id (r : record) (e : env) : env :=
  if truthy_opt (obj_get "id" r) then e else with_drawn (S (S (drawn e))) e.

(** The record as [insert] stores and returns it. *)
Definition with_id (r : record) (e : env) : record :=
  obj_set "id" (assigned_id r e) r.

(** The request [update] and [delete] hand to [fs.writeFile]. *)
Definition store_request (path : string) (l : list value) : write_request :=
  {| wr_path := path; wr_data := JSON_stringify (JArr l);
     wr_callback := write_callback |}.

(** A record that comes with a usable id of its own. *)
Definition supplied (r : record) : Prop :=
  truthy_opt (obj_get "id" r) = true /\ wf_record r = true.

End Spec.

(* ===================================================================== *)
(** * Sample worlds *)
(* ===================================================================== *)

Module Samples.
Import Json Node Db Spec.

(** A world with one storage file, and the handle bound to it. *)
Definition world (text : string) : env :=
  {| files := {[ "db/users.json" := text ]}; readonly := ∅; pending := [];
     uncaught := []; random := fun _ => "0.4fzyo82mvyr"; drawn := 0 |}.

Definition users : jsonFileDB :=
  bind_storage "users" "db/users.json" (unbound "db").

Definition john : record :=
  [("id", JNum 1); ("name", JStr "John"); ("age", JNum 28)].

Definition john_text : string := JSON_stringify (JArr [JObj john]).

(** The same world with the storage file write-protected. *)
Definition protected (text : string) : env :=
  {| files := {[ "db/users.json" := text ]}; readonly := {[ "db/users.json" ]};
     pending := []; uncaught := []; random := fun _ => "0.4fzyo82mvyr";
     drawn := 0 |}.

End Samples.

(* ===================================================================== *)
(** * Facts about the codec *)
(* ===================================================================== *)

Module JsonFacts.
Import Json.

Ltac by_bits c :=
  destruct c as [[] [] [] [] [] [] [] []].

(** ** Strings *)

Lemma parse_chars_escape (c : ascii) (tail : list ascii) :
  parse_chars (escape_char c ++ tail) = prepend [c] (parse_chars tail).
Proof. by_bits c; reflexivity. Qed.

Lemma parse_chars_escaped (cs rest : list ascii) :
  parse_chars (flat_map escape_char cs ++ dquote :: rest) = Some (cs, rest).
Proof.
  induction cs as [|c cs IH]; [reflexivity|].
  cbn [flat_map]. rewrite <- app_assoc, parse_chars_escape, IH. reflexivity.
Qed.

Lemma quote_cons (s : string) (rest : list ascii) :
  quote s ++ rest = dquote :: flat_map escape_char (chars s) ++ dquote :: rest.
Proof. unfold quote. cbn [app]. now rewrite <- app_assoc. Qed.

Lemma parse_string_quoted (s : string) (rest : list ascii) :
  parse_string (flat_map escape_char (chars s) ++ dquote :: rest)
  = Some (s, rest).
Proof.
  unfold parse_string. rewrite parse_chars_escaped.
  unfold chars. now rewrite string_of_list_ascii_of_string.
Qed.

(** ** Numbers *)

Lemma parse_digits_print (d : Decimal.uint) (rest : list ascii) :
  no_digit rest -> parse_digits (print_uint d ++ rest) = (d, rest).
Proof.
  intros Hrest.
  induction d; cbn [print_uint app];
    try (change (parse_digits (?c :: ?t)) with
           (match digit_of c with
            | Some n => let (d, r) := parse_digits t in (cons_digit n d, r)
            | None => (Decimal.Nil, c :: t) end);
         rewrite IHd; reflexivity).
  destruct rest as [|c rest]; [reflexivity|].
  cbn [parse_digits]. cbn in Hrest. now rewrite Hrest.
Qed.

Lemma unorm_json_int (d : Decimal.uint) :
  Decimal.unorm d = d -> json_int d = true.
Proof.
  destruct d as [|d| | | | | | | | |]; try reflexivity; [discriminate|].
  unfold Decimal.unorm. cbn [Decimal.nzhead].
  pose proof (nb_digits_nzhead d) as Hle.
  destruct (Decimal.nzhead d) eqn:E; intros Hn.
  1: { injection Hn as <-. reflexivity. }
  all: rewrite Hn in Hle; cbn [Decimal.nb_digits] in Hle; lia.
Qed.

Lemma to_uint_json_int (p : positive) : json_int (Pos.to_uint p) = true.
Proof.
  apply unorm_json_int.
  rewrite <- (Unsigned.to_of (Pos.to_uint p)), Unsigned.of_to. reflexivity.
Qed.

Lemma delimited_no_digit (rest : list ascii) : delimited rest -> no_digit rest.
Proof.
  destruct rest as [|c rest]; [easy|]. unfold delimited, no_digit, digit_of.
  intros [H|[H|H]]; rewrite H; reflexivity.
Qed.

Lemma delimited_integer_ends (rest : list ascii) :
  delimited rest -> integer_ends rest = true.
Proof.
  destruct rest as [|c rest]; [easy|].
  unfold delimited, integer_ends, frac_or_exp.
  intros [H|[H|H]]; rewrite H; reflexivity.
Qed.

Lemma print_uint_head (d : Decimal.uint) :
  json_int d = true ->
  exists c t, print_uint d = c :: t /\ num_start c = true
              /\ Nat.eqb (nat_of_ascii c) 45 = false.
Proof.
  destruct d; cbn [print_uint]; intros H; try discriminate H;
    eexists _, _; (split; [reflexivity|split; reflexivity]).
Qed.

Lemma parse_number_uint (d : Decimal.uint) (rest : list ascii) (neg : bool) :
  json_int d = true -> delimited rest ->
  exact (Z.of_int (if neg then Decimal.Neg d else Decimal.Pos d)) = true ->
  parse_number ((if neg then ["-"%char] else []) ++ print_uint d ++ rest)
  = Some (Z.of_int (if neg then Decimal.Neg d else Decimal.Pos d), rest).
Proof.
  intros Hd Hrest He. destruct neg.
  - cbn [app]. unfold parse_number.
    change (Nat.eqb (nat_of_ascii "-") 45) with true. cbv iota.
    rewrite parse_digits_print by now apply delimited_no_digit.
    now rewrite Hd, He, delimited_integer_ends.
  - cbn [app]. destruct (print_uint_head d Hd) as (c & t & Hp & _ & Hc).
    pose proof (parse_digits_print d rest (delimited_no_digit _ Hrest)) as Hpd.
    rewrite Hp in *. cbn [app] in *. unfold parse_number.
    rewrite Hc, Hpd. now rewrite Hd, He, delimited_integer_ends.
Qed.

Lemma print_Z_shape (n : Z) :
  exists (neg : bool) (d : Decimal.uint),
    json_int d = true /\
    print_Z n = (if neg then ["-"%char] else []) ++ print_uint d /\
    Z.of_int (if neg then Decimal.Neg d else Decimal.Pos d) = n.
Proof.
  pose proof (DecimalZ.of_to n) as Hn. unfold print_Z.
  destruct n as [|p|p]; cbn [Z.to_int] in *.
  - exists false, (Decimal.D0 Decimal.Nil). now repeat split.
  - exists false, (Pos.to_uint p). split; [apply to_uint_json_int|now split].
  - exists true, (Pos.to_uint p). split; [apply to_uint_json_int|now split].
Qed.

Lemma parse_number_print (n : Z) (rest : list ascii) :
  exact n = true -> delimited rest ->
  parse_number (print_Z n ++ rest) = Some (n, rest).
Proof.
  intros He Hrest. destruct (print_Z_shape n) as (neg & d & Hd & Hp & Hz).
  rewrite Hp, <- app_assoc, parse_number_uint; try assumption;
    now rewrite Hz.
Qed.

Lemma parse_number_exact (s r : list ascii) (n : Z) :
  parse_number s = Some (n, r) -> exact n = true.
Proof.
  unfold parse_number. destruct s as [|c s']; [discriminate|].
  destruct (Nat.eqb (nat_of_ascii c) 45).
  - destruct (parse_digits s') as [d r'].
    destruct (json_int d && integer_ends r'); [|discriminate].
    cbn [andb]. destruct (exact _) eqn:E; [|discriminate].
    intros H. now injection H as <- _.
  - destruct (parse_digits (c :: s')) as [d r'].
    destruct (json_int d && integer_ends r'); [|discriminate].
    cbn [andb]. destruct (exact _) eqn:E; [|discriminate].
    intros H. now injection H as <- _.
Qed.

Lemma print_Z_head (n : Z) :
  exists c t, print_Z n = c :: t /\ num_start c = true.
Proof.
  destruct (print_Z_shape n) as (neg & d & Hd & Hp & _). rewrite Hp.
  destruct neg; cbn [app].
  - now eexists _, _.
  - destruct (print_uint_head d Hd) as (c & t & -> & Hc & _). now eexists _, _.
Qed.


(** ** Objects built from duplicate-free members *)

Lemma obj_get_fresh (k : string) (o : record) :
  existsb (String.eqb k) (map fst o) = false -> obj_get k o = None.
Proof.
  induction o as [|[k' v'] o IH]; [reflexivity|].
  cbn [map fst existsb obj_get]. intros H.
  apply orb_false_iff in H as [-> H]. exact (IH H).
Qed.

Lemma obj_insert_last (k : string) (v : value) (o : record) :
  forallb (fun k' => negb (before k k')) (map fst o) = true ->
  obj_insert k v o = o ++ [(k, v)].
Proof.
  induction o as [|[k' v'] o IH]; [reflexivity|].
  cbn [map fst forallb obj_insert app]. intros H.
  apply andb_true_iff in H as [H1 H2]. apply negb_true_iff in H1.
  now rewrite H1, IH.
Qed.

Lemma obj_set_fresh (k : string) (v : value) (o : record) :
  existsb (String.eqb k) (map fst o) = false ->
  forallb (fun k' => negb (before k k')) (map fst o) = true ->
  obj_set k v o = o ++ [(k, v)].
Proof.
  intros H1 H2. unfold obj_set. rewrite (obj_get_fresh _ _ H1).
  now apply obj_insert_last.
Qed.

Lemma nodup_keys_middle (k : string) (ks ks' : list string) :
  nodup_keys (ks ++ k :: ks') = true -> existsb (String.eqb k) ks = false.
Proof.
  induction ks as [|k' ks IH]; [reflexivity|].
  cbn [app nodup_keys existsb]. intros H.
  apply andb_true_iff in H as [H1 H2]. apply negb_true_iff in H1.
  rewrite (IH H2), orb_false_r.
  rewrite existsb_app in H1. cbn [existsb] in H1.
  apply orb_false_iff in H1 as [_ H1]. apply orb_false_iff in H1 as [H1 _].
  now rewrite String.eqb_sym.
Qed.

Lemma ordered_middle (k : string) (ks ks' : list string) :
  ordered (ks ++ k :: ks') = true ->
  forallb (fun k' => negb (before k k')) ks = true.
Proof.
  induction ks as [|k' ks IH]; [reflexivity|].
  cbn [app ordered forallb]. intros H.
  apply andb_true_iff in H as [H1 H2]. rewrite (IH H2), andb_true_r.
  rewrite forallb_app in H1. cbn [forallb] in H1.
  apply andb_true_iff in H1 as [_ H1]. now apply andb_true_iff in H1 as [H1 _].
Qed.

Lemma build_object_from (ms acc : list (string * value)) :
  nodup_keys (map fst (acc ++ ms)) = true ->
  ordered (map fst (acc ++ ms)) = true ->
  fold_left (fun o kv => obj_set (fst kv) (snd kv) o) ms acc = acc ++ ms.
Proof.
  revert acc. induction ms as [|[k v] ms IH]; intros acc H Ho.
  - now rewrite app_nil_r.
  - cbn [fold_left fst snd]. rewrite obj_set_fresh.
    + rewrite IH; rewrite <- app_assoc; [reflexivity|exact H|exact Ho].
    + rewrite map_app in H. cbn [map fst] in H.
      now apply nodup_keys_middle in H.
    + rewrite map_app in Ho. cbn [map fst] in Ho.
      now apply ordered_middle in Ho.
Qed.

Lemma build_object_nodup (ms : list (string * value)) :
  nodup_keys (map fst ms) = true -> ordered (map fst ms) = true ->
  build_object ms = ms.
Proof. intros H Ho. unfold build_object. now rewrite build_object_from. Qed.

(** ** How a printed value begins *)

Lemma num_start_value_start (c : ascii) :
  num_start c = true -> value_start c = true.
Proof. by_bits c; intros H; try discriminate H; reflexivity. Qed.

Lemma print_head (v : value) :
  exists c t, print v = c :: t /\ value_start c = true.
Proof.
  destruct v as [|[]|n|s|l|o| | |b]; try (now eexists _, _).
  destruct (print_Z_head n) as (c & t & Hp & Hc).
  exists c, t. split; [exact Hp|now apply num_start_value_start].
Qed.

Lemma skip_ws_value_start (c : ascii) (s : list ascii) :
  value_start c = true -> skip_ws (c :: s) = c :: s.
Proof.
  unfold value_start. intros H. cbn [skip_ws].
  destruct (is_ws c); [discriminate H|reflexivity].
Qed.

Lemma skip_ws_delimited (rest : list ascii) :
  delimited rest -> skip_ws rest = rest.
Proof.
  destruct rest as [|c rest]; [reflexivity|]. cbn [delimited skip_ws].
  unfold is_ws. now intros [-> |[-> | ->]].
Qed.

Lemma commas_cons2 (t u : list ascii) (ts : list (list ascii)) :
  commas (t :: u :: ts) = t ++ ","%char :: commas (u :: ts).
Proof. reflexivity. Qed.

Lemma commas_head (c : ascii) (t : list ascii) (ts : list (list ascii))
    (tail : list ascii) :
  exists u, commas ((c :: t) :: ts) ++ tail = c :: u.
Proof. destruct ts; cbn [commas app]; now eexists. Qed.

Lemma commas_length_elem (t : list ascii) (ts : list (list ascii)) :
  In t ts -> length t <= length (commas ts).
Proof.
  induction ts as [|u ts IH]; [easy|]. intros [->|Hin].
  - destruct ts; cbn [commas]; [lia|]. rewrite length_app. lia.
  - specialize (IH Hin). destruct ts; [easy|].
    rewrite commas_cons2, length_app. cbn [length]. lia.
Qed.

Lemma commas_length_count (ts : list (list ascii)) :
  (forall t, In t ts -> 1 <= length t) -> length ts <= S (length (commas ts)).
Proof.
  induction ts as [|u ts IH]; intros H; [cbn; lia|].
  assert (Hu : 1 <= length u) by (apply H; now left).
  assert (Hts : length ts <= S (length (commas ts)))
    by (apply IH; intros t Ht; apply H; now right).
  destruct ts; [cbn [commas length]; lia|].
  rewrite commas_cons2, length_app. cbn [length] in *. lia.
Qed.

Lemma print_nonempty (v : value) : 1 <= length (print v).
Proof. destruct (print_head v) as (c & t & -> & _). cbn. lia. Qed.

(** ** Arrays *)

Lemma parse_elements_print (pv : parser value) (l : list value) :
  forall (n : nat) (rest : list ascii),
    l <> [] -> length l <= n ->
    (forall x rest', In x l -> delimited rest' ->
                     pv (print x ++ rest') = Some (x, rest')) ->
    parse_elements pv n (commas (map print l) ++ "]"%char :: rest)
    = Some (l, rest).
Proof.
  induction l as [|x l IH]; intros n rest Hne Hn Hpv; [congruence|].
  destruct n as [|n]; [cbn in Hn; lia|].
  destruct l as [|y l].
  - cbn [map commas parse_elements].
    rewrite Hpv; [reflexivity|now left|cbn; auto].
  - cbn [map]. rewrite commas_cons2, <- app_assoc. cbn [app parse_elements].
    rewrite Hpv; [|now left|cbn; auto].
    change (skip_ws (","%char :: ?s)) with (","%char :: s). cbv iota.
    change (Nat.eqb (nat_of_ascii ",") 44) with true. cbv iota.
    change (print y :: map print l) with (map print (y :: l)).
    rewrite IH; [reflexivity|congruence|cbn [length] in *; lia|].
    intros x' rest' Hin. apply Hpv. now right.
Qed.

(** ** Objects *)

Lemma member_text_cons (k : string) (v : value) (tail : list ascii) :
  member_text (k, v) ++ tail
  = dquote :: flat_map escape_char (chars k)
      ++ dquote :: ":"%char :: print v ++ tail.
Proof.
  unfold member_text. cbn [fst snd]. rewrite <- app_assoc, quote_cons.
  reflexivity.
Qed.

Lemma parse_members_member (pv : parser value) (n : nat) (k : string)
    (v : value) (tail : list ascii) :
  pv (print v ++ tail) = Some (v, tail) ->
  parse_members pv (S n) (member_text (k, v) ++ tail)
  = match skip_ws tail with
    | c :: r' =>
        if Nat.eqb (nat_of_ascii c) 44 then
          match parse_members pv n r' with
          | Some (ms, r'') => Some ((k, v) :: ms, r'')
          | None => None
          end
        else if Nat.eqb (nat_of_ascii c) 125 then Some ([(k, v)], r')
        else None
    | [] => None
    end.
Proof.
  intros Hpv. rewrite member_text_cons. cbn [parse_members].
  change (skip_ws (dquote :: ?s)) with (dquote :: s). cbv iota.
  change (Nat.eqb (nat_of_ascii dquote) 34) with true. cbv iota.
  rewrite parse_string_quoted.
  change (skip_ws (":"%char :: ?s)) with (":"%char :: s). cbv iota.
  change (Nat.eqb (nat_of_ascii ":") 58) with true. cbv iota.
  now rewrite Hpv.
Qed.

Lemma parse_members_print (pv : parser value) (o : list (string * value)) :
  forall (n : nat) (rest : list ascii),
    o <> [] -> length o <= n ->
    (forall kv rest', In kv o -> delimited rest' ->
                      pv (print (snd kv) ++ rest') = Some (snd kv, rest')) ->
    parse_members pv n (commas (map member_text o) ++ "}"%char :: rest)
    = Some (o, rest).
Proof.
  induction o as [|[k v] o IH]; intros n rest Hne Hn Hpv; [congruence|].
  destruct n as [|n]; [cbn in Hn; lia|].
  destruct o as [|kv o].
  - cbn [map commas]. rewrite parse_members_member; [reflexivity|].
    apply (Hpv (k, v)); [now left|cbn; auto].
  - cbn [map]. rewrite commas_cons2, <- app_assoc. cbn [app].
    rewrite parse_members_member.
    2: { apply (Hpv (k, v)); [now left|cbn; auto]. }
    change (skip_ws (","%char :: ?s)) with (","%char :: s). cbv iota.
    change (Nat.eqb (nat_of_ascii ",") 44) with true. cbv iota.
    change (member_text kv :: map member_text o)
      with (map member_text (kv :: o)).
    rewrite IH; [reflexivity|congruence|cbn [length] in *; lia|].
    intros kv' rest' Hin. apply Hpv. now right.
Qed.

(** ** The dispatch of [parse_value] on the first character *)

Lemma parse_value_number (fuel : nat) (c : ascii) (r : list ascii) :
  num_start c = true ->
  parse_value (S fuel) (c :: r)
  = match parse_number (c :: r) with
    | Some (z, r') => Some (JNum z, r')
    | None => None
    end.
Proof. by_bits c; intros H; try discriminate H; reflexivity. Qed.

Lemma parse_value_array (fuel : nat) (c : ascii) (r : list ascii) :
  value_start c = true ->
  parse_value (S fuel) ("["%char :: c :: r)
  = match parse_elements (parse_value fuel) fuel (c :: r) with
    | Some (vs, r'') => Some (JArr vs, r'')
    | None => None
    end.
Proof.
  intros H. cbn [parse_value].
  change (skip_ws ("["%char :: ?s)) with ("["%char :: s). cbv iota zeta.
  change (Nat.eqb (nat_of_ascii "[") 34) with false.
  change (Nat.eqb (nat_of_ascii "[") 91) with true. cbv iota.
  rewrite skip_ws_value_start by exact H.
  unfold value_start in H.
  destruct (Nat.eqb (nat_of_ascii c) 93); [|reflexivity].
  now rewrite andb_false_r in H.
Qed.

Lemma parse_value_object (fuel : nat) (r : list ascii) :
  parse_value (S fuel) ("{"%char :: dquote :: r)
  = match parse_members (parse_value fuel) fuel (dquote :: r) with
    | Some (ms, r'') => Some (JObj (build_object ms), r'')
    | None => None
    end.
Proof. reflexivity. Qed.

(** ** Parsing undoes printing *)

Lemma print_members_wf (o : list (string * value)) :
  forallb (fun kv => wf (snd kv)) o = true ->
  print_members print o = map member_text o.
Proof.
  induction o as [|[k v] o IH]; [reflexivity|].
  cbn [forallb snd print_members map]. intros H.
  apply andb_true_iff in H as [Hv Ho]. rewrite (IH Ho).
  now destruct v.
Qed.

Lemma parse_print (fuel : nat) :
  forall (v : value) (rest : list ascii),
    wf v = true -> length (print v) <= fuel -> delimited rest ->
    parse_value fuel (print v ++ rest) = Some (v, rest).
Proof.
  induction fuel as [|fuel IH]; intros v rest Hwf Hlen Hrest.
  { pose proof (print_nonempty v). lia. }
  destruct v as [|b|n|s|l|o| | |b]; try discriminate Hwf.
  - reflexivity.
  - destruct b; reflexivity.
  - cbn [print]. destruct (print_Z_head n) as (c & t & Hp & Hc).
    pose proof (parse_number_print n rest Hwf Hrest) as Hn.
    rewrite Hp in *. cbn [app] in *.
    now rewrite parse_value_number, Hn.
  - cbn [print]. rewrite quote_cons. cbn [parse_value].
    change (skip_ws (dquote :: ?s)) with (dquote :: s). cbv iota zeta.
    change (Nat.eqb (nat_of_ascii dquote) 34) with true. cbv iota.
    now rewrite parse_string_quoted.
  - cbn [print wf] in *. cbn [app]. rewrite <- app_assoc. cbn [app].
    destruct l as [|x l]; [reflexivity|].
    cbn [length] in Hlen. rewrite length_app in Hlen. cbn [length] in Hlen.
    assert (Hpv : forall y rest', In y (x :: l) -> delimited rest' ->
                    parse_value fuel (print y ++ rest') = Some (y, rest')).
    { intros y rest' Hin Hd. apply IH; [|  |exact Hd].
      - rewrite forallb_forall in Hwf. now apply Hwf.
      - pose proof (commas_length_elem (print y) (map print (x :: l))
                      (in_map print _ _ Hin)). lia. }
    assert (Hcount : length (x :: l) <= fuel).
    { pose proof (commas_length_count (map print (x :: l))) as Hc.
      rewrite length_map in Hc.
      assert (length (x :: l) <= S (length (commas (map print (x :: l))))).
      { apply Hc. intros t Ht. apply in_map_iff in Ht as (y & <- & _).
        apply print_nonempty. }
      lia. }
    destruct (print_head x) as (c & t & Hx & Hc).
    destruct (commas_head c t (map print l) ("]"%char :: rest)) as (u & Hu).
    pose proof (parse_elements_print (parse_value fuel) (x :: l) fuel rest
                  ltac:(congruence) Hcount Hpv) as Hpe.
    cbn [map] in Hpe |- *. rewrite Hx in Hpe |- *. rewrite Hu in Hpe |- *.
    now rewrite parse_value_array, Hpe.
  - cbn [print wf] in *. apply andb_true_iff in Hwf as [Hnd Hwf].
    apply andb_true_iff in Hnd as [Hnd Hord].
    rewrite (print_members_wf o Hwf) in *.
    cbn [app]. rewrite <- app_assoc. cbn [app].
    destruct o as [|[k v] o]; [reflexivity|].
    cbn [length] in Hlen. rewrite length_app in Hlen. cbn [length] in Hlen.
    assert (Hpv : forall kv rest', In kv ((k, v) :: o) -> delimited rest' ->
                    parse_value fuel (print (snd kv) ++ rest')
                    = Some (snd kv, rest')).
    { intros kv rest' Hin Hd. apply IH; [| |exact Hd].
      - rewrite forallb_forall in Hwf. now apply Hwf.
      - pose proof (commas_length_elem (member_text kv)
                      (map member_text ((k, v) :: o))
                      (in_map member_text _ _ Hin)) as Hle.
        unfold member_text at 1 in Hle. rewrite length_app in Hle.
        cbn [length] in Hle. lia. }
    assert (Hcount : length ((k, v) :: o) <= fuel).
    { pose proof (commas_length_count (map member_text ((k, v) :: o))) as Hc.
      rewrite length_map in Hc.
      assert (length ((k, v) :: o)
              <= S (length (commas (map member_text ((k, v) :: o))))).
      { apply Hc. intros t Ht. apply in_map_iff in Ht as (kv & <- & _).
        unfold member_text. rewrite length_app. cbn [length]. lia. }
      lia. }
    pose proof (parse_members_print (parse_value fuel) ((k, v) :: o) fuel rest
                  ltac:(congruence) Hcount Hpv) as Hpm.
    assert (Hhead : exists u,
               commas (map member_text ((k, v) :: o)) ++ "}"%char :: rest
               = dquote :: u).
    { cbn [map]. unfold member_text at 1. unfold quote. cbn [fst app].
      apply commas_head. }
    destruct Hhead as (u & Hu). rewrite Hu in Hpm |- *.
    rewrite parse_value_object, Hpm.
    now rewrite (build_object_nodup _ Hnd Hord).
Qed.

(** [JSON.parse(JSON.stringify(v))] is [v]. *)
Lemma JSON_parse_stringify (v : value) :
  wf v = true -> JSON_parse (JSON_stringify v) = Some v.
Proof.
  intros Hwf. unfold JSON_parse, JSON_stringify, chars.
  rewrite list_ascii_of_string_of_list_ascii.
  pose proof (parse_print (S (length (print v))) v [] Hwf
                ltac:(lia) I) as H.
  rewrite app_nil_r in H. now rewrite H.
Qed.


(** ** What [JSON.parse] returns is well formed *)

Lemma keys_obj_replace (k : string) (v : value) (o : record) :
  map fst (obj_replace k v o) = map fst o.
Proof.
  induction o as [|[k' v'] o IH]; [reflexivity|]. cbn [obj_replace].
  destruct (String.eqb k k'); cbn [map fst]; [reflexivity|now rewrite IH].
Qed.

Lemma forallb_obj_replace (P : value -> bool) (k : string) (v : value)
    (o : record) :
  P v = true -> forallb (fun kv => P (snd kv)) o = true ->
  forallb (fun kv => P (snd kv)) (obj_replace k v o) = true.
Proof.
  intros Hv. induction o as [|[k' v'] o IH]; [reflexivity|].
  cbn [obj_replace forallb snd]. intros H.
  apply andb_true_iff in H as [H1 H2].
  destruct (String.eqb k k'); cbn [forallb snd].
  - now rewrite Hv, H2.
  - now rewrite H1, IH.
Qed.

(** The keys of [obj_insert k v o] are [k] and those of [o]. *)
Lemma forallb_keys_obj_insert (P : string -> bool) (k : string) (v : value)
    (o : record) :
  forallb P (map fst (obj_insert k v o)) = P k && forallb P (map fst o).
Proof.
  induction o as [|[k' v'] o IH]; [reflexivity|]. cbn [obj_insert].
  destruct (before k k'); cbn [map fst forallb]; [reflexivity|].
  rewrite IH. now destruct (P k), (P k').
Qed.

Lemma existsb_keys_obj_insert (P : string -> bool) (k : string) (v : value)
    (o : record) :
  existsb P (map fst (obj_insert k v o)) = P k || existsb P (map fst o).
Proof.
  induction o as [|[k' v'] o IH]; [reflexivity|]. cbn [obj_insert].
  destruct (before k k'); cbn [map fst existsb]; [reflexivity|].
  rewrite IH. now destruct (P k), (P k').
Qed.

Lemma forallb_obj_insert (P : value -> bool) (k : string) (v : value)
    (o : record) :
  P v = true -> forallb (fun kv => P (snd kv)) o = true ->
  forallb (fun kv => P (snd kv)) (obj_insert k v o) = true.
Proof.
  intros Hv. induction o as [|[k' v'] o IH].
  - intros _. cbn. now rewrite Hv.
  - cbn [obj_insert forallb snd]. intros H.
    apply andb_true_iff in H as [H1 H2].
    destruct (before k k'); cbn [forallb snd].
    + now rewrite Hv, H1, H2.
    + now rewrite H1, IH.
Qed.

Lemma before_asym (k k' : string) : before k k' = true -> before k' k = false.
Proof.
  unfold before. destruct (array_index k) as [n|], (array_index k') as [n'|];
    try discriminate; try reflexivity.
  intros H. apply N.ltb_lt in H. apply N.ltb_ge. lia.
Qed.

Lemma before_trans (a k k' : string) :
  before a k = true -> before k k' = true -> before a k' = true.
Proof.
  unfold before.
  destruct (array_index a) as [m|], (array_index k) as [n|],
    (array_index k') as [n'|]; try discriminate; try reflexivity.
  intros H1 H2. apply N.ltb_lt in H1, H2. apply N.ltb_lt. lia.
Qed.

Lemma nodup_keys_obj_insert (k : string) (v : value) (o : record) :
  existsb (String.eqb k) (map fst o) = false ->
  nodup_keys (map fst o) = true ->
  nodup_keys (map fst (obj_insert k v o)) = true.
Proof.
  induction o as [|[k' v'] o IH]; [reflexivity|].
  cbn [map fst existsb nodup_keys obj_insert]. intros Hk Hn.
  apply orb_false_iff in Hk as [Hk1 Hk2].
  apply andb_true_iff in Hn as [Hn1 Hn2].
  destruct (before k k'); cbn [map fst existsb nodup_keys].
  - now rewrite Hk1, Hk2, Hn1, Hn2.
  - rewrite existsb_keys_obj_insert, (IH Hk2 Hn2).
    rewrite String.eqb_sym in Hk1. rewrite Hk1. cbn [orb].
    now rewrite Hn1.
Qed.

Lemma ordered_obj_insert (k : string) (v : value) (o : record) :
  ordered (map fst o) = true -> ordered (map fst (obj_insert k v o)) = true.
Proof.
  induction o as [|[k' v'] o IH]; [reflexivity|].
  cbn [map fst ordered obj_insert]. intros H.
  apply andb_true_iff in H as [H1 H2].
  destruct (before k k') eqn:E; cbn [map fst ordered forallb].
  - rewrite H1, H2, (before_asym _ _ E). cbn [negb andb].
    rewrite andb_true_r. apply forallb_forall. intros a Ha.
    rewrite forallb_forall in H1. specialize (H1 a Ha).
    destruct (before a k) eqn:Ea; [|reflexivity].
    now rewrite (before_trans _ _ _ Ea E) in H1.
  - now rewrite forallb_keys_obj_insert, E, H1, (IH H2).
Qed.

Lemma existsb_keys_obj_set (a k : string) (v : value) (o : record) :
  existsb (String.eqb a) (map fst (obj_set k v o))
  = existsb (String.eqb a) (map fst o) || String.eqb a k.
Proof.
  unfold obj_set. destruct (obj_get k o) as [v'|] eqn:E.
  - rewrite keys_obj_replace.
    assert (Hk : existsb (String.eqb k) (map fst o) = true).
    { clear -E. induction o as [|[k0 v0] o IH]; [discriminate|].
      cbn [obj_get] in E. cbn [map fst existsb].
      destruct (String.eqb k k0); [reflexivity|]. now apply IH. }
    destruct (String.eqb a k) eqn:Ea; [|now rewrite orb_false_r].
    apply String.eqb_eq in Ea as ->. now rewrite Hk.
  - rewrite existsb_keys_obj_insert. apply orb_comm.
Qed.

Lemma wf_obj_set (k : string) (v : value) (o : record) :
  wf (JObj o) = true -> wf v = true -> wf (JObj (obj_set k v o)) = true.
Proof.
  intros Ho Hv. cbn [wf] in Ho |- *.
  apply andb_true_iff in Ho as [Hk Hw].
  apply andb_true_iff in Hk as [Hk1 Hk2].
  unfold obj_set. destruct (obj_get k o) as [v'|] eqn:E.
  - rewrite keys_obj_replace, Hk1, Hk2.
    now rewrite (forallb_obj_replace wf).
  - assert (Hfresh : existsb (String.eqb k) (map fst o) = false).
    { clear -E. induction o as [|[k0 v0] o IH]; [reflexivity|].
      cbn [obj_get] in E. cbn [map fst existsb].
      destruct (String.eqb k k0); [discriminate|]. now apply IH. }
    rewrite (nodup_keys_obj_insert _ _ _ Hfresh Hk1).
    rewrite (ordered_obj_insert _ _ _ Hk2).
    now rewrite (forallb_obj_insert wf).
Qed.

Lemma wf_build_object (ms : list (string * value)) :
  Forall (fun kv => wf (snd kv) = true) ms ->
  wf (JObj (build_object ms)) = true.
Proof.
  unfold build_object. intros H.
  assert (Hacc : wf (JObj []) = true) by reflexivity.
  revert Hacc. generalize (@nil (string * value)) as acc.
  induction H as [|[k v] ms Hv _ IH]; intros acc Hacc; [exact Hacc|].
  cbn [fold_left fst snd]. apply IH. now apply wf_obj_set.
Qed.

Lemma parse_elements_all (P : value -> Prop) (pv : parser value) :
  (forall s v r, pv s = Some (v, r) -> P v) ->
  forall n s vs r, parse_elements pv n s = Some (vs, r) -> Forall P vs.
Proof.
  intros Hpv. induction n as [|n IH]; intros s vs r H; [discriminate|].
  cbn [parse_elements] in H.
  destruct (pv s) as [[v r1]|] eqn:Ev; [|discriminate].
  destruct (skip_ws r1) as [|c r2]; [discriminate|].
  destruct (Nat.eqb (nat_of_ascii c) 44).
  - destruct (parse_elements pv n r2) as [[vs' r3]|] eqn:Er; [|discriminate].
    injection H as <- <-. constructor; eauto.
  - destruct (Nat.eqb (nat_of_ascii c) 93); [|discriminate].
    injection H as <- <-. constructor; eauto.
Qed.

Lemma parse_members_all (P : value -> Prop) (pv : parser value) :
  (forall s v r, pv s = Some (v, r) -> P v) ->
  forall n s ms r,
    parse_members pv n s = Some (ms, r) -> Forall (fun kv => P (snd kv)) ms.
Proof.
  intros Hpv. induction n as [|n IH]; intros s ms r H; [discriminate|].
  cbn [parse_members] in H.
  destruct (skip_ws s) as [|q s1]; [discriminate|].
  destruct (Nat.eqb (nat_of_ascii q) 34); [|discriminate].
  destruct (parse_string s1) as [[k s2]|]; [|discriminate].
  destruct (skip_ws s2) as [|colon s3]; [discriminate|].
  destruct (Nat.eqb (nat_of_ascii colon) 58); [|discriminate].
  destruct (pv s3) as [[v r1]|] eqn:Ev; [|discriminate].
  destruct (skip_ws r1) as [|c r2]; [discriminate|].
  destruct (Nat.eqb (nat_of_ascii c) 44).
  - destruct (parse_members pv n r2) as [[ms' r3]|] eqn:Er; [|discriminate].
    injection H as <- <-. constructor; eauto.
  - destruct (Nat.eqb (nat_of_ascii c) 125); [|discriminate].
    injection H as <- <-. constructor; [eauto|constructor].
Qed.

Lemma parse_value_wf (fuel : nat) :
  forall s v r, parse_value fuel s = Some (v, r) -> wf v = true.
Proof.
  induction fuel as [|fuel IH]; intros s v r H; [discriminate|].
  cbn [parse_value] in H.
  destruct (skip_ws s) as [|c r0]; [discriminate|]. cbv zeta in H.
  destruct (Nat.eqb (nat_of_ascii c) 34).
  { destruct (parse_string r0) as [[t r']|]; [|discriminate].
    now injection H as <- <-. }
  destruct (Nat.eqb (nat_of_ascii c) 91).
  { destruct (skip_ws r0) as [|c' r']; [discriminate|].
    destruct (Nat.eqb (nat_of_ascii c') 93); [now injection H as <- <-|].
    destruct (parse_elements (parse_value fuel) fuel r0) as [[vs r'']|] eqn:E;
      [|discriminate].
    injection H as <- <-. cbn [wf]. apply forallb_forall.
    apply List.Forall_forall.
    exact (parse_elements_all _ _ IH _ _ _ _ E). }
  destruct (Nat.eqb (nat_of_ascii c) 123).
  { destruct (skip_ws r0) as [|c' r']; [discriminate|].
    destruct (Nat.eqb (nat_of_ascii c') 125); [now injection H as <- <-|].
    destruct (parse_members (parse_value fuel) fuel r0) as [[ms r'']|] eqn:E;
      [|discriminate].
    injection H as <- <-. apply wf_build_object.
    exact (parse_members_all _ _ IH _ _ _ _ E). }
  destruct (Nat.eqb (nat_of_ascii c) 116).
  { destruct (expect (chars "rue") r0); [|discriminate].
    now injection H as <- <-. }
  destruct (Nat.eqb (nat_of_ascii c) 102).
  { destruct (expect (chars "alse") r0); [|discriminate].
    now injection H as <- <-. }
  destruct (Nat.eqb (nat_of_ascii c) 110).
  { destruct (expect (chars "ull") r0); [|discriminate].
    now injection H as <- <-. }
  destruct (parse_number (c :: r0)) as [[z r']|] eqn:En; [|discriminate].
  injection H as <- <-. exact (parse_number_exact _ _ _ En).
Qed.

Lemma JSON_parse_wf (text : string) (v : value) :
  JSON_parse text = Some v -> wf v = true.
Proof.
  unfold JSON_parse. intros H.
  destruct (parse_value _ _) as [[v' r]|] eqn:E; [|discriminate].
  destruct (skip_ws r); [|discriminate]. injection H as <-.
  exact (parse_value_wf _ _ _ _ E).
Qed.

(** ** A text the parser accepts is JSON *)

Lemma skip_digits_parse (s : list ascii) : snd (parse_digits s) = skip_digits s.
Proof.
  induction s as [|c s IH]; [reflexivity|]. cbn [parse_digits skip_digits].
  destruct (digit_of c); [|reflexivity].
  destruct (parse_digits s) as [d r]. exact IH.
Qed.

Lemma parse_digits_none (s r : list ascii) :
  parse_digits s = (Decimal.Nil, r) -> r = s.
Proof.
  destruct s as [|c s]; cbn [parse_digits]; [now intros [= <-]|].
  destruct (digit_of c) as [n|]; [|now intros [= <-]].
  destruct (parse_digits s) as [d r'].
  now destruct n as [|[|[|[|[|[|[|[|[|n]]]]]]]]].
Qed.

Lemma scan_int_parse (s r : list ascii) (d : Decimal.uint) :
  parse_digits s = (d, r) -> json_int d = true -> scan_int s = Some r.
Proof.
  destruct s as [|c s]; cbn [parse_digits scan_int]; [now intros [= <- <-]|].
  pose proof (skip_digits_parse s) as Hs.
  destruct (digit_of c) as [n|]; [|now intros [= <- <-]].
  destruct (parse_digits s) as [d' r'] eqn:E. cbn [snd] in Hs.
  intros [= <- <-] Hj. destruct n as [|n]; [|now rewrite Hs].
  cbn [cons_digit json_int] in Hj.
  destruct d'; try discriminate Hj. now rewrite (parse_digits_none _ _ E).
Qed.

Lemma scan_tail_integer (r : list ascii) :
  integer_ends r = true -> scan_frac r = Some r /\ scan_exp r = Some r.
Proof.
  destruct r as [|c r]; [now split|].
  unfold integer_ends, frac_or_exp, scan_frac, scan_exp. intros H.
  apply negb_true_iff in H. apply orb_false_iff in H as [H H3].
  apply orb_false_iff in H as [H1 H2]. now rewrite H1, H2, H3.
Qed.

Lemma scan_number_parse (s r : list ascii) (n : Z) :
  parse_number s = Some (n, r) -> scan_number s = Some r.
Proof.
  unfold parse_number, scan_number. destruct s as [|c s']; [discriminate|].
  destruct (Nat.eqb (nat_of_ascii c) 45).
  - destruct (parse_digits s') as [d r'] eqn:E.
    destruct (json_int d) eqn:Hj; [|discriminate].
    destruct (integer_ends r') eqn:Hi; [|discriminate].
    cbn [andb]. destruct (exact _); [|discriminate]. intros [= _ <-].
    rewrite (scan_int_parse _ _ _ E Hj).
    destruct (scan_tail_integer _ Hi) as [-> ->]. reflexivity.
  - destruct (parse_digits (c :: s')) as [d r'] eqn:E.
    destruct (json_int d) eqn:Hj; [|discriminate].
    destruct (integer_ends r') eqn:Hi; [|discriminate].
    cbn [andb]. destruct (exact _); [|discriminate]. intros [= _ <-].
    rewrite (scan_int_parse _ _ _ E Hj).
    destruct (scan_tail_integer _ Hi) as [-> ->]. reflexivity.
Qed.

Lemma prepend_some (cs t r : list ascii)
    (p : option (list ascii * list ascii)) :
  prepend cs p = Some (t, r) -> exists t', p = Some (t', r).
Proof.
  destruct p as [[t' r']|]; [|discriminate]. cbn [prepend].
  intros [= _ <-]. now exists t'.
Qed.

Lemma scan_chars_parse (n : nat) :
  forall s t r,
    length s <= n -> parse_chars s = Some (t, r) -> scan_chars s = Some r.
Proof.
  induction n as [|n IH]; intros s t r Hn H.
  { destruct s; [discriminate H|cbn in Hn; lia]. }
  destruct s as [|c s1]; [discriminate H|].
  cbn [parse_chars scan_chars] in H |- *. cbn [length] in Hn.
  destruct (Nat.eqb (nat_of_ascii c) 34); [now injection H as _ <-|].
  destruct (Nat.eqb (nat_of_ascii c) 92).
  2: { destruct (Nat.ltb (nat_of_ascii c) 32); [discriminate H|].
       apply prepend_some in H as (t' & H). apply (IH _ t'); [lia|exact H]. }
  destruct s1 as [|e s2]; [discriminate H|]. cbn [length] in Hn.
  destruct (simple_escape e).
  { apply prepend_some in H as (t' & H). apply (IH _ t'); [lia|exact H]. }
  destruct (Nat.eqb (nat_of_ascii e) 117); [|discriminate H].
  destruct s2 as [|h1 [|h2 [|h3 [|h4 s3]]]]; try discriminate H.
  cbn [length] in Hn.
  destruct (hex4 h1 h2 h3 h4) as [hi|]; [|discriminate H].
  destruct (high_surrogate hi).
  2: { destruct (low_surrogate hi); [discriminate H|].
       apply prepend_some in H as (t' & H). apply (IH _ t'); [lia|exact H]. }
  destruct s3 as [|b [|u [|l1 [|l2 [|l3 [|l4 s4]]]]]]; try discriminate H.
  cbn [length] in Hn.
  destruct (Nat.eqb (nat_of_ascii b) 92) eqn:Eb; [|discriminate H].
  destruct (Nat.eqb (nat_of_ascii u) 117) eqn:Eu; [|discriminate H].
  cbn [andb] in H.
  destruct (hex4 l1 l2 l3 l4) as [lo|] eqn:El; [|discriminate H].
  destruct (low_surrogate lo); [|discriminate H].
  apply prepend_some in H as (t' & H).
  assert (Hrest : scan_chars (b :: u :: l1 :: l2 :: l3 :: l4 :: s4)
                  = scan_chars s4).
  { cbn [scan_chars]. rewrite Eb, Eu, El.
    assert (Hb : Nat.eqb (nat_of_ascii b) 34 = false).
    { apply Nat.eqb_eq in Eb. now rewrite Eb. }
    rewrite Hb.
    assert (Hu : simple_escape u = None).
    { apply Nat.eqb_eq in Eu. unfold simple_escape. now rewrite Eu. }
    now rewrite Hu. }
  rewrite Hrest. apply (IH _ t'); [lia|exact H].
Qed.

Lemma scan_string_parse (s r : list ascii) (k : string) :
  parse_string s = Some (k, r) -> scan_chars s = Some r.
Proof.
  unfold parse_string. destruct (parse_chars s) as [[t r']|] eqn:E;
    [|discriminate].
  intros [= _ <-]. exact (scan_chars_parse _ _ _ _ (Nat.le_refl _) E).
Qed.

Lemma scan_elements_parse (pv : parser value) (sv : scanner) :
  (forall s v r, pv s = Some (v, r) -> sv s = Some r) ->
  forall n s vs r,
    parse_elements pv n s = Some (vs, r) -> scan_elements sv n s = Some r.
Proof.
  intros Hpv. induction n as [|n IH]; intros s vs r H; [discriminate|].
  cbn [parse_elements scan_elements] in H |- *.
  destruct (pv s) as [[v r1]|] eqn:Ev; [|discriminate].
  rewrite (Hpv _ _ _ Ev).
  destruct (skip_ws r1) as [|c r2]; [discriminate|].
  destruct (Nat.eqb (nat_of_ascii c) 44).
  - destruct (parse_elements pv n r2) as [[vs' r3]|] eqn:Er; [|discriminate].
    injection H as _ <-. exact (IH _ _ _ Er).
  - destruct (Nat.eqb (nat_of_ascii c) 93); [|discriminate].
    now injection H as _ <-.
Qed.

Lemma scan_members_parse (pv : parser value) (sv : scanner) :
  (forall s v r, pv s = Some (v, r) -> sv s = Some r) ->
  forall n s ms r,
    parse_members pv n s = Some (ms, r) -> scan_members sv n s = Some r.
Proof.
  intros Hpv. induction n as [|n IH]; intros s ms r H; [discriminate|].
  cbn [parse_members scan_members] in H |- *.
  destruct (skip_ws s) as [|q s1]; [discriminate|].
  destruct (Nat.eqb (nat_of_ascii q) 34); [|discriminate].
  destruct (parse_string s1) as [[k s2]|] eqn:Ek; [|discriminate].
  rewrite (scan_string_parse _ _ _ Ek).
  destruct (skip_ws s2) as [|colon s3]; [discriminate|].
  destruct (Nat.eqb (nat_of_ascii colon) 58); [|discriminate].
  destruct (pv s3) as [[v r1]|] eqn:Ev; [|discriminate].
  rewrite (Hpv _ _ _ Ev).
  destruct (skip_ws r1) as [|c r2]; [discriminate|].
  destruct (Nat.eqb (nat_of_ascii c) 44).
  - destruct (parse_members pv n r2) as [[ms' r3]|] eqn:Er; [|discriminate].
    injection H as _ <-. exact (IH _ _ _ Er).
  - destruct (Nat.eqb (nat_of_ascii c) 125); [|discriminate].
    now injection H as _ <-.
Qed.

Lemma scan_value_parse (fuel : nat) :
  forall s v r, parse_value fuel s = Some (v, r) -> scan_value fuel s = Some r.
Proof.
  induction fuel as [|fuel IH]; intros s v r H; [discriminate|].
  cbn [parse_value scan_value] in H |- *.
  destruct (skip_ws s) as [|c r0]; [discriminate|]. cbv zeta in H |- *.
  destruct (Nat.eqb (nat_of_ascii c) 34).
  { destruct (parse_string r0) as [[t r']|] eqn:E; [|discriminate].
    injection H as _ <-. exact (scan_string_parse _ _ _ E). }
  destruct (Nat.eqb (nat_of_ascii c) 91).
  { destruct (skip_ws r0) as [|c' r']; [discriminate|].
    destruct (Nat.eqb (nat_of_ascii c') 93); [now injection H as _ <-|].
    destruct (parse_elements (parse_value fuel) fuel r0) as [[vs r'']|] eqn:E;
      [|discriminate].
    injection H as _ <-. exact (scan_elements_parse _ _ IH _ _ _ _ E). }
  destruct (Nat.eqb (nat_of_ascii c) 123).
  { destruct (skip_ws r0) as [|c' r']; [discriminate|].
    destruct (Nat.eqb (nat_of_ascii c') 125); [now injection H as _ <-|].
    destruct (parse_members (parse_value fuel) fuel r0) as [[ms r'']|] eqn:E;
      [|discriminate].
    injection H as _ <-. exact (scan_members_parse _ _ IH _ _ _ _ E). }
  destruct (Nat.eqb (nat_of_ascii c) 116).
  { destruct (expect (chars "rue") r0); [|discriminate].
    now injection H as _ <-. }
  destruct (Nat.eqb (nat_of_ascii c) 102).
  { destruct (expect (chars "alse") r0); [|discriminate].
    now injection H as _ <-. }
  destruct (Nat.eqb (nat_of_ascii c) 110).
  { destruct (expect (chars "ull") r0); [|discriminate].
    now injection H as _ <-. }
  destruct (parse_number (c :: r0)) as [[z r']|] eqn:En; [|discriminate].
  injection H as _ <-. exact (scan_number_parse _ _ _ En).
Qed.

(** What the parser accepts is JSON: the parser refuses every text that
    [JSON.parse] refuses. *)
Lemma JSON_valid_parse (text : string) (v : value) :
  JSON_parse text = Some v -> JSON_valid text = true.
Proof.
  unfold JSON_parse, JSON_valid. intros H.
  destruct (parse_value _ _) as [[v' r]|] eqn:E; [|discriminate].
  rewrite (scan_value_parse _ _ _ _ E).
  now destruct (skip_ws r).
Qed.

Lemma JSON_parse_invalid (text : string) :
  JSON_valid text = false -> JSON_parse text = None.
Proof.
  intros H. destruct (JSON_parse text) as [v|] eqn:E; [|reflexivity].
  apply JSON_valid_parse in E. congruence.
Qed.

(** ** The fuel of the grammar

    What [scan_value] accepts with some fuel, it accepts with any fuel that
    is at least the number of characters it takes: [JSON_valid], which
    gives it more than the length of the text, refuses no text for want of
    fuel. *)

Lemma skip_ws_length (s : list ascii) : length (skip_ws s) <= length s.
Proof.
  induction s as [|c s IH]; [reflexivity|]. cbn [skip_ws].
  destruct (is_ws c); cbn [length]; lia.
Qed.

Lemma skip_digits_length (s : list ascii) : length (skip_digits s) <= length s.
Proof.
  induction s as [|c s IH]; [reflexivity|]. cbn [skip_digits].
  destruct (digit_of c); cbn [length]; lia.
Qed.

Lemma scan_digits_length (s r : list ascii) :
  scan_digits s = Some r -> length r < length s.
Proof.
  destruct s as [|c s]; [discriminate|]. cbn [scan_digits].
  destruct (digit_of c); [|discriminate]. intros [= <-].
  pose proof (skip_digits_length s). cbn [length]. lia.
Qed.

Lemma scan_number_length (s r : list ascii) :
  scan_number s = Some r -> length r < length s.
Proof.
  unfold scan_number.
  set (unsigned := match s with
                   | c :: s' => if Nat.eqb (nat_of_ascii c) 45 then s' else s
                   | [] => []
                   end).
  assert (Hu : length unsigned <= length s).
  { unfold unsigned. destruct s as [|c s']; [reflexivity|].
    destruct (Nat.eqb (nat_of_ascii c) 45); cbn [length]; lia. }
  destruct (scan_int unsigned) as [s1|] eqn:E1; [|discriminate].
  assert (H1 : length s1 < length unsigned).
  { unfold scan_int in E1. destruct unsigned as [|c u]; [discriminate|].
    pose proof (skip_digits_length u).
    destruct (digit_of c) as [[|n]|]; try discriminate;
      injection E1 as <-; cbn [length]; lia. }
  destruct (scan_frac s1) as [s2|] eqn:E2; [|discriminate].
  assert (H2 : length s2 <= length s1).
  { unfold scan_frac in E2. destruct s1 as [|c t]; [now injection E2 as <-|].
    destruct (Nat.eqb (nat_of_ascii c) 46); [|now injection E2 as <-].
    apply scan_digits_length in E2. cbn [length]. lia. }
  intros E3.
  assert (H3 : length r <= length s2).
  { unfold scan_exp in E3. destruct s2 as [|c t]; [now injection E3 as <-|].
    destruct (Nat.eqb (nat_of_ascii c) 101 || Nat.eqb (nat_of_ascii c) 69);
      [|now injection E3 as <-].
    destruct t as [|sign t']; [discriminate|].
    destruct (Nat.eqb (nat_of_ascii sign) 43
              || Nat.eqb (nat_of_ascii sign) 45);
      apply scan_digits_length in E3; cbn [length] in *; lia. }
  lia.
Qed.

Lemma scan_chars_length (n : nat) :
  forall s r, length s <= n -> scan_chars s = Some r -> length r < length s.
Proof.
  induction n as [|n IH]; intros s r Hn H.
  { destruct s; [discriminate H|cbn in Hn; lia]. }
  destruct s as [|c s1]; [discriminate H|].
  cbn [scan_chars] in H. cbn [length] in Hn |- *.
  destruct (Nat.eqb (nat_of_ascii c) 34); [injection H as <-; lia|].
  destruct (Nat.eqb (nat_of_ascii c) 92).
  2: { destruct (Nat.ltb (nat_of_ascii c) 32); [discriminate H|].
       apply IH in H; cbn [length] in *; lia. }
  destruct s1 as [|e s2]; [discriminate H|]. cbn [length] in Hn |- *.
  destruct (simple_escape e).
  { apply IH in H; cbn [length] in *; lia. }
  destruct (Nat.eqb (nat_of_ascii e) 117); [|discriminate H].
  destruct s2 as [|h1 [|h2 [|h3 [|h4 s3]]]]; try discriminate H.
  cbn [length] in Hn |- *.
  destruct (hex4 h1 h2 h3 h4); [|discriminate H].
  apply IH in H; cbn [length] in *; lia.
Qed.

Lemma expect_length (kw s r : list ascii) :
  expect kw s = Some r -> length r <= length s.
Proof.
  revert s. induction kw as [|k kw IH]; intros s H.
  - cbn in H. now injection H as <-.
  - destruct s as [|c s]; [discriminate H|]. cbn [expect] in H.
    destruct (Ascii.eqb k c); [|discriminate H].
    apply IH in H. cbn [length]. lia.
Qed.

Lemma scan_elements_fuel (sv : scanner) :
  fuelled sv ->
  forall n s r, scan_elements sv n s = Some r ->
    length r < length s
    /\ forall f m, length s - length r <= f -> length s - length r <= m ->
                   scan_elements (scan_value f) m s = Some r.
Proof.
  intros Hsv. induction n as [|n IH]; intros s r H; [discriminate|].
  cbn [scan_elements] in H.
  destruct (sv s) as [r1|] eqn:E1; [|discriminate].
  destruct (Hsv _ _ E1) as [L1 F1].
  pose proof (skip_ws_length r1) as Lw.
  destruct (skip_ws r1) as [|c r2] eqn:Ew; [discriminate|].
  cbn [length] in Lw.
  destruct (Nat.eqb (nat_of_ascii c) 44) eqn:Ec.
  - destruct (IH _ _ H) as [L2 F2]. split; [lia|].
    intros f m Hf Hm. destruct m as [|m]; [lia|]. cbn [scan_elements].
    rewrite (F1 f) by lia. rewrite Ew, Ec. apply F2; lia.
  - destruct (Nat.eqb (nat_of_ascii c) 93) eqn:Ec'; [|discriminate].
    injection H as <-. split; [lia|].
    intros f m Hf Hm. destruct m as [|m]; [lia|]. cbn [scan_elements].
    rewrite (F1 f) by lia. now rewrite Ew, Ec, Ec'.
Qed.

Lemma scan_members_fuel (sv : scanner) :
  fuelled sv ->
  forall n s r, scan_members sv n s = Some r ->
    length r < length s
    /\ forall f m, length s - length r <= f -> length s - length r <= m ->
                   scan_members (scan_value f) m s = Some r.
Proof.
  intros Hsv. induction n as [|n IH]; intros s r H; [discriminate|].
  cbn [scan_members] in H.
  pose proof (skip_ws_length s) as L0.
  destruct (skip_ws s) as [|q s1] eqn:E0; [discriminate|].
  cbn [length] in L0.
  destruct (Nat.eqb (nat_of_ascii q) 34) eqn:Eq; [|discriminate].
  destruct (scan_chars s1) as [s2|] eqn:Ek; [|discriminate].
  pose proof (scan_chars_length _ _ _ (Nat.le_refl _) Ek) as Lk.
  pose proof (skip_ws_length s2) as L2.
  destruct (skip_ws s2) as [|colon s3] eqn:E2; [discriminate|].
  cbn [length] in L2.
  destruct (Nat.eqb (nat_of_ascii colon) 58) eqn:Ecolon; [|discriminate].
  destruct (sv s3) as [r1|] eqn:E1; [|discriminate].
  destruct (Hsv _ _ E1) as [L1 F1].
  pose proof (skip_ws_length r1) as Lw.
  destruct (skip_ws r1) as [|c r2] eqn:Ew; [discriminate|].
  cbn [length] in Lw.
  destruct (Nat.eqb (nat_of_ascii c) 44) eqn:Ec.
  - destruct (IH _ _ H) as [L3 F3]. split; [lia|].
    intros f m Hf Hm. destruct m as [|m]; [lia|]. cbn [scan_members].
    rewrite E0, Eq, Ek, E2, Ecolon. rewrite (F1 f) by lia.
    rewrite Ew, Ec. apply F3; lia.
  - destruct (Nat.eqb (nat_of_ascii c) 125) eqn:Ec'; [|discriminate].
    injection H as <-. split; [lia|].
    intros f m Hf Hm. destruct m as [|m]; [lia|]. cbn [scan_members].
    rewrite E0, Eq, Ek, E2, Ecolon. rewrite (F1 f) by lia.
    now rewrite Ew, Ec, Ec'.
Qed.

Lemma scan_value_fuel (fuel : nat) : fuelled (scan_value fuel).
Proof.
  induction fuel as [|fuel IH]; intros s r H; [discriminate|].
  cbn [scan_value] in H.
  pose proof (skip_ws_length s) as L0.
  destruct (skip_ws s) as [|c r0] eqn:E0; [discriminate|].
  cbn [length] in L0. cbv zeta in H.
  assert (Hstep : forall f,
            scan_value (S f) s
            = (if Nat.eqb (nat_of_ascii c) 34 then scan_chars r0
               else if Nat.eqb (nat_of_ascii c) 91 then
                 match skip_ws r0 with
                 | c' :: r' =>
                     if Nat.eqb (nat_of_ascii c') 93 then Some r'
                     else scan_elements (scan_value f) f r0
                 | [] => None
                 end
               else if Nat.eqb (nat_of_ascii c) 123 then
                 match skip_ws r0 with
                 | c' :: r' =>
                     if Nat.eqb (nat_of_ascii c') 125 then Some r'
                     else scan_members (scan_value f) f r0
                 | [] => None
                 end
               else if Nat.eqb (nat_of_ascii c) 116
               then expect (chars "rue") r0
               else if Nat.eqb (nat_of_ascii c) 102
               then expect (chars "alse") r0
               else if Nat.eqb (nat_of_ascii c) 110
               then expect (chars "ull") r0
               else scan_number (c :: r0))).
  { intros f. cbn [scan_value]. now rewrite E0. }
  assert (Hdone : length r < S (length r0) ->
            (forall f, scan_value (S f) s = Some r) ->
            length r < length s
            /\ forall f, length s - length r <= f -> scan_value f s = Some r).
  { intros Hl Hf. split; [lia|]. intros f Hle.
    destruct f as [|f]; [lia|]. apply Hf. }
  destruct (Nat.eqb (nat_of_ascii c) 34) eqn:E1.
  { pose proof (scan_chars_length _ _ _ (Nat.le_refl _) H).
    apply Hdone; [lia|]. intros f. now rewrite Hstep. }
  destruct (Nat.eqb (nat_of_ascii c) 91) eqn:E2.
  { pose proof (skip_ws_length r0) as Lr.
    destruct (skip_ws r0) as [|c' r'] eqn:Er; [discriminate|].
    cbn [length] in Lr.
    destruct (Nat.eqb (nat_of_ascii c') 93) eqn:E3.
    - injection H as <-. apply Hdone; [lia|].
      intros f. now rewrite Hstep.
    - destruct (scan_elements_fuel _ IH _ _ _ H) as [Ll Fl]. split; [lia|].
      intros f Hf. destruct f as [|f]; [lia|].
      rewrite Hstep. apply Fl; lia. }
  destruct (Nat.eqb (nat_of_ascii c) 123) eqn:E3.
  { pose proof (skip_ws_length r0) as Lr.
    destruct (skip_ws r0) as [|c' r'] eqn:Er; [discriminate|].
    cbn [length] in Lr.
    destruct (Nat.eqb (nat_of_ascii c') 125) eqn:E4.
    - injection H as <-. apply Hdone; [lia|].
      intros f. now rewrite Hstep.
    - destruct (scan_members_fuel _ IH _ _ _ H) as [Ll Fl]. split; [lia|].
      intros f Hf. destruct f as [|f]; [lia|].
      rewrite Hstep. apply Fl; lia. }
  destruct (Nat.eqb (nat_of_ascii c) 116) eqn:E4.
  { pose proof (expect_length _ _ _ H).
    apply Hdone; [lia|]. intros f. now rewrite Hstep. }
  destruct (Nat.eqb (nat_of_ascii c) 102) eqn:E5.
  { pose proof (expect_length _ _ _ H).
    apply Hdone; [lia|]. intros f. now rewrite Hstep. }
  destruct (Nat.eqb (nat_of_ascii c) 110) eqn:E6.
  { pose proof (expect_length _ _ _ H).
    apply Hdone; [lia|].
    intros f. now rewrite Hstep. }
  pose proof (scan_number_length _ _ H) as Ln. cbn [length] in Ln.
  apply Hdone; [lia|].
  intros f. now rewrite Hstep.
Qed.

(** [JSON_valid] accepts the texts that the grammar accepts with some
    fuel, whatever the fuel. *)
Lemma JSON_valid_fuel (text : string) :
  JSON_valid text = true <->
  exists fuel r, scan_value fuel (chars text) = Some r /\ skip_ws r = [].
Proof.
  unfold JSON_valid. split.
  - destruct (scan_value _ _) as [r|] eqn:E; [|discriminate].
    destruct (skip_ws r) eqn:Er; [|discriminate]. intros _.
    exists (S (length (chars text))), r. now split.
  - intros (fuel & r & H & Hr).
    destruct (scan_value_fuel _ _ _ H) as [_ F].
    rewrite (F (S (length (chars text)))) by lia. now rewrite Hr.
Qed.

End JsonFacts.

(* ===================================================================== *)
(** * Facts about the class *)
(* ===================================================================== *)

Module DbFacts.
Import Json Node Db Spec JsonFacts.

(** ** The world *)

Lemma files_after_id (r : record) (e : env) : files (after_id r e) = files e.
Proof. unfold after_id. now destruct (truthy_opt _). Qed.

Lemma readonly_after_id (r : record) (e : env) :
  readonly (after_id r e) = readonly e.
Proof. unfold after_id. now destruct (truthy_opt _). Qed.

Lemma pending_after_id (r : record) (e : env) :
  pending (after_id r e) = pending e.
Proof. unfold after_id. now destruct (truthy_opt _). Qed.

(** ** [get] *)

Lemma get_eq (db : jsonFileDB) (e : env) :
  get EmptyString (db, e) = (load db e, (db, e)).
Proof.
  unfold get, load, bind, try_rethrow, this, ask, lift, ret, throw. cbn.
  destruct (readFileSync (storagePath db) e) as [text|x]; cbn;
    [destruct (JSON_parse text)|]; reflexivity.
Qed.

Lemma load_stored (db : jsonFileDB) (e : env) (l : list value) :
  stored db e = Some l -> load db e = Return (JArr l).
Proof.
  unfold stored, load, readFileSync.
  destruct (storagePath db) as [p|]; [|discriminate].
  destruct (files e !! p) as [text|]; [|discriminate].
  destruct (JSON_parse text) as [[]|]; try discriminate.
  now intros [= ->].
Qed.

Lemma stored_wf (db : jsonFileDB) (e : env) (l : list value) :
  stored db e = Some l -> wf (JArr l) = true.
Proof.
  unfold stored.
  destruct (storagePath db) as [p|]; [|discriminate].
  destruct (files e !! p) as [text|]; [|discriminate].
  destruct (JSON_parse text) as [[]|] eqn:E; try discriminate.
  intros [= <-]. exact (JSON_parse_wf _ _ E).
Qed.

(** What [stored] reads from a file that holds a printed array. *)
Lemma stored_written (db : jsonFileDB) (e : env) (p : string)
    (l : list value) :
  storagePath db = Some p ->
  files e !! p = Some (JSON_stringify (JArr l)) ->
  wf (JArr l) = true ->
  stored db e = Some l.
Proof.
  intros Hp Hf Hwf. unfold stored.
  now rewrite Hp, Hf, JSON_parse_stringify.
Qed.

(** ** The matcher on records *)

Lemma matches_record (query o : record) :
  matches query (JObj o) = Return (record_matches query o).
Proof.
  unfold matches, record_matches. cbn [prop].
  induction (keys query) as [|k ks IH]; [reflexivity|].
  cbn [every forallb].
  destruct (strict_equals_opt (read o k) (obj_get k query)); [exact IH|].
  reflexivity.
Qed.

Lemma strict_equals_spec (a b : value) :
  strict_equals a b = true <-> scalar a = true /\ a <> JNaN /\ a = b.
Proof.
  destruct a, b; cbn; split; try (intros (? & ? & ?)); try easy.
  - intros H. apply Bool.eqb_prop in H as ->. easy.
  - injection H1 as ->. apply Bool.eqb_reflx.
  - intros H. apply Z.eqb_eq in H as ->. easy.
  - injection H1 as ->. apply Z.eqb_refl.
  - intros H. apply String.eqb_eq in H as ->. easy.
  - injection H1 as ->. apply String.eqb_refl.
  - intros H. apply Bool.eqb_prop in H as ->. easy.
  - injection H1 as ->. apply Bool.eqb_reflx.
Qed.

Lemma filter_items_records (query : record) (rs : list record) :
  filter_items (matches query) (map JObj rs)
  = Return (map JObj (List.filter (record_matches query) rs)).
Proof.
  induction rs as [|o rs IH]; [reflexivity|].
  cbn [map filter_items List.filter]. rewrite matches_record, IH.
  now destruct (record_matches query o).
Qed.

(** ** [update] on records *)

Lemma merge_record (updateData : record) (ks : list string) (o : record) :
  merge updateData ks (JObj o)
  = Return (JObj (fold_left
       (fun o key => obj_assign key (default JUndefined (obj_get key updateData)) o)
       ks o)).
Proof.
  revert o. induction ks as [|k ks IH]; intros o; [reflexivity|].
  cbn [merge assign fold_left]. apply IH.
Qed.

Lemma update_item_record (query updateData o : record) :
  update_item query updateData (JObj o)
  = Return (JObj (updated query updateData o)).
Proof.
  unfold update_item, updated. rewrite matches_record.
  destruct (record_matches query o); [apply merge_record|reflexivity].
Qed.

Lemma for_each_records (query updateData : record) (rs : list record) :
  for_each (update_item query updateData) (map JObj rs)
  = Return (map JObj (map (updated query updateData) rs)).
Proof.
  induction rs as [|o rs IH]; [reflexivity|].
  cbn [map for_each]. now rewrite update_item_record, IH.
Qed.

(** ** [delete] on records *)

Lemma delete_scan_records (query : record) (rs : list record) :
  delete_scan query (map JObj rs)
  = Return (map JObj (List.filter (fun o => negb (record_matches query o)) rs),
            map JObj (List.filter (record_matches query) rs)).
Proof.
  induction rs as [|o rs IH]; [reflexivity|].
  cbn [map delete_scan List.filter]. rewrite matches_record, IH.
  now destruct (record_matches query o).
Qed.

(** ** The methods on a bound handle *)

Lemma find_eq (query : record) (db : jsonFileDB) (e : env)
    (rs : list record) :
  stored db e = Some (map JObj rs) ->
  find query (db, e)
  = (Return (map JObj (List.filter (record_matches query) rs)), (db, e)).
Proof.
  intros H. unfold find, bind, lift. rewrite get_eq, (load_stored _ _ _ H).
  cbn [elements]. now rewrite filter_items_records.
Qed.

Lemma stored_path (db : jsonFileDB) (e : env) (l : list value) :
  stored db e = Some l -> exists p, storagePath db = Some p.
Proof.
  unfold stored. destruct (storagePath db) as [p|]; [eauto|discriminate].
Qed.

Lemma update_eq (query updateData : record) (db : jsonFileDB) (e : env)
    (p : string) (rs : list record) :
  storagePath db = Some p ->
  stored db e = Some (map JObj rs) ->
  update query updateData (db, e)
  = (Return (map JObj (map (updated query updateData) rs)),
     (db, with_pending
            (pending e
               ++ [store_request p
                     (map JObj (map (updated query updateData) rs))]) e)).
Proof.
  intros Hp H. unfold update, bind, lift, this, on_env, ret.
  rewrite get_eq, (load_stored _ _ _ H). cbn [elements].
  rewrite for_each_records. cbn [fst snd]. now rewrite Hp.
Qed.

Lemma delete_eq (query : record) (db : jsonFileDB) (e : env)
    (p : string) (rs : list record) :
  storagePath db = Some p ->
  stored db e = Some (map JObj rs) ->
  delete query (db, e)
  = (Return (map JObj (List.filter (record_matches query) rs)),
     (db, with_pending
            (pending e
               ++ [store_request p
                     (map JObj (List.filter
                                  (fun o => negb (record_matches query o)) rs))])
            e)).
Proof.
  intros Hp H. unfold delete, bind, lift, this, on_env, ret.
  rewrite get_eq, (load_stored _ _ _ H). cbn [elements].
  rewrite delete_scan_records. cbn [fst snd]. now rewrite Hp.
Qed.

(** ** [insert] *)

Lemma choose_id_eq (r : record) (db : jsonFileDB) (e : env) :
  choose_id r (db, e) = (Return (assigned_id r e), (db, after_id r e)).
Proof.
  unfold choose_id, assigned_id, after_id, truthy_opt.
  destruct (obj_get "id" r) as [v|]; [destruct (truthy v)|]; reflexivity.
Qed.

Lemma insert_begin_eq (r : record) (db : jsonFileDB) (e : env) :
  truthy_opt (JStr <$> storage db) = true ->
  insert_begin r (db, e)
  = (Return (with_id r e,
             load (set_lastInsertId (assigned_id r e) db) (after_id r e)),
     (set_lastInsertId (assigned_id r e) db, after_id r e)).
Proof.
  intros Hs. unfold insert_begin, bind, this, try_rethrow, modify_this.
  cbn [fst snd]. rewrite Hs. cbn [negb]. rewrite choose_id_eq.
  cbn [fst snd]. now rewrite get_eq.
Qed.

Lemma insert_resume_eq (r : record) (l : list value) (db : jsonFileDB)
    (e : env) (p : string) :
  storagePath db = Some p ->
  writable p e = true ->
  insert_resume (r, Return (JArr l)) (db, e)
  = (Return r,
     (db, with_files
            (<[p := JSON_stringify (JArr (l ++ [JObj r]))]> (files e)) e)).
Proof.
  intros Hp Hw.
  unfold insert_resume, bind, lift, this, on_env, try_rethrow, ret.
  cbn [push fst snd]. rewrite Hp. unfold writeFileSync. now rewrite Hw.
Qed.

Lemma stored_after_id (r : record) (id : value) (db : jsonFileDB) (e : env) :
  stored (set_lastInsertId id db) (after_id r e) = stored db e.
Proof. unfold stored. cbn. now rewrite files_after_id. Qed.

Lemma writable_after_id (r : record) (p : string) (e : env) :
  writable p (after_id r e) = writable p e.
Proof. unfold writable. now rewrite readonly_after_id. Qed.

Lemma insert_eq (r : record) (db : jsonFileDB) (e : env) (p : string)
    (l : list value) :
  truthy_opt (JStr <$> storage db) = true ->
  storagePath db = Some p ->
  stored db e = Some l ->
  writable p e = true ->
  insert r (db, e)
  = (Return (with_id r e),
     (set_lastInsertId (assigned_id r e) db,
      with_files
        (<[p := JSON_stringify (JArr (l ++ [JObj (with_id r e)]))]> (files e))
        (after_id r e))).
Proof.
  intros Hs Hp Hl Hw. unfold insert, bind.
  rewrite insert_begin_eq by exact Hs.
  rewrite (load_stored _ _ l) by now rewrite stored_after_id.
  rewrite (insert_resume_eq _ _ _ _ p);
    [|exact Hp|now rewrite writable_after_id].
  now rewrite files_after_id.
Qed.

(** [insert] resumed leaves the handle as it finds it, and [insert] has
    assigned [lastInsertId] before it is suspended: the field holds the new
    id however the call ends. *)
Lemma insert_resume_this (frame : insert_frame) (db : jsonFileDB) (e : env) :
  fst (snd (insert_resume frame (db, e))) = db.
Proof.
  destruct frame as [r [data|x]]; [|reflexivity].
  unfold insert_resume, bind, lift, this, on_env, try_rethrow, ret.
  destruct (push data (JObj r)) as [data'|x]; [|reflexivity].
  cbn [fst snd]. unfold writeFileSync.
  destruct (storagePath db) as [p|]; [|reflexivity].
  now destruct (writable p e).
Qed.

Lemma insert_lastInsertId (r : record) (db : jsonFileDB) (e : env) :
  truthy_opt (JStr <$> storage db) = true ->
  lastInsertId (fst (snd (insert r (db, e)))) = Some (assigned_id r e).
Proof.
  intros Hs. unfold insert, bind. rewrite (insert_begin_eq r db e Hs).
  now rewrite insert_resume_this.
Qed.

(** ** Further facts, used by the theorems on the claims *)

Lemma obj_get_set_same (k : string) (v : value) (o : record) :
  obj_get k (obj_set k v o) = Some v.
Proof.
  unfold obj_set. destruct (obj_get k o) as [v'|] eqn:E.
  - induction o as [|[k0 v0] o IH]; [discriminate|].
    cbn [obj_get obj_replace] in E |- *.
    destruct (String.eqb k k0) eqn:Ek; cbn [obj_get]; rewrite Ek;
      [reflexivity|exact (IH E)].
  - induction o as [|[k0 v0] o IH]; cbn [obj_insert obj_get].
    + now rewrite String.eqb_refl.
    + cbn [obj_get] in E. destruct (String.eqb k k0) eqn:Ek; [discriminate|].
      destruct (before k k0); cbn [obj_get].
      * now rewrite String.eqb_refl.
      * rewrite Ek. exact (IH E).
Qed.

Lemma obj_set_same (k : string) (v : value) (o : record) :
  obj_get k o = Some v -> obj_set k v o = o.
Proof.
  intros H. unfold obj_set. rewrite H.
  induction o as [|[k' v'] o IH]; cbn [obj_replace obj_get] in H |- *;
    [discriminate|].
  destruct (String.eqb k k'); [now injection H as ->|].
  now rewrite IH.
Qed.

Lemma bound_selected (name : string) (db : jsonFileDB) :
  bound name db -> truthy_opt (JStr <$> storage db) = true.
Proof.
  intros (Hne & -> & _). cbn. apply negb_true_iff.
  now apply String.eqb_neq.
Qed.

Lemma bound_after_insert (name : string) (id : value) (db : jsonFileDB) :
  bound name db -> bound name (set_lastInsertId id db).
Proof. now intros (? & ? & ?). Qed.

Lemma substring_nonempty (t : string) :
  2 < String.length t -> substring 2 13 t <> EmptyString.
Proof.
  destruct t as [|a [|b [|c t]]]; cbn [String.length]; try lia.
  intros _. cbn. discriminate.
Qed.

Lemma append_nonempty (a b : string) :
  a <> EmptyString \/ b <> EmptyString -> a +:+ b <> EmptyString.
Proof.
  destruct a as [|c a]; cbn; [|discriminate].
  now intros [H|H].
Qed.

Lemma generated_nonempty (e : env) :
  2 < String.length (random e (drawn e))
  \/ 2 < String.length (random e (S (drawn e))) ->
  generated e <> EmptyString.
Proof.
  intros H. apply append_nonempty.
  destruct H as [H|H]; [left|right]; now apply substring_nonempty.
Qed.

Lemma wf_records (R : list record) :
  wf (JArr (map JObj R)) = forallb wf_record R.
Proof.
  cbn [wf]. induction R as [|r R IH]; [reflexivity|].
  cbn [map forallb]. now rewrite IH.
Qed.

Lemma setStorage_eq (name : string) (db : jsonFileDB) (e : env) :
  setStorage name (db, e)
  = let p := storage_file (dbPath db) name in
    let db' := bind_storage name p db in
    if existsSync p e then (Return tt, (db', e))
    else if writable p e
         then (Return tt, (db', with_files (<[p := "[]"]> (files e)) e))
         else (Throw (ErrorOf (SystemError "EACCES")), (db', e)).
Proof.
  unfold setStorage, bind, this, modify_this, ask, try_rethrow, on_env, ret.
  cbn [fst snd]. destruct (existsSync _ e); cbn [negb]; [reflexivity|].
  unfold writeFileSync. cbn [fst snd].
  destruct (writable (storage_file (dbPath db) name) e); reflexivity.
Qed.

Lemma get_named (name : string) (s : state) :
  name <> EmptyString ->
  get name s
  = match setStorage name s with
    | (Return _, s') => get EmptyString s'
    | (Throw x, s') => (Throw x, s')
    end.
Proof.
  intros Hne. unfold get at 1, bind.
  apply String.eqb_neq in Hne. rewrite Hne. cbn [negb].
  now destruct (setStorage name s) as [[[]|x] s'].
Qed.

Lemma obj_get_key (key : string) (q : record) :
  In key (keys q) -> exists e, obj_get key q = Some e.
Proof.
  induction q as [|[k v] q IH]; [easy|]. cbn [keys map fst obj_get In].
  destruct (String.eqb key k) eqn:E; [eauto|].
  intros [->|H]; [now rewrite String.eqb_refl in E|now apply IH].
Qed.

Lemma obj_get_in (key : string) (v : value) (q : record) :
  obj_get key q = Some v -> In (key, v) q.
Proof.
  induction q as [|[k x] q IH]; [discriminate|]. cbn [obj_get].
  destruct (String.eqb key k) eqn:E.
  - apply String.eqb_eq in E as ->. intros [= ->]. now left.
  - intros H. right. now apply IH.
Qed.

Lemma deep_equal_scalar (v expected : value) :
  scalar expected = true -> expected <> JNaN ->
  deep_equal v expected = strict_equals v expected.
Proof.
  destruct v, expected; intros H Hn; try discriminate H; try reflexivity.
  now destruct Hn.
Qed.

Lemma forallb_agree {A} (f g : A -> bool) (l : list A) :
  (forall x, In x l -> f x = g x) -> forallb f l = forallb g l.
Proof.
  induction l as [|x l IH]; intros H; [reflexivity|]. cbn [forallb].
  rewrite (H x) by now left. rewrite IH; [reflexivity|].
  intros y Hy. apply H. now right.
Qed.

Lemma supplied_id (r : record) (e : env) :
  truthy_opt (obj_get "id" r) = true ->
  with_id r e = r /\ after_id r e = e.
Proof.
  intros H. unfold with_id, assigned_id, after_id. rewrite H.
  split; [|reflexivity].
  destruct (obj_get "id" r) as [v|] eqn:E; [|discriminate H].
  now apply obj_set_same.
Qed.

Lemma wf_append (l : list value) (r : record) :
  wf (JArr l) = true -> wf_record r = true -> wf (JArr (l ++ [JObj r])) = true.
Proof.
  cbn [wf]. intros Hl Hr. rewrite forallb_app, Hl. cbn [forallb].
  now rewrite andb_true_r.
Qed.

Lemma writable_with_files (p : string) (f : gmap string string) (e : env) :
  writable p (with_files f e) = writable p e.
Proof. reflexivity. Qed.

Lemma insert_supplied (r : record) (name : string) (db : jsonFileDB)
    (e : env) (l : list value) :
  bound name db -> stored db e = Some l ->
  writable (storage_file (dbPath db) name) e = true -> supplied r ->
  exists db' e',
    insert r (db, e) = (Return r, (db', e'))
    /\ bound name db' /\ dbPath db' = dbPath db
    /\ writable (storage_file (dbPath db) name) e' = true
    /\ stored db' e' = Some (l ++ [JObj r]).
Proof.
  intros Hb Hl Hw [Hid Hwf]. pose proof Hb as (_ & _ & Hp).
  destruct (supplied_id r e Hid) as [Hr He].
  eexists _, _. split.
  { rewrite (insert_eq r db e _ l (bound_selected _ _ Hb) Hp Hl Hw).
    rewrite Hr, He. reflexivity. }
  split; [now apply bound_after_insert|]. split; [reflexivity|].
  split; [exact Hw|].
  apply (stored_written _ _ (storage_file (dbPath db) name)).
  - exact Hp.
  - cbn [files with_files]. apply lookup_insert_eq.
  - apply wf_append; [exact (stored_wf _ _ _ Hl)|exact Hwf].
Qed.

Lemma insert_each_supplied (name : string) (rs : list record) :
  forall (db : jsonFileDB) (e : env) (l : list value),
    bound name db -> stored db e = Some l ->
    writable (storage_file (dbPath db) name) e = true ->
    Forall supplied rs ->
    exists s',
      insert_each rs (db, e) = (map Return rs, s')
      /\ stored (fst s') (snd s') = Some (l ++ map JObj rs).
Proof.
  unfold insert_each.
  induction rs as [|r rs IH]; intros db e l Hb Hl Hw Hrs.
  - exists (db, e). cbn. now rewrite app_nil_r.
  - apply Forall_cons_iff in Hrs as [Hr Hrs].
    destruct (insert_supplied r name db e l Hb Hl Hw Hr)
      as (db' & e' & Hins & Hb' & Hd & Hw' & Hl').
    rewrite <- Hd in Hw'.
    destruct (IH db' e' _ Hb' Hl' Hw' Hrs) as (s' & Hrun & Hst).
    exists s'. cbn [run_all map]. rewrite Hins, Hrun.
    split; [reflexivity|]. rewrite Hst, <- app_assoc. reflexivity.
Qed.

(** Every call made before any is resumed loads the same array. *)
Lemma begin_all_supplied (name : string) (rs : list record) :
  forall (db : jsonFileDB) (e : env) (l : list value),
    bound name db -> stored db e = Some l -> Forall supplied rs ->
    exists db',
      run_all insert_begin rs (db, e)
      = (map (fun r => Return (r, Return (JArr l))) rs, (db', e))
      /\ storagePath db' = storagePath db.
Proof.
  induction rs as [|r rs IH]; intros db e l Hb Hl Hrs.
  - now exists db.
  - apply Forall_cons_iff in Hrs as [[Hid Hwf] Hrs].
    destruct (supplied_id r e Hid) as [Hr He].
    cbn [run_all map].
    rewrite (insert_begin_eq r db e (bound_selected _ _ Hb)).
    rewrite (load_stored _ _ l) by now rewrite stored_after_id.
    rewrite Hr, He.
    destruct (IH (set_lastInsertId (assigned_id r e) db) e l)
      as (db' & Hrun & Hp);
      [now apply bound_after_insert|exact Hl|exact Hrs|].
    exists db'. rewrite Hrun. split; [reflexivity|exact Hp].
Qed.

(** Every resumed call writes the array it loaded, with its own record. *)
Lemma resume_all (p : string) (l : list value) (db : jsonFileDB)
    (rs : list record) :
  storagePath db = Some p ->
  forall e : env,
    writable p e = true ->
    exists e',
      run_all resume (map (fun r => Return (r, Return (JArr l))) rs) (db, e)
      = (map Return rs, (db, e'))
      /\ files e' !! p
         = match rs with
           | [] => files e !! p
           | _ :: _ =>
               Some (JSON_stringify (JArr (l ++ [JObj (List.last rs [])])))
           end.
Proof.
  intros Hp. induction rs as [|r rs IH]; intros e Hw.
  - now exists e.
  - cbn [run_all map resume]. rewrite (insert_resume_eq r l db e p Hp Hw).
    destruct (IH (with_files
                    (<[p := JSON_stringify (JArr (l ++ [JObj r]))]> (files e))
                    e))
      as (e' & Hrun & Hf); [exact Hw|].
    exists e'. rewrite Hrun. split; [reflexivity|]. rewrite Hf.
    destruct rs as [|r' rs]; [|reflexivity].
    cbn [files with_files List.last]. apply lookup_insert_eq.
Qed.

Lemma drain_one (e : env) (w : write_request) :
  pending e = [w] ->
  writable (wr_path w) e = true ->
  wr_callback w None = Return tt ->
  drain e
  = with_pending [] (with_files (<[wr_path w := wr_data w]> (files e)) e).
Proof.
  intros Hq Hw Hcb. unfold drain. rewrite Hq.
  change (Nat.iter (length [w]) turn e) with (turn e).
  unfold turn. now rewrite Hq, Hw, Hcb.
Qed.

Lemma obj_get_wf (key : string) (v : value) (o : record) :
  forallb (fun kv => wf (snd kv)) o = true ->
  obj_get key o = Some v -> wf v = true.
Proof.
  intros Ho Hv. apply obj_get_in in Hv.
  rewrite forallb_forall in Ho. exact (Ho _ Hv).
Qed.

Lemma wf_patched (updateData o : record) :
  forallb (fun kv => wf (snd kv)) updateData = true ->
  wf_record o = true -> wf_record (patched updateData o) = true.
Proof.
  intros Hu. unfold patched.
  assert (Hks : forall k, In k (keys updateData) -> In k (keys updateData))
    by auto.
  revert o Hks. generalize (keys updateData) at 1 3.
  induction l as [|k ks IH]; intros o Hks Ho; [exact Ho|].
  cbn [fold_left]. apply IH; [intros k' Hk'; apply Hks; now right|].
  unfold obj_assign.
  destruct (settable k o); [|exact Ho]. apply wf_obj_set; [exact Ho|].
  destruct (obj_get_key k updateData (Hks k (or_introl eq_refl))) as (v & E).
  rewrite E. exact (obj_get_wf _ _ _ Hu E).
Qed.

Lemma wf_updated (query updateData : record) (rs : list record) :
  forallb (fun kv => wf (snd kv)) updateData = true ->
  forallb wf_record rs = true ->
  forallb wf_record (map (updated query updateData) rs) = true.
Proof.
  intros Hu. induction rs as [|o rs IH]; [reflexivity|].
  cbn [map forallb]. intros H. apply andb_true_iff in H as [Ho Hrs].
  rewrite (IH Hrs), andb_true_r. unfold updated.
  destruct (record_matches query o); [now apply wf_patched|exact Ho].
Qed.

Lemma wf_filter (f : record -> bool) (rs : list record) :
  forallb wf_record rs = true -> forallb wf_record (List.filter f rs) = true.
Proof.
  induction rs as [|o rs IH]; [reflexivity|].
  cbn [List.filter forallb]. intros H. apply andb_true_iff in H as [Ho Hrs].
  destruct (f o); cbn [forallb]; [rewrite Ho|]; now apply IH.
Qed.

(** ** Writes in flight *)

(** Whatever the thread pool has done to the file of the one request that
    is queued, the file holds the data once the event loop has called
    back. *)
Lemma drain_in_flight (e e' : env) (w : write_request) :
  in_flight e e' -> pending e = [w] -> drain e' = drain e.
Proof.
  intros H Hq. destruct H as [|w' n Hin Hw]; [reflexivity|].
  rewrite Hq in Hin. destruct Hin as [<-|[]].
  unfold drain. cbn [pending with_files]. rewrite Hq.
  change (Nat.iter (length [w]) turn ?x) with (turn x).
  unfold turn. cbn [pending with_files]. rewrite Hq.
  unfold writable in *. cbn [readonly with_files]. rewrite Hw.
  cbn [files with_files]. now rewrite insert_insert_eq.
Qed.

(** What a request leaves in the file once the event loop has carried it
    out. *)
Lemma stored_settled (db : jsonFileDB) (e : env) (p : string)
    (rs : list record) :
  storagePath db = Some p ->
  pending e = [] ->
  writable p e = true ->
  forallb wf_record rs = true ->
  stored db
    (drain (with_pending (pending e ++ [store_request p (map JObj rs)]) e))
  = Some (map JObj rs).
Proof.
  intros Hp Hq Hw Hwf. rewrite Hq. cbn [app].
  rewrite (drain_one _ (store_request p (map JObj rs)));
    [|reflexivity|exact Hw|reflexivity].
  apply (stored_written _ _ p); [exact Hp| |now rewrite wf_records].
  cbn [files with_files with_pending wr_path wr_data store_request].
  apply lookup_insert_eq.
Qed.

(** [update], once the event loop has called back, whatever the thread
    pool did in between: the file holds every record, those the query
    matches with the patch merged in. *)
Lemma update_settles (query updateData : record) (db : jsonFileDB) (e : env)
    (p : string) (rs : list record) :
  storagePath db = Some p ->
  stored db e = Some (map JObj rs) ->
  pending e = [] ->
  writable p e = true ->
  forallb (fun kv => wf (snd kv)) updateData = true ->
  exists s1,
    update query updateData (db, e)
    = (Return (map JObj (map (updated query updateData) rs)), s1)
    /\ forall e', in_flight (snd s1) e' ->
         stored (fst s1) (drain e')
         = Some (map JObj (map (updated query updateData) rs)).
Proof.
  intros Hp Hl Hq Hw Hu. eexists.
  split; [exact (update_eq query updateData db e p rs Hp Hl)|].
  cbn [fst snd]. intros e' Hfl.
  rewrite (drain_in_flight _ _ (store_request p _) Hfl)
    by (cbn [pending with_pending]; now rewrite Hq).
  apply stored_settled; try assumption.
  apply wf_updated; [exact Hu|].
  rewrite <- wf_records. exact (stored_wf _ _ _ Hl).
Qed.

(** [delete], once the event loop has called back, whatever the thread
    pool did in between: the file holds the records the query does not
    match. *)
Lemma delete_settles (query : record) (db : jsonFileDB) (e : env)
    (p : string) (rs : list record) :
  storagePath db = Some p ->
  stored db e = Some (map JObj rs) ->
  pending e = [] ->
  writable p e = true ->
  exists s1,
    delete query (db, e)
    = (Return (map JObj (List.filter (record_matches query) rs)), s1)
    /\ forall e', in_flight (snd s1) e' ->
         stored (fst s1) (drain e')
         = Some (map JObj
                   (List.filter (fun o => negb (record_matches query o)) rs)).
Proof.
  intros Hp Hl Hq Hw. eexists.
  split; [exact (delete_eq query db e p rs Hp Hl)|].
  cbn [fst snd]. intros e' Hfl.
  rewrite (drain_in_flight _ _ (store_request p _) Hfl)
    by (cbn [pending with_pending]; now rewrite Hq).
  apply stored_settled; try assumption.
  apply wf_filter. rewrite <- wf_records. exact (stored_wf _ _ _ Hl).
Qed.

(** ** The matcher, key by key *)

Lemma field_matches (o : record) (key : string) (expected : value) :
  strict_equals_opt (read o key) (Some expected) = true <->
  match expected with
  | JNull | JBool _ | JNum _ | JStr _ | JInf _ =>
      obj_get key o = Some expected
  | JUndefined =>
      obj_get key o = Some JUndefined
      \/ (obj_get key o = None /\ inherited key = false)
  | JNaN | JArr _ | JObj _ => False
  end.
Proof.
  unfold read, strict_equals_opt. cbn [default].
  destruct (obj_get key o) as [v|].
  - rewrite strict_equals_spec.
    destruct expected; split;
      try (intros (Hs & Hn & ->); first [reflexivity|now left|easy]);
      try (intros [= ->]; repeat split; easy);
      try easy.
    intros [[= ->]|[H _]]; [repeat split; easy|discriminate H].
  - destruct (inherited key); destruct expected; cbn; split;
      try easy; try (intros [H|[_ H]]; discriminate H); intros _; now right.
Qed.

(** ** What [JSON.stringify] writes *)

Lemma value_nested_ind (P : value -> Prop) :
  P JNull -> (forall b, P (JBool b)) -> (forall n, P (JNum n)) ->
  (forall s, P (JStr s)) ->
  (forall l, Forall P l -> P (JArr l)) ->
  (forall o, Forall (fun kv => P (snd kv)) o -> P (JObj o)) ->
  P JUndefined -> P JNaN -> (forall b, P (JInf b)) ->
  forall v, P v.
Proof.
  intros H1 H2 H3 H4 H5 H6 H7 H8 H9. fix IH 1.
  intros [|b|n|s|l|o| | |b];
    [exact H1|apply H2|apply H3|apply H4| | |exact H7|exact H8|apply H9].
  - apply H5. induction l as [|x l IHl]; constructor; [apply IH|exact IHl].
  - apply H6.
    induction o as [|[k x] o IHo]; constructor; [apply IH|exact IHo].
Qed.

(** The text of a value is the text of what is kept of it. *)
Lemma print_as_stored (v : value) : print (as_stored v) = print v.
Proof.
  induction v as [|b|n|s|l IH|o IH| | |b] using value_nested_ind;
    try reflexivity.
  - cbn [as_stored print].
    assert (E : map print (map as_stored l) = map print l).
    { induction IH as [|x l Hx _ IHl]; [reflexivity|].
      cbn [map]. now rewrite Hx, IHl. }
    now rewrite E.
  - cbn [as_stored print].
    assert (E : print_members print (kept_fields as_stored o)
                = print_members print o).
    { induction IH as [|[k x] o Hx _ IHo]; [reflexivity|].
      cbn [snd] in Hx. cbn [kept_fields print_members].
      destruct x; cbn [print_members as_stored] in *; rewrite ?IHo;
        try reflexivity; try (rewrite Hx; reflexivity). }
    now rewrite E.
Qed.

Lemma as_stored_wf (v : value) : wf v = true -> as_stored v = v.
Proof.
  induction v as [|b|n|s|l IH|o IH| | |b] using value_nested_ind;
    try reflexivity; try discriminate.
  - cbn [wf as_stored]. intros Hwf. f_equal.
    induction IH as [|x l Hx _ IHl]; [reflexivity|].
    cbn [forallb map] in *. apply andb_true_iff in Hwf as [H1 H2].
    now rewrite Hx, IHl.
  - cbn [wf as_stored]. intros Hwf. apply andb_true_iff in Hwf as [_ Hwf].
    f_equal. induction IH as [|[k x] o Hx _ IHo]; [reflexivity|].
    cbn [forallb snd kept_fields] in *.
    apply andb_true_iff in Hwf as [H1 H2].
    rewrite (IHo H2), (Hx H1). now destruct x.
Qed.

(** [JSON.parse(JSON.stringify(v))] is what is kept of [v]. *)
Lemma JSON_parse_stringify_kept (v : value) :
  wf (as_stored v) = true ->
  JSON_parse (JSON_stringify v) = Some (as_stored v).
Proof.
  intros Hwf. unfold JSON_stringify. rewrite <- print_as_stored.
  exact (JSON_parse_stringify _ Hwf).
Qed.

End DbFacts.

(* ===================================================================== *)
(** * The claims of the specification *)
(* ===================================================================== *)

Module Claims.
Import Json Node Db Spec JsonFacts DbFacts Samples.

(** C9, as stated, fails: a record that holds a number that is not finite
    does not come back.  [JSON.stringify] writes [NaN] as [null], and so
    the record that [insert] has stored is read with [null] in its place. *)
Lemma encoding_loses_NaN :
  let r := [("id", JStr "x"); ("score", JNaN)] in
  let read_back := JArr [JObj [("id", JStr "x"); ("score", JNull)]] in
  JSON_parse (JSON_stringify (JArr [JObj r])) = Some read_back
  /\ read_back <> JArr [JObj r]
  /\ fst (insert r (users, world "[]")) = Return r
  /\ fst (get EmptyString (snd (insert r (users, world "[]"))))
     = Return read_back.
Proof.
  cbv zeta. split; [reflexivity|]. split; [discriminate|].
  split; reflexivity.
Qed.

(** C9 (amended). For every sequence of records R that holds values of
    JSON only (strings, integers a double holds exactly, booleans, null,
    arrays and objects: that is [wf_record]), decoding the encoding of R
    gives R back, the records in their order: with [JSON.stringify] as
    [insert] calls it (line 100) and [JSON.parse] as [get] calls it (line
    137), [JSON_parse (JSON_stringify R) = Some R].  For any R it gives
    back what the encoding keeps of R, [as_stored R]: [null] for [NaN],
    for [Infinity] and for an [undefined] in an array, and no property
    where one holds [undefined]. *)
Theorem codec_round_trip (R : list record) :
  (forallb wf_record R = true ->
   JSON_parse (JSON_stringify (JArr (map JObj R))) = Some (JArr (map JObj R)))
  /\ (wf (as_stored (JArr (map JObj R))) = true ->
      JSON_parse (JSON_stringify (JArr (map JObj R)))
      = Some (as_stored (JArr (map JObj R))))
  /\ (forallb wf_record R = true ->
      as_stored (JArr (map JObj R)) = JArr (map JObj R)).
Proof.
  split; [|split].
  - intros H. apply JSON_parse_stringify. now rewrite wf_records.
  - apply JSON_parse_stringify_kept.
  - intros H. apply as_stored_wf. now rewrite wf_records.
Qed.

Lemma codec_round_trip_witness :
  JSON_parse (JSON_stringify
                (JArr (map JObj [john; [("id", JStr "x"); ("t", JNull)]])))
  = Some (JArr (map JObj [john; [("id", JStr "x"); ("t", JNull)]])).
Proof.
  apply (proj1 (codec_round_trip [john; [("id", JStr "x"); ("t", JNull)]])).
  reflexivity.
Defined.




(** C10 (a read that rebinds). Calling [get] with a non-empty storage
    name [s] leaves the handle bound to [s], whatever the call returns:
    [storage] and [storagePath] are overwritten, the file
    [<dbPath>/<s>.json] is created with the text of the empty array when it
    was absent (and the call then returns the empty array), an existing file
    is left as it is, and what is called next on the handle works on that
    file: [get] reads it, [insert] writes it, [update] and [delete] queue
    their write to it. *)
Theorem get_rebinds (db : jsonFileDB) (e : env) (s : string) :
  s <> EmptyString ->
  exists (o : outcome value) (e' : env),
    let p := storage_file (dbPath db) s in
    let db' := bind_storage s p db in
    get s (db, e) = (o, (db', e'))
    /\ bound s db'
    /\ (files e !! p = None -> writable p e = true ->
        files e' = <[p := "[]"]> (files e) /\ o = Return (JArr []))
    /\ (forall text, files e !! p = Some text -> e' = e)
    /\ (forall e2 text, files e2 !! p = Some text ->
          get EmptyString (db', e2)
          = (match JSON_parse text with
             | Some v => Return v
             | None => Throw (ErrorOf SyntaxError)
             end, (db', e2)))
    /\ (forall r l e2, stored db' e2 = Some l -> writable p e2 = true ->
          exists db3 e3,
            insert r (db', e2) = (Return (with_id r e2), (db3, e3))
            /\ files e3
               = <[p := JSON_stringify (JArr (l ++ [JObj (with_id r e2)]))]>
                   (files e2))
    /\ (forall query updateData rs e2,
          stored db' e2 = Some (map JObj rs) ->
          pending (snd (snd (update query updateData (db', e2))))
          = pending e2
              ++ [store_request p
                    (map JObj (map (updated query updateData) rs))]
          /\ pending (snd (snd (delete query (db', e2))))
             = pending e2
                 ++ [store_request p
                       (map JObj
                          (List.filter
                             (fun o => negb (record_matches query o)) rs))]).
Proof.
  intros Hne. set (p := storage_file (dbPath db) s).
  set (db' := bind_storage s p db).
  assert (Hb : bound s db') by (repeat split; assumption).
  assert (Hget : forall e2 text, files e2 !! p = Some text ->
            get EmptyString (db', e2)
            = (match JSON_parse text with
               | Some v => Return v
               | None => Throw (ErrorOf SyntaxError)
               end, (db', e2))).
  { intros e2 text Hf. rewrite get_eq. unfold load, readFileSync.
    unfold db' at 1. cbn [storagePath bind_storage]. now rewrite Hf. }
  assert (Hins : forall r l e2,
            stored db' e2 = Some l -> writable p e2 = true ->
            exists db3 e3,
              insert r (db', e2) = (Return (with_id r e2), (db3, e3))
              /\ files e3
                 = <[p := JSON_stringify (JArr (l ++ [JObj (with_id r e2)]))]>
                     (files e2)).
  { intros r l e2 Hl Hw. eexists _, _. split.
    - apply (insert_eq r db' e2 p l);
        [now apply (bound_selected s)|reflexivity|exact Hl|exact Hw].
    - reflexivity. }
  assert (Hupd : forall query updateData rs e2,
            stored db' e2 = Some (map JObj rs) ->
            pending (snd (snd (update query updateData (db', e2))))
            = pending e2
                ++ [store_request p
                      (map JObj (map (updated query updateData) rs))]
            /\ pending (snd (snd (delete query (db', e2))))
               = pending e2
                   ++ [store_request p
                         (map JObj
                            (List.filter
                               (fun o => negb (record_matches query o)) rs))]).
  { intros query updateData rs e2 Hl. split.
    - now rewrite (update_eq query updateData db' e2 p rs eq_refl Hl).
    - now rewrite (delete_eq query db' e2 p rs eq_refl Hl). }
  rewrite (get_named s (db, e) Hne), setStorage_eq. fold p. fold db'.
  unfold existsSync.
  destruct (files e !! p) as [text|] eqn:Hf.
  - eexists _, e. cbv zeta. split; [apply Hget; exact Hf|].
    split; [exact Hb|]. split; [discriminate|]. split; [reflexivity|].
    split; [exact Hget|split; [exact Hins|exact Hupd]].
  - destruct (writable p e) eqn:Hw.
    + eexists _, _. cbv zeta. split.
      { apply (Hget _ "[]"). cbn [files with_files]. apply lookup_insert_eq. }
      split; [exact Hb|]. split; [intros _ _; split; reflexivity|].
      split; [discriminate|].
      split; [exact Hget|split; [exact Hins|exact Hupd]].
    + eexists _, e. cbv zeta. split; [reflexivity|].
      split; [exact Hb|]. split; [discriminate|]. split; [discriminate|].
      split; [exact Hget|split; [exact Hins|exact Hupd]].
Qed.

Lemma get_rebinds_witness :
  exists (o : outcome value) (e' : env),
    get "posts" (users, world "[]")
    = (o, (bind_storage "posts" "db/posts.json" users, e'))
    /\ files e' = <["db/posts.json" := "[]"]> (files (world "[]"))
    /\ o = Return (JArr []).
Proof.
  destruct (get_rebinds users (world "[]") "posts" ltac:(discriminate))
    as (o & e' & Hget & _ & Hnew & _).
  exists o, e'. split; [exact Hget|]. apply Hnew; reflexivity.
Defined.

(** C1, as stated, fails: an id the caller supplies is not always used
    verbatim.  The empty string is replaced by a generated id. *)
Lemma insert_replaces_an_empty_id :
  obj_get "id" [("id", JStr EmptyString); ("name", JStr "a")]
  = Some (JStr EmptyString)
  /\ fst (insert [("id", JStr EmptyString); ("name", JStr "a")]
             (users, world "[]"))
     = Return [("id", JStr "4fzyo82mvyr4fzyo82mvyr"); ("name", JStr "a")]
  /\ JStr "4fzyo82mvyr4fzyo82mvyr" <> JStr EmptyString.
Proof. split; [reflexivity|split; [reflexivity|discriminate]]. Qed.

(** C1 (amended). For every record [r] passed to [insert] on a bound
    handle whose file holds an array [l] and can be written: the record is
    returned and appended to the file with the id [assigned_id r], which
    also becomes [lastInsertId].  A truthy id the caller supplies (a
    non-empty string, a non-zero number, [true], an array or an object) is
    that id, verbatim, and the record is stored as it was passed.  Without
    an [id], or with a falsy one ([null], [false], [0], the empty string),
    the id is the generated string, which is non-empty as soon as one of
    the two draws is not zero.  The records already in [l] are not looked
    at: they are kept, whatever their ids. *)
Theorem insert_assigns_id (r : record) (name : string) (db : jsonFileDB)
    (e : env) (l : list value) :
  bound name db ->
  stored db e = Some l ->
  writable (storage_file (dbPath db) name) e = true ->
  exists e',
    insert r (db, e)
    = (Return (with_id r e), (set_lastInsertId (assigned_id r e) db, e'))
    /\ obj_get "id" (with_id r e) = Some (assigned_id r e)
    /\ files e' !! storage_file (dbPath db) name
       = Some (JSON_stringify (JArr (l ++ [JObj (with_id r e)])))
    /\ (wf_record r = true ->
        stored (set_lastInsertId (assigned_id r e) db) e'
        = Some (l ++ [JObj (with_id r e)]))
    /\ (forall v, obj_get "id" r = Some v -> truthy v = true ->
                  assigned_id r e = v /\ with_id r e = r)
    /\ (truthy_opt (obj_get "id" r) = false ->
        assigned_id r e = JStr (generated e)
        /\ (2 < String.length (random e (drawn e))
            \/ 2 < String.length (random e (S (drawn e))) ->
            generated e <> EmptyString)).
Proof.
  intros Hb Hl Hw. pose proof Hb as (Hne & Hs & Hp).
  eexists. split.
  { apply (insert_eq r db e (storage_file (dbPath db) name) l);
      [now apply (bound_selected name)|exact Hp|exact Hl|exact Hw]. }
  split; [apply obj_get_set_same|].
  assert (Hfile : files (with_files
            (<[storage_file (dbPath db) name :=
                 JSON_stringify (JArr (l ++ [JObj (with_id r e)]))]> (files e))
            (after_id r e)) !! storage_file (dbPath db) name
          = Some (JSON_stringify (JArr (l ++ [JObj (with_id r e)])))).
  { cbn [files with_files]. apply lookup_insert_eq. }
  split; [exact Hfile|]. split; [|split].
  - intros Hr. apply (stored_written _ _ (storage_file (dbPath db) name));
      [exact Hp|exact Hfile|].
    pose proof (stored_wf _ _ _ Hl) as Hwl. cbn [wf] in Hwl |- *.
    rewrite forallb_app, Hwl. cbn [forallb]. rewrite andb_true_r.
    apply wf_obj_set; [exact Hr|].
    unfold assigned_id. destruct (truthy_opt (obj_get "id" r)); [|reflexivity].
    destruct (obj_get "id" r) as [v|] eqn:Ev; [|reflexivity].
    cbn [default]. unfold wf_record in Hr. cbn [wf] in Hr.
    apply andb_true_iff in Hr as [_ Hr]. exact (obj_get_wf _ _ _ Hr Ev).
  - intros v Hv Ht. unfold with_id, assigned_id, truthy_opt.
    rewrite Hv, Ht. cbn [default]. split; [reflexivity|].
    now apply obj_set_same.
  - intros Hf. unfold assigned_id. rewrite Hf.
    split; [reflexivity|apply generated_nonempty].
Qed.

Lemma insert_assigns_id_witness :
  exists e',
    insert [("name", JStr "a")] (users, world john_text)
    = (Return [("name", JStr "a"); ("id", JStr "4fzyo82mvyr4fzyo82mvyr")],
       (set_lastInsertId (JStr "4fzyo82mvyr4fzyo82mvyr") users, e')).
Proof.
  destruct (insert_assigns_id [("name", JStr "a")] "users" users
              (world john_text) [JObj john])
    as (e' & H & _).
  - repeat split. discriminate.
  - reflexivity.
  - reflexivity.
  - exists e'. exact H.
Defined.

(** C4, as stated, fails: a query that expects [undefined] under a key
    matches the records that do not have the key. *)
Lemma matcher_accepts_a_missing_key :
  obj_get "nick" john = None
  /\ deep_matches [("nick", JUndefined)] john = false
  /\ matches [("nick", JUndefined)] (JObj john) = Return true
  /\ fst (find [("nick", JUndefined)] (users, world john_text))
     = Return [JObj john].
Proof. repeat split; reflexivity. Qed.

(** C4 (amended). For every record and query, the matcher returns true
    iff, for every key of the query, the value of the record under that key
    is strictly equal ([===]) to the expected one.  When a string, a
    number, a boolean or null is expected, the record has the key, with
    that value; on a query that expects these only, this is the matcher of
    the specification.  When [undefined] is expected, the record has no
    such property, of its own or of [Object.prototype] (or one that holds
    [undefined]).  [NaN], an array or an object is strictly equal to
    nothing a record holds.  The empty query matches every record, and
    [find] returns exactly the matching records, in their order. *)
Theorem matcher_spec (query o : record) :
  matches query (JObj o) = Return (record_matches query o)
  /\ (record_matches query o = true <->
      forall key expected, obj_get key query = Some expected ->
        match expected with
        | JNull | JBool _ | JNum _ | JStr _ | JInf _ =>
            obj_get key o = Some expected
        | JUndefined =>
            obj_get key o = Some JUndefined
            \/ (obj_get key o = None /\ inherited key = false)
        | JNaN | JArr _ | JObj _ => False
        end)
  /\ (forallb (fun kv => json_scalar (snd kv)) query = true ->
      record_matches query o = deep_matches query o)
  /\ record_matches [] o = true
  /\ (forall db e rs, stored db e = Some (map JObj rs) ->
        fst (find query (db, e))
        = Return (map JObj (List.filter (record_matches query) rs))).
Proof.
  split; [apply matches_record|]. split; [|split; [|split]].
  - unfold record_matches. rewrite forallb_forall. split.
    + intros H key expected He. apply field_matches. rewrite <- He.
      apply H. apply (in_map fst _ _ (obj_get_in _ _ _ He)).
    + intros H key Hin. destruct (obj_get_key key query Hin) as (expected & He).
      rewrite He. apply field_matches. now apply H.
  - intros Hq. unfold record_matches, deep_matches. apply forallb_agree.
    intros key Hin. destruct (obj_get_key key query Hin) as (expected & He).
    rewrite He.
    assert (Hs : json_scalar expected = true).
    { rewrite forallb_forall in Hq.
      exact (Hq (key, expected) (obj_get_in _ _ _ He)). }
    unfold read, strict_equals_opt. cbn [default].
    destruct (obj_get key o) as [v|].
    + rewrite deep_equal_scalar; [reflexivity|now destruct expected|].
      now destruct expected.
    + destruct (inherited key); [reflexivity|]. now destruct expected.
  - reflexivity.
  - intros db e rs H. now rewrite (find_eq query db e rs H).
Qed.

Lemma matcher_spec_witness :
  fst (find [("age", JNum 28)] (users, world john_text))
  = Return (map JObj (List.filter (record_matches [("age", JNum 28)]) [john])).
Proof.
  destruct (matcher_spec [("age", JNum 28)] john) as (_ & _ & _ & _ & H).
  apply (H users (world john_text) [john]). reflexivity.
Defined.

(** C5, as stated, fails: of two [insert] calls made together, with
    different ids, one record reaches the file. *)
Lemma concurrent_inserts_lose_a_record :
  let run := insert_concurrently [[("id", JStr "a")]; [("id", JStr "b")]]
               (users, world "[]") in
  fst run = [Return [("id", JStr "a")]; Return [("id", JStr "b")]]
  /\ stored (fst (snd run)) (snd (snd run)) = Some [JObj [("id", JStr "b")]]
  /\ length [JObj [("id", JStr "b")]] <> 2.
Proof. cbv zeta. split; [reflexivity|split; [reflexivity|discriminate]]. Qed.

(** C5 (amended). There is no lock on a collection.  For every N, N
    [insert] calls against the same collection, each with an id of its own
    and each awaited before the next is made, leave the N records in the
    file after those it held; made together, the calls all load the array as
    it was and each writes it back with its own record only, so that the
    file ends with the record of the call resumed last. *)
Theorem inserts_one_at_a_time (rs : list record) (name : string)
    (db : jsonFileDB) (e : env) (l : list value) :
  bound name db ->
  stored db e = Some l ->
  writable (storage_file (dbPath db) name) e = true ->
  Forall supplied rs ->
  (exists s',
      insert_each rs (db, e) = (map Return rs, s')
      /\ stored (fst s') (snd s') = Some (l ++ map JObj rs)
      /\ length (l ++ map JObj rs) = length l + length rs)
  /\ (rs <> [] ->
      exists s',
        insert_concurrently rs (db, e) = (map Return rs, s')
        /\ stored (fst s') (snd s') = Some (l ++ [JObj (List.last rs [])])
        /\ length (l ++ [JObj (List.last rs [])]) = length l + 1).
Proof.
  intros Hb Hl Hw Hrs. split.
  - destruct (insert_each_supplied name rs db e l Hb Hl Hw Hrs)
      as (s' & Hrun & Hst).
    exists s'. split; [exact Hrun|]. split; [exact Hst|].
    now rewrite length_app, length_map.
  - intros Hne. pose proof Hb as (_ & _ & Hp).
    destruct (begin_all_supplied name rs db e l Hb Hl Hrs)
      as (db' & Hbegin & Hp').
    rewrite Hp in Hp'.
    destruct (resume_all _ l db' rs Hp' e Hw) as (e' & Hres & Hf).
    exists (db', e'). unfold insert_concurrently. rewrite Hbegin, Hres.
    split; [reflexivity|]. split; [|now rewrite length_app].
    destruct rs as [|r rs]; [congruence|].
    apply (stored_written _ _ _ _ Hp' Hf).
    apply wf_append; [exact (stored_wf _ _ _ Hl)|].
    assert (Hin : In (List.last (r :: rs) []) (r :: rs)).
    { destruct (List.exists_last Hne) as (rs' & x & ->).
      rewrite List.last_last. apply in_or_app. right. now left. }
    rewrite List.Forall_forall in Hrs. exact (proj2 (Hrs _ Hin)).
Qed.

Lemma inserts_one_at_a_time_witness :
  exists s',
    insert_each [[("id", JStr "a")]; [("id", JStr "b")]] (users, world "[]")
    = ([Return [("id", JStr "a")]; Return [("id", JStr "b")]], s')
    /\ stored (fst s') (snd s')
       = Some [JObj [("id", JStr "a")]; JObj [("id", JStr "b")]].
Proof.
  destruct (inserts_one_at_a_time [[("id", JStr "a")]; [("id", JStr "b")]]
              "users" users (world "[]") [])
    as [(s' & Hrun & Hst & _) _].
  - repeat split. discriminate.
  - reflexivity.
  - reflexivity.
  - repeat constructor.
  - exists s'. split; [exact Hrun|exact Hst].
Defined.

(** C2 (the code at the example of the specification). [update] returns
    the post-update set, patch merged into the matching record, but the
    set is not stored when it returns: the write has only been handed to
    [fs.writeFile], and its callback has not been called.  What a [find]
    made next reads is up to the thread pool.  The file may be as it was,
    and the [find] does not see the patch; it may have been opened and be
    empty, and the [find] throws.  Only once the event loop has called
    back does every [find] see the patched record. *)
Theorem update_is_not_stored_on_return :
  let john29 := [("id", JNum 1); ("name", JStr "John"); ("age", JNum 29)] in
  let run := update [("name", JStr "John")] [("age", JNum 29)]
               (users, world john_text) in
  let db1 := fst (snd run) in
  let e1 := snd (snd run) in
  fst run = Return [JObj john29]
  /\ pending e1 = [store_request "db/users.json" [JObj john29]]
  /\ uncaught e1 = []
  /\ (exists e', in_flight e1 e'
        /\ fst (find [("age", JNum 29)] (db1, e')) = Return [])
  /\ (exists e', in_flight e1 e'
        /\ files e' !! "db/users.json" = Some EmptyString
        /\ fst (find [("age", JNum 29)] (db1, e'))
           = Throw (ErrorOf SyntaxError))
  /\ (forall e', in_flight e1 e' ->
        fst (find [("age", JNum 29)] (snd (idle (db1, e'))))
        = Return [JObj john29]).
Proof.
  cbv zeta. split; [reflexivity|]. split; [reflexivity|].
  split; [reflexivity|]. split; [|split].
  - eexists. split; [apply not_started|reflexivity].
  - eexists. split; [|split].
    + apply (written _ (store_request "db/users.json"
                          [JObj [("id", JNum 1); ("name", JStr "John");
                                 ("age", JNum 29)]]) 0);
        [now left|reflexivity].
    + reflexivity.
    + reflexivity.
  - intros e' H. unfold idle. cbn [fst snd].
    now rewrite (drain_in_flight _ _ _ H eq_refl).
Qed.

Lemma update_is_not_stored_on_return_witness :
  fst (find [("age", JNum 29)]
         (snd (idle (snd (update [("name", JStr "John")] [("age", JNum 29)]
                            (users, world john_text))))))
  = Return [JObj [("id", JNum 1); ("name", JStr "John"); ("age", JNum 29)]].
Proof.
  pose proof update_is_not_stored_on_return as H. cbv zeta in H.
  destruct H as (_ & _ & _ & _ & _ & H).
  exact (H _ (not_started _)).
Defined.

(** C3 (the code at the example of the specification). [delete] returns
    the removed records, but the kept set is not stored when it returns:
    the write has only been handed to [fs.writeFile].  The [all()] made
    next may still contain the removed record, or throw on a file that has
    been opened and is empty; it returns the kept set once the event loop
    has called back. *)
Theorem delete_is_not_stored_on_return :
  let run := delete [("age", JNum 28)] (users, world john_text) in
  let db1 := fst (snd run) in
  let e1 := snd (snd run) in
  fst run = Return [JObj john]
  /\ pending e1 = [store_request "db/users.json" []]
  /\ uncaught e1 = []
  /\ (exists e', in_flight e1 e'
        /\ fst (get EmptyString (db1, e')) = Return (JArr [JObj john]))
  /\ (exists e', in_flight e1 e'
        /\ files e' !! "db/users.json" = Some EmptyString
        /\ fst (get EmptyString (db1, e')) = Throw (ErrorOf SyntaxError))
  /\ (forall e', in_flight e1 e' ->
        fst (get EmptyString (snd (idle (db1, e')))) = Return (JArr [])).
Proof.
  cbv zeta. split; [reflexivity|]. split; [reflexivity|].
  split; [reflexivity|]. split; [|split].
  - eexists. split; [apply not_started|reflexivity].
  - eexists. split; [|split].
    + apply (written _ (store_request "db/users.json" []) 0);
        [now left|reflexivity].
    + reflexivity.
    + reflexivity.
  - intros e' H. unfold idle. cbn [fst snd].
    now rewrite (drain_in_flight _ _ _ H eq_refl).
Qed.

Lemma delete_is_not_stored_on_return_witness :
  fst (get EmptyString
         (snd (idle (snd (delete [("age", JNum 28)]
                            (users, world john_text))))))
  = Return (JArr []).
Proof.
  pose proof delete_is_not_stored_on_return as H. cbv zeta in H.
  destruct H as (_ & _ & _ & _ & _ & H).
  exact (H _ (not_started _)).
Defined.

(** C7 (the code on a file that cannot be written). [update] and [delete]
    return their result although the write fails: the write is queued, the
    error reaches the callback on a later turn of the event loop, and what
    the callback throws has no caller.  The file is left as it was. *)
Theorem write_failure_is_not_surfaced :
  let john29 := [("id", JNum 1); ("name", JStr "John"); ("age", JNum 29)] in
  let u := update [("name", JStr "John")] [("age", JNum 29)]
             (users, protected john_text) in
  let d := delete [("age", JNum 28)] (users, protected john_text) in
  fst u = Return [JObj john29]
  /\ length (pending (snd (snd u))) = 1
  /\ uncaught (snd (snd u)) = []
  /\ uncaught (drain (snd (snd u))) = [ErrorOf (SystemError "EACCES")]
  /\ files (drain (snd (snd u))) = files (protected john_text)
  /\ fst d = Return [JObj john]
  /\ length (pending (snd (snd d))) = 1
  /\ uncaught (drain (snd (snd d))) = [ErrorOf (SystemError "EACCES")]
  /\ files (drain (snd (snd d))) = files (protected john_text).
Proof. repeat split; reflexivity. Qed.

(** C6 (the code on a failing insert). When the load fails (the file does
    not hold JSON) or the store fails (the file cannot be written), nothing
    is appended, but [lastInsertId] has already been set to the id of the
    record that was not inserted, and [insertId()] returns it. *)
Theorem failed_insert_sets_lastInsertId :
  lastInsertId users = None
  /\ insert [("id", JStr "x")] (users, world "oops")
     = (Throw (ErrorOf (ErrorOf SyntaxError)),
        (set_lastInsertId (JStr "x") users, world "oops"))
  /\ insert [("id", JStr "x")] (users, protected "[]")
     = (Throw (ErrorOf (SystemError "EACCES")),
        (set_lastInsertId (JStr "x") users, protected "[]"))
  /\ fst (insertId (users, world "oops"))
     = Throw (Error "No insert executed. Call insert() before insertId()")
  /\ fst (insertId (snd (insert [("id", JStr "x")] (users, world "oops"))))
     = Return (JStr "x").
Proof. repeat split; reflexivity. Qed.

End Claims.

(* ===================================================================== *)
(** * Further facts about the methods *)
(* ===================================================================== *)

Module MoreFacts.
Import Json Node Db Spec JsonFacts DbFacts.

(** ** Properties of an object *)

Lemma obj_get_set_other (k k' : string) (v : value) (o : record) :
  k <> k' -> obj_get k (obj_set k' v o) = obj_get k o.
Proof.
  intros Hne. apply String.eqb_neq in Hne. unfold obj_set.
  destruct (obj_get k' o) as [v'|].
  - induction o as [|[k0 v0] o IH]; [reflexivity|]. cbn [obj_replace obj_get].
    destruct (String.eqb k' k0) eqn:E; cbn [obj_get]; [|now rewrite IH].
    apply String.eqb_eq in E as ->. now rewrite Hne.
  - induction o as [|[k0 v0] o IH]; cbn [obj_insert obj_get].
    + now rewrite Hne.
    + destruct (before k' k0); cbn [obj_get]; [now rewrite Hne|].
      now rewrite IH.
Qed.

Lemma obj_get_assign (k k' : string) (v : value) (o : record) :
  obj_get k (obj_assign k' v o)
  = if String.eqb k k' && settable k o then Some v else obj_get k o.
Proof.
  unfold obj_assign. destruct (String.eqb k k') eqn:E.
  - apply String.eqb_eq in E as ->. cbn [andb].
    destruct (settable k' o); [apply obj_get_set_same|reflexivity].
  - apply String.eqb_neq in E. cbn [andb].
    destruct (settable k' o); [now apply obj_get_set_other|reflexivity].
Qed.

Lemma settable_assign (k k' : string) (v : value) (o : record) :
  settable k (obj_assign k' v o) = settable k o.
Proof.
  unfold settable at 1. rewrite obj_get_assign.
  destruct (String.eqb k k' && settable k o) eqn:E; [|reflexivity].
  apply andb_true_iff in E as [_ ->]. apply orb_true_r.
Qed.

(** The loop of [update] over the keys [ks] of the patch. *)
Lemma obj_get_merged (updateData : record) (k : string) (ks : list string) :
  forall o : record,
    obj_get k (fold_left
                 (fun o key =>
                    obj_assign key (default JUndefined (obj_get key updateData)) o)
                 ks o)
    = if existsb (String.eqb k) ks && settable k o
      then Some (default JUndefined (obj_get k updateData))
      else obj_get k o.
Proof.
  induction ks as [|k1 ks IH]; intros o; [reflexivity|].
  cbn [fold_left existsb]. rewrite IH, settable_assign, obj_get_assign.
  destruct (settable k o); [|now rewrite !andb_false_r].
  rewrite !andb_true_r.
  destruct (existsb (String.eqb k) ks); [now rewrite orb_true_r|].
  rewrite orb_false_r. destruct (String.eqb k k1) eqn:E; [|reflexivity].
  now apply String.eqb_eq in E as ->.
Qed.

Lemma existsb_key (k : string) (o : record) :
  existsb (String.eqb k) (keys o) = true <-> In k (keys o).
Proof.
  rewrite existsb_exists. split.
  - intros (x & Hin & Hx). now apply String.eqb_eq in Hx as ->.
  - intros Hin. exists k. split; [exact Hin|apply String.eqb_refl].
Qed.

Lemma obj_get_patched (updateData o : record) (k : string) :
  obj_get k (patched updateData o)
  = if existsb (String.eqb k) (keys updateData) && settable k o
    then obj_get k updateData else obj_get k o.
Proof.
  unfold patched. rewrite obj_get_merged.
  destruct (existsb (String.eqb k) (keys updateData)) eqn:E; [|reflexivity].
  apply existsb_key in E. destruct (obj_get_key _ _ E) as (v & ->).
  reflexivity.
Qed.

(** Merging a patch that is already merged changes nothing. *)
Lemma merged_fixed (updateData : record) (ks : list string) (o : record) :
  (forall k, In k ks ->
             obj_assign k (default JUndefined (obj_get k updateData)) o = o) ->
  fold_left
    (fun o key => obj_assign key (default JUndefined (obj_get key updateData)) o)
    ks o = o.
Proof.
  induction ks as [|k1 ks IH]; intros H; [reflexivity|].
  cbn [fold_left]. rewrite H by now left.
  apply IH. intros k Hk. apply H. now right.
Qed.

Lemma patched_patched (updateData o : record) :
  patched updateData (patched updateData o) = patched updateData o.
Proof.
  unfold patched at 1. apply merged_fixed. intros k Hk.
  pose proof (obj_get_patched updateData o k) as Hget.
  assert (E : existsb (String.eqb k) (keys updateData) = true)
    by now apply existsb_key.
  rewrite E in Hget. destruct (obj_get_key _ _ Hk) as (v & Hv).
  rewrite Hv in Hget |- *. cbn [default andb] in Hget |- *.
  unfold obj_assign.
  destruct (settable k (patched updateData o)) eqn:Es; [|reflexivity].
  apply obj_set_same. rewrite Hget.
  destruct (settable k o) eqn:Eo; [reflexivity|].
  unfold settable in Es, Eo. rewrite Hget in Es.
  apply orb_false_iff in Eo as [E1 E2]. now rewrite E1, E2 in Es.
Qed.

Lemma updated_updated (query updateData o : record) :
  updated query updateData (updated query updateData o)
  = updated query updateData o.
Proof.
  unfold updated at 2 3. destruct (record_matches query o) eqn:E.
  - unfold updated.
    destruct (record_matches query (patched updateData o));
      [apply patched_patched|reflexivity].
  - unfold updated. now rewrite E.
Qed.

(** ** The matcher *)

Lemma strict_equals_refl (v : value) :
  scalar v = true -> v <> JNaN -> strict_equals v v = true.
Proof. intros H Hn. now apply strict_equals_spec. Qed.

Lemma strict_equals_composite (a b : value) :
  scalar b = false -> strict_equals a b = false.
Proof. destruct a, b; intros H; try discriminate H; reflexivity. Qed.

(** A query that expects an array or an object matches no record. *)
Lemma record_matches_composite (query o : record) (key : string) (v : value) :
  obj_get key query = Some v -> scalar v = false ->
  record_matches query o = false.
Proof.
  intros Hq Hv. unfold record_matches.
  destruct (forallb _ (keys query)) eqn:E; [|reflexivity].
  rewrite forallb_forall in E.
  assert (Hin : In key (keys query)).
  { apply obj_get_in in Hq. unfold keys. now apply (in_map fst) in Hq. }
  specialize (E key Hin). rewrite Hq in E.
  apply field_matches in E. now destruct v.
Qed.

(** A record matches the patch that has just been merged into it, when the
    patch holds scalars and has no key [__proto__]. *)
Lemma record_matches_patched (updateData o : record) :
  forallb (fun kv => scalar (snd kv)) updateData = true ->
  forallb (fun kv => wf (snd kv)) updateData = true ->
  ~ In "__proto__" (keys updateData) ->
  record_matches updateData (patched updateData o) = true.
Proof.
  intros Hu Hw Hproto. unfold record_matches. apply forallb_forall.
  intros k Hk. unfold read. rewrite obj_get_patched.
  assert (E : existsb (String.eqb k) (keys updateData) = true)
    by now apply existsb_key.
  assert (Es : settable k o = true).
  { unfold settable. destruct (String.eqb k "__proto__") eqn:Ek;
      [|reflexivity].
    apply String.eqb_eq in Ek as ->. now destruct Hproto. }
  rewrite E, Es. destruct (obj_get_key _ _ Hk) as (v & Hv). rewrite Hv.
  cbn [strict_equals_opt default andb]. apply strict_equals_refl.
  - rewrite forallb_forall in Hu. exact (Hu (k, v) (obj_get_in _ _ _ Hv)).
  - rewrite forallb_forall in Hw.
    pose proof (Hw (k, v) (obj_get_in _ _ _ Hv)) as Hwf. cbn [snd] in Hwf.
    destruct v; try discriminate Hwf; discriminate.
Qed.




Lemma matches_empty (item : value) : matches [] item = Return true.
Proof. reflexivity. Qed.

(** ** The loops over a collection *)

Lemma filter_items_empty_query (l : list value) :
  filter_items (matches []) l = Return l.
Proof.
  induction l as [|x l IH]; [reflexivity|].
  cbn [filter_items]. rewrite matches_empty, IH. reflexivity.
Qed.

(** [delete] collects what [find] selects, and fails where it fails. *)
Lemma delete_scan_filter (query : record) (l : list value) :
  match delete_scan query l with
  | Return (_, deletedData) =>
      filter_items (matches query) l = Return deletedData
  | Throw x => filter_items (matches query) l = Throw x
  end.
Proof.
  induction l as [|item l IH]; [reflexivity|]. cbn [delete_scan filter_items].
  destruct (matches query item) as [b|x]; [|reflexivity].
  destruct (delete_scan query l) as [[kept deleted]|x]; rewrite IH;
    [now destruct b|reflexivity].
Qed.





(** ** Loading *)

Lemma load_path (db : jsonFileDB) (e : env) (v : value) :
  load db e = Return v -> exists p, storagePath db = Some p.
Proof.
  unfold load, readFileSync. destruct (storagePath db) as [p|]; [eauto|].
  discriminate.
Qed.

Lemma load_same_path (db1 db2 : jsonFileDB) (e : env) :
  storagePath db1 = storagePath db2 -> load db1 e = load db2 e.
Proof. unfold load. now intros ->. Qed.

Lemma stored_load (db : jsonFileDB) (e : env) (l : list value) :
  load db e = Return (JArr l) -> stored db e = Some l.
Proof.
  unfold stored, load, readFileSync.
  destruct (storagePath db) as [p|]; [|discriminate].
  destruct (files e !! p) as [text|]; [|discriminate].
  destruct (JSON_parse text) as [v|]; [|discriminate].
  now intros [= ->].
Qed.

Lemma load_wf (db : jsonFileDB) (e : env) (v : value) :
  load db e = Return v -> wf v = true.
Proof.
  unfold load. destruct (readFileSync _ e) as [text|]; [|discriminate].
  destruct (JSON_parse text) as [v'|] eqn:E; [|discriminate].
  intros [= <-]. exact (JSON_parse_wf _ _ E).
Qed.

Lemma find_of_load (query : record) (db : jsonFileDB) (e : env) :
  find query (db, e)
  = (match load db e with
     | Return data =>
         match elements data with
         | Return l => filter_items (matches query) l
         | Throw x => Throw x
         end
     | Throw x => Throw x
     end, (db, e)).
Proof.
  unfold find, bind, lift. rewrite get_eq.
  destruct (load db e) as [data|x]; [|reflexivity].
  now destruct (elements data).
Qed.

Lemma settle_eq (p : string) (l : list value) (e : env) :
  pending e = [] -> writable p e = true ->
  drain (with_pending (pending e ++ [store_request p l]) e)
  = with_pending []
      (with_files (<[p := JSON_stringify (JArr l)]> (files e)) e).
Proof.
  intros Hq Hw. rewrite Hq. cbn [app].
  now rewrite (drain_one _ (store_request p l)).
Qed.

(** ** [insertId] *)

Lemma wf_assigned_id (r : record) (e : env) :
  wf_record r = true -> wf (assigned_id r e) = true.
Proof.
  intros Hr. unfold assigned_id.
  destruct (truthy_opt (obj_get "id" r)); [|reflexivity].
  destruct (obj_get "id" r) as [v|] eqn:Ev; [|reflexivity].
  unfold wf_record in Hr. cbn [wf] in Hr.
  apply andb_true_iff in Hr as [_ Hr].
  exact (obj_get_wf _ _ _ Hr Ev).
Qed.

Lemma insertId_of (id : value) (db : jsonFileDB) (e : env) :
  lastInsertId db = Some id -> truthy id = true ->
  fst (insertId (db, e)) = Return id.
Proof.
  intros Hl Ht. unfold insertId, bind, this. cbn [fst]. now rewrite Hl, Ht.
Qed.

Lemma lastInsertId_setStorage (name : string) (db : jsonFileDB) (e : env) :
  lastInsertId (fst (snd (setStorage name (db, e)))) = lastInsertId db.
Proof.
  rewrite setStorage_eq. cbv zeta.
  destruct (existsSync _ e); [|destruct (writable _ e)]; reflexivity.
Qed.

(** ** The generated id *)

Lemma substring_length (s : string) :
  forall n m : nat, String.length (substring n m s) <= m.
Proof.
  induction s as [|c s IH]; intros n m.
  - destruct n, m; cbn; lia.
  - destruct n as [|n]; [destruct m as [|m]|]; cbn [substring String.length].
    + lia.
    + specialize (IH 0 m). lia.
    + apply IH.
Qed.

Lemma append_length (a b : string) :
  String.length (a +:+ b) = String.length a + String.length b.
Proof.
  induction a as [|c a IH]; [reflexivity|].
  cbn [String.append String.length Nat.add]. now rewrite <- IH.
Qed.

Lemma generate_id_eq (db : jsonFileDB) (e : env) :
  generate_id (db, e)
  = (Return (generated e), (db, with_drawn (S (S (drawn e))) e)).
Proof. reflexivity. Qed.

End MoreFacts.

(* ===================================================================== *)
(** * Further properties of the methods *)
(* ===================================================================== *)

Module Extra.
Import Json Node Db Spec JsonFacts DbFacts MoreFacts Samples.

(** X1 (insert without a storage). On a handle whose [storage] is still
    [null], or is the empty name, [insert] throws the "No storage selected"
    error and leaves the handle, the files and the random source as they
    were: no id is drawn and [lastInsertId] is not assigned.  This is also
    what happens after [setStorage] of the empty name. *)
Theorem insert_needs_storage (r : record) (db : jsonFileDB) (e : env) :
  (storage db = None \/ storage db = Some EmptyString ->
   insert r (db, e)
   = (Throw (Error "No storage selected. Call setStorage() before insert()"),
      (db, e)))
  /\ fst (insert r (snd (setStorage EmptyString (db, e))))
     = Throw (Error "No storage selected. Call setStorage() before insert()").
Proof.
  assert (H : forall db' e',
            storage db' = None \/ storage db' = Some EmptyString ->
            insert r (db', e')
            = (Throw (Error
                 "No storage selected. Call setStorage() before insert()"),
               (db', e'))).
  { intros db' e' Hs. unfold insert, insert_begin, bind, this. cbn [fst].
    now destruct Hs as [-> | ->]. }
  split; [apply H|].
  rewrite setStorage_eq. cbv zeta.
  destruct (existsSync _ e); [|destruct (writable _ e)]; cbn [snd];
    rewrite H; try reflexivity; now right.
Qed.

Lemma insert_needs_storage_witness :
  insert john (unbound "db", world "[]")
  = (Throw (Error "No storage selected. Call setStorage() before insert()"),
     (unbound "db", world "[]")).
Proof.
  apply (proj1 (insert_needs_storage john (unbound "db") (world "[]"))).
  left. reflexivity.
Defined.

(** X2 (reads change nothing). [get] called without a name, [find] and
    [insertId] leave the world exactly as it was (no file is written, no
    write is queued) and leave [dbPath], [storage], [storagePath] and
    [lastInsertId] as they were, whatever they return or throw.  (Of the
    fields of the handle, [get] assigns [storageData] only.) *)
Theorem reads_change_nothing (query : record) (s : state) :
  let untouched (s' : state) :=
    dbPath (fst s') = dbPath (fst s)
    /\ storage (fst s') = storage (fst s)
    /\ storagePath (fst s') = storagePath (fst s)
    /\ lastInsertId (fst s') = lastInsertId (fst s)
    /\ snd s' = snd s in
  untouched (snd (get EmptyString s))
  /\ untouched (snd (find query s))
  /\ untouched (snd (insertId s)).
Proof.
  destruct s as [db e]. cbv zeta. split; [|split].
  - now rewrite get_eq.
  - now rewrite find_of_load.
  - assert (H : snd (insertId (db, e)) = (db, e)).
    { unfold insertId, bind, this. cbn [fst].
      destruct (lastInsertId db) as [id|]; [destruct (truthy id)|];
        reflexivity. }
    now rewrite H.
Qed.

(** X3 (a load that fails). When the load of the collection fails, [find],
    [update] and [delete] throw the error of the load and change nothing: no
    write is queued.  The load fails with a wrapped [TypeError] on a handle
    that was never bound, with a wrapped ENOENT when the file is gone, and
    with a wrapped [SyntaxError] when the file does not hold JSON. *)
Theorem failed_load_stops (query updateData : record) (db : jsonFileDB)
    (e : env) :
  (forall x, fst (get EmptyString (db, e)) = Throw x ->
     find query (db, e) = (Throw x, (db, e))
     /\ update query updateData (db, e) = (Throw x, (db, e))
     /\ delete query (db, e) = (Throw x, (db, e)))
  /\ (storagePath db = None ->
      fst (get EmptyString (db, e)) = Throw (ErrorOf TypeError))
  /\ (forall p, storagePath db = Some p -> files e !! p = None ->
      fst (get EmptyString (db, e)) = Throw (ErrorOf (SystemError "ENOENT")))
  /\ (forall p text, storagePath db = Some p -> files e !! p = Some text ->
      JSON_valid text = false ->
      fst (get EmptyString (db, e)) = Throw (ErrorOf SyntaxError)).
Proof.
  rewrite get_eq. cbn [fst]. split; [|split; [|split]].
  - intros x Hx. unfold find, update, delete, bind, lift.
    rewrite get_eq, Hx. now repeat split.
  - intros Hp. unfold load, readFileSync. now rewrite Hp.
  - intros p Hp Hf. unfold load, readFileSync. now rewrite Hp, Hf.
  - intros p text Hp Hf Hj. unfold load, readFileSync.
    now rewrite Hp, Hf, (JSON_parse_invalid _ Hj).
Qed.

Lemma failed_load_stops_witness :
  update [("name", JStr "John")] [("age", JNum 29)] (users, world "oops")
  = (Throw (ErrorOf SyntaxError), (users, world "oops")).
Proof.
  destruct (failed_load_stops [("name", JStr "John")] [("age", JNum 29)]
              users (world "oops")) as (H & _).
  apply (H (ErrorOf SyntaxError)). reflexivity.
Defined.

(** X4 (a file that holds no array). When the storage file holds JSON that
    is not an array, [get] returns the value, but [find], [update] and
    [delete] throw a bare [TypeError] and change nothing, and [insert]
    throws an [Error] made from the [TypeError] and writes nothing. *)
Theorem non_array_collection (query updateData r : record) (db : jsonFileDB)
    (e : env) (v : value) :
  fst (get EmptyString (db, e)) = Return v ->
  (forall l, v <> JArr l) ->
  find query (db, e) = (Throw TypeError, (db, e))
  /\ update query updateData (db, e) = (Throw TypeError, (db, e))
  /\ delete query (db, e) = (Throw TypeError, (db, e))
  /\ (storage db <> None -> storage db <> Some EmptyString ->
      fst (insert r (db, e)) = Throw (ErrorOf TypeError)
      /\ files (snd (snd (insert r (db, e)))) = files e
      /\ pending (snd (snd (insert r (db, e)))) = pending e).
Proof.
  rewrite get_eq. cbn [fst]. intros Hv Hl.
  assert (He : elements v = Throw TypeError).
  { destruct v; try reflexivity. now destruct (Hl items). }
  assert (Hpush : forall item, push v item = Throw TypeError).
  { intros item. destruct v; try reflexivity. now destruct (Hl items). }
  split; [|split; [|split]].
  - unfold find, bind, lift. now rewrite get_eq, Hv, He.
  - unfold update, bind, lift. now rewrite get_eq, Hv, He.
  - unfold delete, bind, lift. now rewrite get_eq, Hv, He.
  - intros Hs1 Hs2.
    assert (Hs : truthy_opt (JStr <$> storage db) = true).
    { destruct (storage db) as [name|]; [|congruence]. cbn.
      apply negb_true_iff, String.eqb_neq. congruence. }
    unfold insert, bind. rewrite (insert_begin_eq r db e Hs).
    assert (Hload : load (set_lastInsertId (assigned_id r e) db) (after_id r e)
                    = Return v).
    { unfold load in *. cbn [storagePath set_lastInsertId].
      unfold readFileSync in *. now rewrite files_after_id. }
    rewrite Hload. unfold insert_resume, bind, lift, try_rethrow.
    rewrite Hpush. cbn [fst snd].
    now rewrite files_after_id, pending_after_id.
Qed.

Lemma non_array_collection_witness :
  find [("age", JNum 28)] (users, world "{}")
  = (Throw TypeError, (users, world "{}")).
Proof.
  apply (non_array_collection [("age", JNum 28)] [] [] users (world "{}")
           (JObj [])); [reflexivity|discriminate].
Defined.






(** X7 (updating twice).  Once the write of an [update] has been carried
    out, the same [update] made again returns the same records, and the
    file holds the same set after it. *)
Theorem update_twice (query updateData : record) (db : jsonFileDB) (e : env)
    (p : string) (rs : list record) :
  storagePath db = Some p ->
  stored db e = Some (map JObj rs) ->
  pending e = [] ->
  writable p e = true ->
  forallb (fun kv => wf (snd kv)) updateData = true ->
  let s1 := snd (idle (snd (update query updateData (db, e)))) in
  let s2 := snd (idle (snd (update query updateData s1))) in
  fst (update query updateData s1) = fst (update query updateData (db, e))
  /\ stored (fst s2) (snd s2) = stored (fst s1) (snd s1)
  /\ stored (fst s1) (snd s1)
     = Some (map JObj (map (updated query updateData) rs)).
Proof.
  intros Hp Hl Hq Hw Hu.
  assert (Hwf : forallb wf_record (map (updated query updateData) rs) = true).
  { apply wf_updated; [exact Hu|].
    rewrite <- wf_records. exact (stored_wf _ _ _ Hl). }
  rewrite (update_eq query updateData db e p rs Hp Hl).
  unfold idle. cbn [fst snd]. rewrite (settle_eq p _ e Hq Hw).
  set (rs1 := map (updated query updateData) rs) in *.
  set (e1 := with_pending [] (with_files _ e)).
  assert (Hl1 : stored db e1 = Some (map JObj rs1)).
  { apply (stored_written _ _ p); [exact Hp|apply lookup_insert_eq|].
    now rewrite wf_records. }
  assert (Hrs1 : map (updated query updateData) rs1 = rs1).
  { unfold rs1. rewrite map_map. apply map_ext. intros o.
    apply updated_updated. }
  rewrite (update_eq query updateData db e1 p rs1 Hp Hl1). cbn [fst snd].
  rewrite Hrs1. split; [reflexivity|]. split; [|exact Hl1].
  rewrite (settle_eq p _ e1 eq_refl Hw), Hl1.
  apply (stored_written _ _ p); [exact Hp|apply lookup_insert_eq|].
  now rewrite wf_records.
Qed.

Lemma update_twice_witness :
  let s1 := snd (idle (snd (update [("name", JStr "John")] [("age", JNum 29)]
                              (users, world john_text)))) in
  fst (update [("name", JStr "John")] [("age", JNum 29)] s1)
  = fst (update [("name", JStr "John")] [("age", JNum 29)]
           (users, world john_text)).
Proof.
  apply (update_twice [("name", JStr "John")] [("age", JNum 29)] users
           (world john_text) "db/users.json" [john]); reflexivity.
Defined.

(** X8 (an update that has settled). Whatever the thread pool has done to
    the file since [update] returned, once the event loop has called back
    the file decodes to the full post-update set, and a [find] returns the
    records of that set its query matches.  With a patch of scalars that
    has no key [__proto__], [find] on the patch itself then returns every
    record the update matched. *)
Theorem update_then_find (query updateData query' : record) (db : jsonFileDB)
    (e : env) (p : string) (rs : list record) :
  storagePath db = Some p ->
  stored db e = Some (map JObj rs) ->
  pending e = [] ->
  writable p e = true ->
  forallb (fun kv => wf (snd kv)) updateData = true ->
  let s0 := snd (update query updateData (db, e)) in
  forall e', in_flight (snd s0) e' ->
    let s1 := snd (idle (fst s0, e')) in
    fst (find query' s1)
    = Return (map JObj (List.filter (record_matches query')
                          (map (updated query updateData) rs)))
    /\ (forallb (fun kv => scalar (snd kv)) updateData = true ->
        ~ In "__proto__" (keys updateData) ->
        forall o, In o rs -> record_matches query o = true ->
          exists found,
            fst (find updateData s1) = Return found
            /\ In (JObj (patched updateData o)) found).
Proof.
  intros Hp Hl Hq Hw Hu.
  assert (Hwf : forallb wf_record (map (updated query updateData) rs) = true).
  { apply wf_updated; [exact Hu|].
    rewrite <- wf_records. exact (stored_wf _ _ _ Hl). }
  rewrite (update_eq query updateData db e p rs Hp Hl).
  cbv zeta. intros e' Hfl. unfold idle. cbn [fst snd] in Hfl |- *.
  rewrite Hq in Hfl. cbn [app] in Hfl.
  rewrite (drain_in_flight _ _ _ Hfl eq_refl).
  pose proof (settle_eq p (map JObj (map (updated query updateData) rs)) e
                Hq Hw) as Hs.
  rewrite Hq in Hs. cbn [app] in Hs. rewrite Hs.
  set (e1 := with_pending [] (with_files _ e)).
  assert (Hl1 : stored db e1
                = Some (map JObj (map (updated query updateData) rs))).
  { apply (stored_written _ _ p); [exact Hp|apply lookup_insert_eq|].
    now rewrite wf_records. }
  split.
  - now rewrite (find_eq query' db e1 _ Hl1).
  - intros Hsc Hproto o Hin Hm. rewrite (find_eq updateData db e1 _ Hl1).
    eexists. split; [reflexivity|]. cbn [fst].
    apply in_map, filter_In. split.
    + apply in_map_iff. exists o. split; [|exact Hin].
      unfold updated. now rewrite Hm.
    + now apply record_matches_patched.
Qed.

Lemma update_then_find_witness :
  fst (find [("age", JNum 29)]
         (snd (idle (snd (update [("name", JStr "John")] [("age", JNum 29)]
                            (users, world john_text))))))
  = Return (map JObj
              (List.filter (record_matches [("age", JNum 29)])
                 (map (updated [("name", JStr "John")] [("age", JNum 29)])
                    [john]))).
Proof.
  apply (update_then_find [("name", JStr "John")] [("age", JNum 29)]
           [("age", JNum 29)] users (world john_text) "db/users.json" [john]
           eq_refl eq_refl eq_refl eq_refl eq_refl _ (not_started _)).
Defined.

(** X9 (an update that changes nothing). With an empty patch, or with a
    query that matches no record, [update] returns the records unchanged,
    and the set the file decodes to is the same before and after its
    write. *)
Theorem update_without_effect (query updateData : record) (db : jsonFileDB)
    (e : env) (p : string) (rs : list record) :
  storagePath db = Some p ->
  stored db e = Some (map JObj rs) ->
  pending e = [] ->
  writable p e = true ->
  updateData = [] \/ (forall o, In o rs -> record_matches query o = false) ->
  let s1 := snd (idle (snd (update query updateData (db, e)))) in
  fst (update query updateData (db, e)) = Return (map JObj rs)
  /\ stored (fst s1) (snd s1) = Some (map JObj rs).
Proof.
  intros Hp Hl Hq Hw Hno.
  assert (Hrs : map (updated query updateData) rs = rs).
  { rewrite <- (map_id rs) at 2. apply map_ext_in. intros o Hin.
    unfold updated. destruct Hno as [-> |Hno].
    - now destruct (record_matches query o).
    - now rewrite (Hno o Hin). }
  rewrite (update_eq query updateData db e p rs Hp Hl), Hrs.
  unfold idle. cbn [fst snd]. split; [reflexivity|].
  rewrite (settle_eq p _ e Hq Hw).
  apply (stored_written _ _ p); [exact Hp|apply lookup_insert_eq|].
  exact (stored_wf _ _ _ Hl).
Qed.

Lemma update_without_effect_witness :
  fst (update [("name", JStr "Jane")] [("age", JNum 29)]
         (users, world john_text))
  = Return (map JObj [john]).
Proof.
  apply (update_without_effect [("name", JStr "Jane")] [("age", JNum 29)]
           users (world john_text) "db/users.json" [john]); try reflexivity.
  right. intros o [<-|[]]. reflexivity.
Defined.


(** X10 (what delete returns). In every state and for every query,
    [delete] returns exactly what [find] returns for that query, and throws
    what [find] throws. *)
Theorem delete_returns_what_find_selects (query : record) (s : state) :
  fst (delete query s) = fst (find query s).
Proof.
  destruct s as [db e]. rewrite find_of_load.
  unfold delete, bind, lift, this, on_env, ret. rewrite get_eq.
  destruct (load db e) as [data|x] eqn:Hload; [|reflexivity].
  destruct (load_path _ _ _ Hload) as (p & Hp).
  destruct (elements data) as [l|x]; [|reflexivity].
  pose proof (delete_scan_filter query l) as H. cbn [fst].
  destruct (delete_scan query l) as [[kept deleted]|x]; [|now rewrite H].
  cbn [fst snd]. rewrite Hp. cbn. now rewrite H.
Qed.

(** X11 (a delete that has settled). [delete] returns the records its
    query matches and queues the others, both in their order, and the two
    make up the collection.  Once the write has been carried out, the file
    decodes to the kept records, [get] returns them, and [find] with the
    same query finds nothing left.  The empty query removes everything. *)
Theorem delete_then_get (query : record) (db : jsonFileDB) (e : env)
    (p : string) (rs : list record) :
  storagePath db = Some p ->
  stored db e = Some (map JObj rs) ->
  pending e = [] ->
  writable p e = true ->
  let removed := List.filter (record_matches query) rs in
  let kept := List.filter (fun o => negb (record_matches query o)) rs in
  let s1 := snd (idle (snd (delete query (db, e)))) in
  fst (delete query (db, e)) = Return (map JObj removed)
  /\ length removed + length kept = length rs
  /\ fst (get EmptyString s1) = Return (JArr (map JObj kept))
  /\ fst (find query s1) = Return []
  /\ (query = [] -> removed = rs /\ kept = []).
Proof.
  intros Hp Hl Hq Hw. cbv zeta.
  rewrite (delete_eq query db e p rs Hp Hl).
  unfold idle. cbn [fst snd]. rewrite (settle_eq p _ e Hq Hw).
  set (kept := List.filter (fun o => negb (record_matches query o)) rs).
  set (e1 := with_pending [] (with_files _ e)).
  assert (Hl1 : stored db e1 = Some (map JObj kept)).
  { apply (stored_written _ _ p); [exact Hp|apply lookup_insert_eq|].
    rewrite wf_records. apply wf_filter.
    rewrite <- wf_records. exact (stored_wf _ _ _ Hl). }
  split; [reflexivity|]. split; [|split; [|split]].
  - unfold kept. clear. induction rs as [|o rs IH]; [reflexivity|].
    cbn [List.filter length]. destruct (record_matches query o);
      cbn [negb length]; lia.
  - now rewrite get_eq, (load_stored _ _ _ Hl1).
  - rewrite (find_eq query db e1 kept Hl1). cbn [fst]. f_equal.
    replace (List.filter (record_matches query) kept) with (@nil record);
      [reflexivity|].
    unfold kept. clear. induction rs as [|o rs IH]; [reflexivity|].
    cbn [List.filter]. destruct (record_matches query o) eqn:E;
      cbn [negb List.filter]; [exact IH|]. now rewrite E.
  - intros ->. unfold kept. clear. split.
    + induction rs as [|o rs IH]; [reflexivity|]. cbn [List.filter].
      change (record_matches [] o) with true. cbv iota. now rewrite IH.
    + induction rs as [|o rs IH]; [reflexivity|]. cbn [List.filter].
      change (record_matches [] o) with true. exact IH.
Qed.

Lemma delete_then_get_witness :
  fst (get EmptyString
         (snd (idle (snd (delete [("age", JNum 28)]
                            (users, world john_text))))))
  = Return (JArr (map JObj
                    (List.filter
                       (fun o => negb (record_matches [("age", JNum 28)] o))
                       [john]))).
Proof.
  apply (delete_then_get [("age", JNum 28)] users (world john_text)
           "db/users.json" [john]); reflexivity.
Defined.

(** X12 (the two ends of a query). [find] with the empty query returns
    every element of the collection, in order, whatever the elements are.
    A query that expects an array or an object under one of its keys selects
    nothing: [find] returns the empty array, [delete] removes nothing and
    [update] returns the records unchanged. *)
Theorem find_all_and_nothing (query updateData : record) (db : jsonFileDB)
    (e : env) :
  (forall l, stored db e = Some l -> find [] (db, e) = (Return l, (db, e)))
  /\ (forall key v rs,
        obj_get key query = Some v -> scalar v = false ->
        stored db e = Some (map JObj rs) ->
        fst (find query (db, e)) = Return []
        /\ fst (delete query (db, e)) = Return []
        /\ fst (update query updateData (db, e)) = Return (map JObj rs)).
Proof.
  split.
  - intros l Hl. rewrite find_of_load, (load_stored _ _ _ Hl).
    cbn [elements]. now rewrite filter_items_empty_query.
  - intros key v rs Hq Hv Hl.
    assert (Hnone : List.filter (record_matches query) rs = []).
    { clear -Hq Hv. induction rs as [|o rs' IH]; [reflexivity|].
      cbn [List.filter].
      now rewrite (record_matches_composite query o key v Hq Hv). }
    assert (Hfind : fst (find query (db, e)) = Return []).
    { rewrite (find_eq query db e rs Hl). cbn [fst]. now rewrite Hnone. }
    split; [exact Hfind|]. split.
    + destruct (stored_path _ _ _ Hl) as (p & Hp).
      rewrite (delete_eq query db e p rs Hp Hl). cbn [fst].
      now rewrite Hnone.
    + destruct (stored_path _ _ _ Hl) as (p & Hp).
      rewrite (update_eq query updateData db e p rs Hp Hl). cbn [fst].
      f_equal. f_equal. rewrite <- (map_id rs) at 2. apply map_ext.
      intros o. unfold updated.
      now rewrite (record_matches_composite query o key v Hq Hv).
Qed.

Lemma find_all_and_nothing_witness :
  find [] (users, world "[{},null]")
  = (Return [JObj []; JNull], (users, world "[{},null]")).
Proof.
  destruct (find_all_and_nothing [] [] users (world "[{},null]")) as (H & _).
  apply H. reflexivity.
Defined.


(** X13 (insert, then find by id). After an [insert] that succeeds, with an
    id that is a string, a number or [true], [find] on that id returns the
    earlier records that carry the same id, followed by the record just
    inserted: the new record is found, and an id already in use is shared. *)
Theorem insert_then_find_by_id (r : record) (name : string) (db : jsonFileDB)
    (e : env) (rs : list record) :
  bound name db ->
  stored db e = Some (map JObj rs) ->
  writable (storage_file (dbPath db) name) e = true ->
  wf_record r = true ->
  scalar (assigned_id r e) = true ->
  let s1 := snd (insert r (db, e)) in
  fst (insert r (db, e)) = Return (with_id r e)
  /\ fst (find [("id", assigned_id r e)] s1)
     = Return (map JObj
                 (List.filter (record_matches [("id", assigned_id r e)]) rs)
               ++ [JObj (with_id r e)]).
Proof.
  intros Hb Hl Hw Hr Hid. pose proof Hb as (_ & _ & Hp).
  rewrite (insert_eq r db e _ (map JObj rs) (bound_selected _ _ Hb) Hp Hl Hw).
  cbn [fst snd]. split; [reflexivity|].
  set (id := assigned_id r e) in *.
  assert (Hwid : wf_record (with_id r e) = true).
  { apply wf_obj_set; [exact Hr|]. now apply wf_assigned_id. }
  assert (Hl1 : stored (set_lastInsertId id db)
                  (with_files
                     (<[storage_file (dbPath db) name :=
                          JSON_stringify
                            (JArr (map JObj rs ++ [JObj (with_id r e)]))]>
                        (files e)) (after_id r e))
                = Some (map JObj (rs ++ [with_id r e]))).
  { rewrite map_app. apply (stored_written _ _ (storage_file (dbPath db) name));
      [exact Hp|apply lookup_insert_eq|].
    apply wf_append; [exact (stored_wf _ _ _ Hl)|exact Hwid]. }
  rewrite (find_eq _ _ _ _ Hl1). cbn [fst].
  rewrite List.filter_app, map_app. cbn [List.filter].
  assert (Hm : record_matches [("id", id)] (with_id r e) = true).
  { unfold record_matches, read, with_id. fold id.
    cbn [keys map fst forallb].
    rewrite obj_get_set_same. cbn [obj_get]. rewrite String.eqb_refl.
    cbn [strict_equals_opt default]. rewrite strict_equals_refl;
      [reflexivity|exact Hid|].
    pose proof (wf_assigned_id r e Hr) as Hwf. fold id in Hwf.
    destruct id; try discriminate Hwf; discriminate. }
  now rewrite Hm.
Qed.

Lemma insert_then_find_by_id_witness :
  fst (find [("id", assigned_id [("name", JStr "a")] (world john_text))]
         (snd (insert [("name", JStr "a")] (users, world john_text))))
  = Return (map JObj
              (List.filter
                 (record_matches
                    [("id",
                      assigned_id [("name", JStr "a")] (world john_text))])
                 [john])
            ++ [JObj (with_id [("name", JStr "a")] (world john_text))]).
Proof.
  apply (insert_then_find_by_id [("name", JStr "a")] "users" users
           (world john_text) [john]); try reflexivity.
  repeat split. discriminate.
Defined.

(** X14 (what insert can touch). Whatever it returns or throws, [insert]
    leaves [dbPath], [storage] and [storagePath] as they were, queues no
    write, throws nothing outside its caller, changes no permission, and
    changes no file but the one the handle is bound to. *)
Theorem insert_frame (r : record) (db : jsonFileDB) (e : env) :
  let s1 := snd (insert r (db, e)) in
  dbPath (fst s1) = dbPath db
  /\ storage (fst s1) = storage db
  /\ storagePath (fst s1) = storagePath db
  /\ readonly (snd s1) = readonly e
  /\ pending (snd s1) = pending e
  /\ uncaught (snd s1) = uncaught e
  /\ (forall p, storagePath db <> Some p ->
                files (snd s1) !! p = files e !! p).
Proof.
  cbv zeta.
  assert (Hid : readonly (after_id r e) = readonly e
                /\ pending (after_id r e) = pending e
                /\ uncaught (after_id r e) = uncaught e
                /\ files (after_id r e) = files e)
    by (unfold after_id; now destruct (truthy_opt _)).
  destruct Hid as (Hro & Hpe & Hun & Hfi).
  assert (Hdone : forall x : outcome record,
            let s1 := snd (x, (set_lastInsertId (assigned_id r e) db,
                               after_id r e)) in
            dbPath (fst s1) = dbPath db
            /\ storage (fst s1) = storage db
            /\ storagePath (fst s1) = storagePath db
            /\ readonly (snd s1) = readonly e
            /\ pending (snd s1) = pending e
            /\ uncaught (snd s1) = uncaught e
            /\ (forall p, storagePath db <> Some p ->
                          files (snd s1) !! p = files e !! p)).
  { intros x. cbn [fst snd dbPath storage storagePath set_lastInsertId].
    repeat split; try assumption. intros p _. now rewrite Hfi. }
  destruct (truthy_opt (JStr <$> storage db)) eqn:Hs.
  2: { unfold insert, insert_begin, bind, this. cbn [fst]. rewrite Hs.
       cbn. now repeat split. }
  unfold insert, bind. rewrite (insert_begin_eq r db e Hs).
  destruct (load _ (after_id r e)) as [data|x]; [|apply (Hdone (Throw _))].
  unfold insert_resume, bind, lift, this, on_env, try_rethrow, ret.
  destruct (push data (JObj (with_id r e))) as [data'|x];
    [|apply (Hdone (Throw _))].
  cbn [fst snd]. unfold writeFileSync. cbn [storagePath set_lastInsertId].
  destruct (storagePath db) as [p|] eqn:Hp; [|apply (Hdone (Throw _))].
  destruct (writable p (after_id r e)); [|apply (Hdone (Throw _))].
  cbn [fst snd dbPath storage storagePath set_lastInsertId readonly pending
       uncaught files with_files].
  repeat split; try assumption.
  intros p' Hne. rewrite Hfi. apply lookup_insert_ne. congruence.
Qed.

Lemma insert_frame_witness :
  files (snd (snd (insert john (users, world "[]")))) !! "db/posts.json"
  = files (world "[]") !! "db/posts.json".
Proof.
  destruct (insert_frame john users (world "[]"))
    as (_ & _ & _ & _ & _ & _ & H).
  apply H. discriminate.
Defined.

(** X15 (insertId after insert). On a handle that has inserted nothing,
    [insertId] throws the "No insert executed" error.  After an [insert]
    that succeeds it returns the id of the record that [insert] returned,
    provided that id is truthy (a generated id is, unless both draws are
    zero).  Binding the handle to another storage does not reset it. *)
Theorem insertId_after_insert (r : record) (name : string) (db : jsonFileDB)
    (e : env) (l : list value) :
  (lastInsertId db = None ->
   fst (insertId (db, e))
   = Throw (Error "No insert executed. Call insert() before insertId()"))
  /\ (bound name db -> stored db e = Some l ->
      writable (storage_file (dbPath db) name) e = true ->
      truthy (assigned_id r e) = true ->
      let s1 := snd (insert r (db, e)) in
      exists r',
        fst (insert r (db, e)) = Return r'
        /\ obj_get "id" r' = Some (assigned_id r e)
        /\ fst (insertId s1) = Return (assigned_id r e)
        /\ forall other,
             fst (insertId (snd (setStorage other s1)))
             = Return (assigned_id r e)).
Proof.
  split.
  - intros Hn. unfold insertId, bind, this. cbn [fst]. now rewrite Hn.
  - intros Hb Hl Hw Ht. pose proof Hb as (_ & _ & Hp). cbv zeta.
    rewrite (insert_eq r db e _ l (bound_selected _ _ Hb) Hp Hl Hw).
    cbn [fst snd]. exists (with_id r e). split; [reflexivity|].
    split; [apply obj_get_set_same|]. split.
    + now apply insertId_of.
    + intros other.
      match goal with
      | |- context [setStorage other (?d, ?w)] =>
          pose proof (lastInsertId_setStorage other d w) as Hkeep;
          destruct (setStorage other (d, w)) as [o [db2 e2]]
      end.
      cbn [fst snd] in Hkeep |- *. now apply insertId_of.
Qed.

Lemma insertId_after_insert_witness :
  fst (insertId (snd (insert [("id", JStr "x")] (users, world "[]"))))
  = Return (JStr "x").
Proof.
  destruct (insertId_after_insert [("id", JStr "x")] "users" users
              (world "[]") []) as (_ & H).
  assert (Hb : bound "users" users) by (repeat split; discriminate).
  destruct (H Hb eq_refl eq_refl eq_refl) as (r' & _ & _ & Hid & _).
  exact Hid.
Defined.


(** X16 (what setStorage does to the files). [setStorage] rebinds the
    handle, also when it throws, and keeps [lastInsertId].  It never changes
    a file that exists, and touches no path but the one it binds.  When it
    returns, the bound file exists, a second call with the same name changes
    nothing, and a storage whose file was absent is empty: [get] returns the
    empty array and [find] finds nothing.  When the file is absent and
    cannot be created it throws an [Error] made from the error of the
    write. *)
Theorem setStorage_keeps_files (name : string) (db : jsonFileDB) (e : env) :
  let path := storage_file (dbPath db) name in
  let s1 := snd (setStorage name (db, e)) in
  fst s1 = bind_storage name path db
  /\ lastInsertId (fst s1) = lastInsertId db
  /\ (forall p text, files e !! p = Some text ->
                     files (snd s1) !! p = Some text)
  /\ (forall p, p <> path -> files (snd s1) !! p = files e !! p)
  /\ (fst (setStorage name (db, e)) = Return tt ->
      files (snd s1) !! path <> None
      /\ setStorage name s1 = (Return tt, s1)
      /\ (files e !! path = None ->
          fst (get EmptyString s1) = Return (JArr [])
          /\ forall query, fst (find query s1) = Return []))
  /\ (files e !! path = None -> writable path e = false ->
      fst (setStorage name (db, e)) = Throw (ErrorOf (SystemError "EACCES"))).
Proof.
  cbv zeta. rewrite setStorage_eq. cbv zeta.
  set (path := storage_file (dbPath db) name).
  set (db1 := bind_storage name path db).
  assert (Hagain : forall e1, files e1 !! path <> None ->
            setStorage name (db1, e1) = (Return tt, (db1, e1))).
  { intros e1 He1. rewrite setStorage_eq. cbv zeta.
    change (storage_file (dbPath db1) name) with path.
    change (bind_storage name path db1) with db1.
    unfold existsSync. now destruct (files e1 !! path). }
  unfold existsSync. destruct (files e !! path) as [text|] eqn:Hf.
  - cbn [fst snd]. repeat split; try easy.
    + congruence.
    + apply Hagain. congruence.
  - destruct (writable path e) eqn:Hw; cbn [fst snd].
    + assert (Hnew : files (with_files (<[path := "[]"]> (files e)) e) !! path
                     = Some "[]") by apply lookup_insert_eq.
      repeat split; try easy.
      * intros p text Hp. cbn [files with_files].
        rewrite lookup_insert_ne; [exact Hp|congruence].
      * intros p Hne. cbn [files with_files].
        now rewrite lookup_insert_ne.
      * congruence.
      * apply Hagain. congruence.
      * rewrite get_eq. unfold load, readFileSync. cbn [fst storagePath db1].
        unfold db1. cbn [storagePath bind_storage]. now rewrite Hnew.
      * intros query. rewrite find_of_load. unfold load, readFileSync.
        unfold db1. cbn [storagePath bind_storage]. now rewrite Hnew.
    + repeat split; try easy.
Qed.

Lemma setStorage_keeps_files_witness :
  fst (get EmptyString (snd (setStorage "posts" (users, world john_text))))
  = Return (JArr []).
Proof.
  destruct (setStorage_keeps_files "posts" users (world john_text))
    as (_ & _ & _ & _ & H & _).
  destruct (H eq_refl) as (_ & _ & Hempty).
  destruct (Hempty eq_refl) as (Hget & _). exact Hget.
Defined.

(** X17 (handles on one file). What [get] and [find] return depends on the
    handle through [storagePath] only.  A record inserted through one handle
    is in what [get] returns through any other handle bound to the same
    file. *)
Theorem handles_share_a_file (r query : record) (name : string)
    (db1 db2 : jsonFileDB) (e : env) (l : list value) :
  storagePath db2 = storagePath db1 ->
  (forall e', fst (get EmptyString (db2, e')) = fst (get EmptyString (db1, e'))
              /\ fst (find query (db2, e')) = fst (find query (db1, e')))
  /\ (bound name db1 -> stored db1 e = Some l ->
      writable (storage_file (dbPath db1) name) e = true ->
      wf_record r = true ->
      fst (get EmptyString (db2, snd (snd (insert r (db1, e)))))
      = Return (JArr (l ++ [JObj (with_id r e)]))).
Proof.
  intros Hsame. split.
  - intros e'. rewrite !get_eq, !find_of_load.
    now rewrite (load_same_path db2 db1 e' Hsame).
  - intros Hb Hl Hw Hr. pose proof Hb as (_ & _ & Hp).
    rewrite (insert_eq r db1 e _ l (bound_selected _ _ Hb) Hp Hl Hw).
    cbn [fst snd]. rewrite get_eq. cbn [fst].
    apply load_stored.
    apply (stored_written _ _ (storage_file (dbPath db1) name)).
    + now rewrite Hsame.
    + apply lookup_insert_eq.
    + apply wf_append; [exact (stored_wf _ _ _ Hl)|].
      apply wf_obj_set; [exact Hr|].
      unfold assigned_id.
      destruct (truthy_opt (obj_get "id" r)); [|reflexivity].
      destruct (obj_get "id" r) as [v|] eqn:Ev; [|reflexivity].
      unfold wf_record in Hr. cbn [wf] in Hr.
      apply andb_true_iff in Hr as [_ Hr].
      exact (obj_get_wf _ _ _ Hr Ev).
Qed.

Lemma handles_share_a_file_witness :
  fst (get EmptyString
         (set_lastInsertId (JNum 7) users,
          snd (snd (insert [("id", JStr "x")] (users, world "[]")))))
  = Return (JArr ([] ++ [JObj (with_id [("id", JStr "x")] (world "[]"))])).
Proof.
  destruct (handles_share_a_file [("id", JStr "x")] [] "users" users
              (set_lastInsertId (JNum 7) users) (world "[]") [] eq_refl)
    as (_ & H).
  apply H; try reflexivity. repeat split. discriminate.
Defined.

(** X18 (the generated id). The id [insert] generates is made of the two
    draws, each cut to thirteen characters: it has at most 26 characters.
    An [insert] on a bound handle makes two draws when the record comes
    with no truthy id and none when it comes with one, however it ends. *)
Theorem generated_id_shape (r : record) (db : jsonFileDB) (e : env) :
  generate_id (db, e)
  = (Return (generated e), (db, with_drawn (S (S (drawn e))) e))
  /\ String.length (generated e) <= 26
  /\ (truthy_opt (JStr <$> storage db) = true ->
      drawn (snd (snd (insert r (db, e))))
      = if truthy_opt (obj_get "id" r) then drawn e else S (S (drawn e))).
Proof.
  split; [apply generate_id_eq|]. split.
  - unfold generated. rewrite append_length.
    pose proof (substring_length (random e (drawn e)) 2 13).
    pose proof (substring_length (random e (S (drawn e))) 2 13). lia.
  - intros Hs. unfold insert, bind. rewrite (insert_begin_eq r db e Hs).
    assert (Hd : drawn (after_id r e)
                 = if truthy_opt (obj_get "id" r) then drawn e
                   else S (S (drawn e)))
      by (unfold after_id; now destruct (truthy_opt (obj_get "id" r))).
    destruct (load _ (after_id r e)) as [data|x]; [|exact Hd].
    unfold insert_resume, bind, lift, this, on_env, try_rethrow, ret.
    destruct (push data _) as [data'|x]; [|exact Hd].
    cbn [fst snd]. unfold writeFileSync.
    destruct (storagePath _) as [p|]; [|exact Hd].
    destruct (writable p _); exact Hd.
Qed.

Lemma generated_id_shape_witness :
  drawn (snd (snd (insert [("name", JStr "a")] (users, world "[]")))) = 2.
Proof.
  destruct (generated_id_shape [("name", JStr "a")] users (world "[]"))
    as (_ & _ & H).
  apply (H eq_refl).
Defined.

(** X20 (what update and delete can touch). Whatever they return or
    throw, [update] and [delete] leave [dbPath], [storage], [storagePath],
    [lastInsertId] and the permissions as they were, and throw nothing
    outside their caller.  When they return they have handed one write to
    [fs.writeFile], to the bound file and with the callback of the source;
    when they throw they have handed none.  Whatever the thread pool does
    with that write, no file but the bound one changes. *)
Theorem update_and_delete_only_queue (query updateData : record) (s : state) :
  let touched (run : outcome (list value) * state) :=
    dbPath (fst (snd run)) = dbPath (fst s)
    /\ storage (fst (snd run)) = storage (fst s)
    /\ storagePath (fst (snd run)) = storagePath (fst s)
    /\ lastInsertId (fst (snd run)) = lastInsertId (fst s)
    /\ readonly (snd (snd run)) = readonly (snd s)
    /\ uncaught (snd (snd run)) = uncaught (snd s)
    /\ match fst run with
       | Return _ =>
           exists w, pending (snd (snd run)) = pending (snd s) ++ [w]
                     /\ storagePath (fst s) = Some (wr_path w)
                     /\ wr_callback w = write_callback
       | Throw _ => pending (snd (snd run)) = pending (snd s)
       end
    /\ (pending (snd s) = [] ->
        forall e', in_flight (snd (snd run)) e' ->
        forall p, storagePath (fst s) <> Some p ->
                  files e' !! p = files (snd s) !! p) in
  touched (update query updateData s) /\ touched (delete query s).
Proof.
  destruct s as [db e]. cbv zeta. cbn [fst snd].
  assert (Hsame : forall e', in_flight e e' -> pending e = [] -> e' = e).
  { intros e' [|w n Hin _] Hq; [reflexivity|]. rewrite Hq in Hin.
    destruct Hin. }
  assert (Hone : forall p data cb e',
            pending e = [] ->
            in_flight
              (with_pending
                 (pending e
                    ++ [{| wr_path := p; wr_data := data;
                           wr_callback := cb |}]) e) e' ->
            forall p', Some p <> Some p' -> files e' !! p' = files e !! p').
  { intros p data cb e' Hq H p' Hne. rewrite Hq in H. cbn [app] in H.
    destruct H as [|w n Hin _]; [reflexivity|].
    cbn [pending with_pending] in Hin. destruct Hin as [<-|[]].
    cbn [files with_files with_pending wr_path].
    apply lookup_insert_ne. congruence. }
  split.
  - unfold update, bind, lift, this, on_env, ret. rewrite get_eq.
    destruct (load db e) as [data|x] eqn:Hload.
    2: { cbn. repeat split. intros Hq e' H p _.
         now rewrite (Hsame e' H Hq). }
    destruct (load_path _ _ _ Hload) as (p & Hp).
    destruct (elements data) as [l|x].
    2: { cbn. repeat split. intros Hq e' H p' _.
         now rewrite (Hsame e' H Hq). }
    destruct (for_each _ l) as [l'|x].
    2: { cbn. repeat split. intros Hq e' H p' _.
         now rewrite (Hsame e' H Hq). }
    cbn [fst snd]. rewrite Hp. cbn [writeFile fst snd].
    repeat split; try reflexivity; try exact Hp.
    + eexists. now repeat split.
    + intros Hq e' H p' Hne. exact (Hone _ _ _ e' Hq H p' Hne).
  - unfold delete, bind, lift, this, on_env, ret. rewrite get_eq.
    destruct (load db e) as [data|x] eqn:Hload.
    2: { cbn. repeat split. intros Hq e' H p _.
         now rewrite (Hsame e' H Hq). }
    destruct (load_path _ _ _ Hload) as (p & Hp).
    destruct (elements data) as [l|x].
    2: { cbn. repeat split. intros Hq e' H p' _.
         now rewrite (Hsame e' H Hq). }
    destruct (delete_scan query l) as [[kept deleted]|x].
    2: { cbn. repeat split. intros Hq e' H p' _.
         now rewrite (Hsame e' H Hq). }
    cbn [fst snd]. rewrite Hp. cbn [writeFile fst snd].
    repeat split; try reflexivity; try exact Hp.
    + eexists. now repeat split.
    + intros Hq e' H p' Hne. exact (Hone _ _ _ e' Hq H p' Hne).
Qed.

Lemma update_and_delete_only_queue_witness :
  files (snd (snd (update [("name", JStr "John")] [("age", JNum 29)]
                     (users, world john_text)))) !! "db/posts.json"
  = files (world john_text) !! "db/posts.json".
Proof.
  destruct (update_and_delete_only_queue [("name", JStr "John")]
              [("age", JNum 29)] (users, world john_text)) as (Hu & _).
  destruct Hu as (_ & _ & _ & _ & _ & _ & _ & Hfiles).
  apply (Hfiles eq_refl _ (not_started _)). discriminate.
Defined.

End Extra.
